(** * VibeWare: round controller, session progression and round selector

    A shallow embedding of the game-flow logic of the microgame collection:

    - [GameConfig]     : [src/GameConfig.ts] (session record, catalog entries,
                         initial state);
    - [Registry]       : the metadata table of the registered microgames;
    - [BaseMicrogame]  : the base class of every microgame (per-round flags,
                         countdown, [setWinState] / [setFailState], [endGame]);
    - [TransitionScene]: [src/scenes/TransitionScene.ts] (choice of the next
                         microgame and the recent-games history);
    - [Session]        : the scenes chained into a play session;
    - [Round], [Progress], [Displays]: the frame update of the base class,
                         measures of rounds and sessions, and the lives and
                         speed displays of the transition scene;
    - [ClickGame], [DodgeGame], [FlappyFeatherGame], [TypeGame],
      [KeyboardSmashGame], [TerminalVirusGame]: what each of these
                         microgames declares, and when;
    - [Heap], [TitleScene]: the session state as the one object the title
                         scene hands to every session;
    - [DebugMenuScene] : the selection and the scrolling of the debug menu.

    Numbers.  JavaScript numbers are binary64 floats.  [lives], [score],
    [gamesCompleted] and [timeRemaining] only ever hold integers far below
    2^53, where float arithmetic is exact, and are modelled in [Z].  [speed]
    takes fractional values and is modelled by Rocq's primitive binary64
    floats, so that [speed + 0.2] rounds exactly as it does in the program.
    The value of [Math.random()] is modelled by a rational [u] with
    [0 <= u < 1], and the arithmetic of the selector on it is exact.  The
    payload of [TerminalVirusGame] and the feather of [FlappyFeatherGame]
    are floats as well; the scroll position of the debug menu is a
    rational. *)

From Stdlib Require Import ZArith QArith Qround Lqa Lia Bool List String.
From Stdlib Require Import Floats.PrimFloat.
From Stdlib Require Floats.FloatOps Floats.SpecFloat.
Import ListNotations.

(* [0.2] stands for the binary64 number nearest to it, as in JavaScript. *)
#[local] Set Warnings "-inexact-float".


#[local] Open Scope string_scope.
#[local] Open Scope Z_scope.
#[local] Open Scope list_scope.

(* ================================================================= *)
(** ** JavaScript helpers *)

Module JS.

(** [Math.min] on two numbers: NaN if either is NaN, and -0 below +0. *)
Definition Math_min (a b : float) : float :=
  if (is_nan a || is_nan b)%bool then nan
  else if ltb a b then a
  else if ltb b a then b
  else if get_sign a then a else b.

(** Truthiness of an optional string: [undefined] and [""] are falsy. *)
Definition truthy_string (s : option string) : bool :=
  match s with
  | None => false
  | Some k => negb (String.eqb k "")
  end.

(** Truthiness of an optional boolean. *)
Definition truthy_bool (b : option bool) : bool :=
  match b with
  | Some true => true
  | _ => false
  end.

(** [a % 5 === 0] style test: the remainder has the sign of the dividend. *)
Definition rem_is_zero (a b : Z) : bool := Z.rem a b =? 0.

(** [arr.indexOf(x)]: first position of [x], or -1. *)
Fixpoint indexOf (arr : list string) (x : string) : Z :=
  match arr with
  | [] => -1
  | y :: rest =>
      if String.eqb y x then 0
      else let i := indexOf rest x in
           if i =? -1 then -1 else i + 1
  end.

(** [arr.length] as a number. *)
Definition len {A} (arr : list A) : Z := Z.of_nat (List.length arr).

(** [arr.push(x)]. *)
Definition push {A} (arr : list A) (x : A) : list A := arr ++ [x].

(** [arr.shift()]: drops the first element (nothing to drop when empty). *)
Definition shift {A} (arr : list A) : list A := List.tl arr.

End JS.

(* ================================================================= *)
(** ** GameConfig.ts *)

Module GameConfig.

Record GameState := mkGameState {
  lives : Z;
  score : Z;
  currentGame : Z;
  speed : float;
  gamesCompleted : Z;
  debugMode : option bool;
  previousGameKey : option string;
  recentGames : option (list string)
}.

Record MicrogameInfo := mkMicrogameInfo {
  key : string;
  name : string;
  prompt : string;
  description : string;
  controls : string
}.

Definition INITIAL_GAME_STATE : GameState :=
  {| lives := 4;
     score := 0;
     currentGame := 0;
     speed := 1%float;
     gamesCompleted := 0;
     debugMode := Some false;
     previousGameKey := None;
     recentGames := Some [] |}.

(** The launch state of the debug menu: [{...INITIAL_GAME_STATE, debugMode: true}]. *)
Definition debugState : GameState :=
  {| lives := lives INITIAL_GAME_STATE;
     score := score INITIAL_GAME_STATE;
     currentGame := currentGame INITIAL_GAME_STATE;
     speed := speed INITIAL_GAME_STATE;
     gamesCompleted := gamesCompleted INITIAL_GAME_STATE;
     debugMode := Some true;
     previousGameKey := previousGameKey INITIAL_GAME_STATE;
     recentGames := recentGames INITIAL_GAME_STATE |}.

End GameConfig.
Import GameConfig.

(* ================================================================= *)
(** ** BaseMicrogame: one round *)

Module BaseMicrogame.

(** Calls into the engine and into the subclass hooks that a round makes,
    in the order in which they happen. *)
Inductive Effect :=
| ShowSuccessFeedback
| ShowFailureFeedback
| TimerRemove
| StopCurrentMusic
| CleanupControls
| PhysicsPause.

Definition Effect_eqb (a b : Effect) : bool :=
  match a, b with
  | ShowSuccessFeedback, ShowSuccessFeedback
  | ShowFailureFeedback, ShowFailureFeedback
  | TimerRemove, TimerRemove
  | StopCurrentMusic, StopCurrentMusic
  | CleanupControls, CleanupControls
  | PhysicsPause, PhysicsPause => true
  | _, _ => false
  end.

(** The fields of a [BaseMicrogame] scene.  [sceneKey] is [this.scene.key],
    [duration] is what [getGameDuration()] returns, [hasPhysicsWorld] is
    [this.physics && this.physics.world].  [scheduled] holds the value of
    [won] captured by the delayed transition that [endGame] registers, and
    [effects] is the log of calls made so far. *)
Record Microgame := mkMicrogame {
  sceneKey : string;
  duration : Z;
  hasPhysicsWorld : bool;
  gameState : GameState;
  timeRemaining : Z;
  hasWon : bool;
  hasFailed : bool;
  gameEnded : bool;
  gameReady : bool;
  scheduled : option bool;
  effects : list Effect
}.

Definition emit (e : Effect) (m : Microgame) : Microgame :=
  {| sceneKey := sceneKey m; duration := duration m;
     hasPhysicsWorld := hasPhysicsWorld m; gameState := gameState m;
     timeRemaining := timeRemaining m; hasWon := hasWon m;
     hasFailed := hasFailed m; gameEnded := gameEnded m;
     gameReady := gameReady m; scheduled := scheduled m;
     effects := effects m ++ [e] |}.

(** [init(data)]: adopts the session state and resets the round. *)
Definition init (k : string) (d : Z) (phys : bool) (gs : GameState) : Microgame :=
  {| sceneKey := k; duration := d; hasPhysicsWorld := phys;
     gameState := gs;
     timeRemaining := d;
     hasWon := false; hasFailed := false;
     gameEnded := false; gameReady := false;
     scheduled := None; effects := [] |}.

(** The callback that [create()] delays by one second: [setupGame],
    [setupControls], [startTimer], then [gameReady = true]. *)
Definition start (m : Microgame) : Microgame :=
  {| sceneKey := sceneKey m; duration := duration m;
     hasPhysicsWorld := hasPhysicsWorld m; gameState := gameState m;
     timeRemaining := timeRemaining m; hasWon := hasWon m;
     hasFailed := hasFailed m; gameEnded := gameEnded m;
     gameReady := true; scheduled := scheduled m;
     effects := effects m |}.

Definition setWinState (m : Microgame) : Microgame :=
  if (negb (gameEnded m) && negb (hasWon m))%bool then
    emit ShowSuccessFeedback
      {| sceneKey := sceneKey m; duration := duration m;
         hasPhysicsWorld := hasPhysicsWorld m; gameState := gameState m;
         timeRemaining := timeRemaining m; hasWon := true;
         hasFailed := hasFailed m; gameEnded := gameEnded m;
         gameReady := gameReady m; scheduled := scheduled m;
         effects := effects m |}
  else m.

Definition setFailState (m : Microgame) : Microgame :=
  if (negb (gameEnded m) && negb (hasFailed m))%bool then
    emit ShowFailureFeedback
      {| sceneKey := sceneKey m; duration := duration m;
         hasPhysicsWorld := hasPhysicsWorld m; gameState := gameState m;
         timeRemaining := timeRemaining m; hasWon := hasWon m;
         hasFailed := true; gameEnded := gameEnded m;
         gameReady := gameReady m; scheduled := scheduled m;
         effects := effects m |}
  else m.

(** [const won = this.hasWon && !this.hasFailed]. *)
Definition won (m : Microgame) : bool := (hasWon m && negb (hasFailed m))%bool.

(** The update of the session state inside [endGame]. *)
Definition applyOutcome (w : bool) (gs : GameState) : GameState :=
  if w then
    let score' := score gs + 100 in
    let completed' := gamesCompleted gs + 1 in
    let speed' :=
      if ((0 <? completed') && JS.rem_is_zero completed' 5)%bool
      then JS.Math_min (speed gs + 0.2)%float 3%float
      else speed gs in
    {| lives := lives gs; score := score'; currentGame := currentGame gs;
       speed := speed'; gamesCompleted := completed';
       debugMode := debugMode gs; previousGameKey := previousGameKey gs;
       recentGames := recentGames gs |}
  else
    {| lives := lives gs - 1; score := score gs; currentGame := currentGame gs;
       speed := speed gs; gamesCompleted := gamesCompleted gs;
       debugMode := debugMode gs; previousGameKey := previousGameKey gs;
       recentGames := recentGames gs |}.

Definition endGame (m : Microgame) : Microgame :=
  if gameEnded m then m
  else
    let w := won m in
    {| sceneKey := sceneKey m; duration := duration m;
       hasPhysicsWorld := hasPhysicsWorld m;
       gameState := applyOutcome w (gameState m);
       timeRemaining := timeRemaining m; hasWon := hasWon m;
       hasFailed := hasFailed m;
       gameEnded := true;
       gameReady := gameReady m;
       scheduled := Some w;
       effects := effects m
                  ++ [TimerRemove; StopCurrentMusic; CleanupControls]
                  ++ (if hasPhysicsWorld m then [PhysicsPause] else []) |}.

(** The callback of the repeating 50 ms timer that [startTimer] installs. *)
Definition timerCallback (m : Microgame) : Microgame :=
  let m' :=
    {| sceneKey := sceneKey m; duration := duration m;
       hasPhysicsWorld := hasPhysicsWorld m; gameState := gameState m;
       timeRemaining := timeRemaining m - 50; hasWon := hasWon m;
       hasFailed := hasFailed m; gameEnded := gameEnded m;
       gameReady := gameReady m; scheduled := scheduled m;
       effects := effects m |} in
  if timeRemaining m' <=? 0 then endGame m' else m'.

(** Where the round goes when the 500 ms delayed call of [endGame] fires. *)
Inductive SceneStart :=
| StartTitleScene
| StartTransitionScene (gs : GameState) (lastGameWon : bool) (previousGameKey : string).

Definition delayedTransition (m : Microgame) : option SceneStart :=
  match scheduled m with
  | None => None
  | Some w =>
      Some (if JS.truthy_bool (debugMode (gameState m)) then StartTitleScene
            else if lives (gameState m) <=? 0 then StartTitleScene
            else StartTransitionScene (gameState m) w (sceneKey m))
  end.

(** What can happen to a running round: the timer fires, or the game's own
    logic (an input handler, [onGameUpdate], a collision) declares an
    outcome. *)
Inductive Event := Tick | DeclareWin | DeclareFail.

Definition step (m : Microgame) (e : Event) : Microgame :=
  match e with
  | Tick => timerCallback m
  | DeclareWin => setWinState m
  | DeclareFail => setFailState m
  end.

Definition run (m : Microgame) (tr : list Event) : Microgame :=
  fold_left step tr m.

(** The timer keeps firing until the round has ended. *)
Fixpoint runTimer (fuel : nat) (m : Microgame) : Microgame :=
  match fuel with
  | O => m
  | S fuel' => if gameEnded m then m else runTimer fuel' (timerCallback m)
  end.

Definition expire (m : Microgame) : Microgame :=
  runTimer (S (Z.to_nat (timeRemaining m / 50))) m.

(** A whole round: started on session state [gs], driven by the events
    [tr], and then left to its countdown. *)
Definition playRound (k : string) (d : Z) (phys : bool) (gs : GameState)
    (tr : list Event) : Microgame :=
  expire (run (start (init k d phys gs)) tr).

Definition count (e : Effect) (m : Microgame) : nat :=
  List.length (filter (Effect_eqb e) (effects m)).

(** [settled gs m]: in a round started on [gs], nothing has been applied
    or released while the round runs, and once it has ended the outcome
    has been applied once and the timer and the controls released once. *)
Definition settled (gs : GameState) (m : Microgame) : Prop :=
  if gameEnded m then
    scheduled m = Some (won m) /\ gameState m = applyOutcome (won m) gs /\
    count CleanupControls m = 1%nat /\ count TimerRemove m = 1%nat
  else
    scheduled m = None /\ gameState m = gs /\
    count CleanupControls m = 0%nat /\ count TimerRemove m = 0%nat.

End BaseMicrogame.

(* ================================================================= *)
(** ** The registry's metadata table, which [GameConfig.ts] re-exports as
       [MICROGAMES] *)

Module Registry.

Definition MICROGAME_METADATA : list MicrogameInfo :=
  [ mkMicrogameInfo "CatchGame" "Catch the Egg" "CATCH!"
      "Move basket to catch falling egg" "Mouse: Move left/right";
    mkMicrogameInfo "TypeGame" "Type the Word" "TYPE!"
      "Type the word shown before time runs out"
      "Keyboard: Type letters, Backspace to delete";
    mkMicrogameInfo "DodgeGame" "Dodge the Fire" "DODGE!"
      "Avoid falling projectiles" "Arrow keys: Move left/right";
    mkMicrogameInfo "ClickGame" "Click the Target" "CLICK!"
      "Click the target before it disappears" "Mouse: Click on target";
    mkMicrogameInfo "SneezeGame" "Fake Sneeze" "SNEEZE!"
      "Mash S key 10 times to build up a sneeze" "Keyboard: Press S repeatedly";
    mkMicrogameInfo "TerminalVirusGame" "Stop the Virus" "TERMINATE!"
      "Press Ctrl+C to stop the virus"
      "Keyboard: Type letters, Backspace to delete";
    mkMicrogameInfo "PetDogGame" "Pet the Dog" "PET!"
      "Hold spacebar to pet the dog" "Keyboard: Hold Spacebar";
    mkMicrogameInfo "FruitSliceGame" "Slice the Fruits" "SLICE!"
      "Slice all fruits before they fall" "Mouse: Drag to slice";
    mkMicrogameInfo "KeyboardSmashGame" "Keyboardsmash Game" "SMASH!"
      "Frantically hit as many different keyboard keys as possible before time runs out"
      "Keyboard: Press as many different keys as you can";
    mkMicrogameInfo "SneezeShieldGame" "Sneezeshield Game" "BLOCK SNEEZE!"
      "A rapid sneeze is imminent! Use a tissue to block it." "Mouse";
    mkMicrogameInfo "FlickThePickleGame" "Flickthepickle Game" "FLICK!"
      "Flick a wobbly pickle from a jar." "Mouse";
    mkMicrogameInfo "FlappyFeatherGame" "Flappyfeather Game" "FLAP!"
      "Keep a feather in the air by flapping as much as you can."
      "Mouse Click" ].

(** A scene is registered under a key iff the key is in the table. *)
Definition registered (cat : list MicrogameInfo) (k : string) : bool :=
  existsb (fun g => String.eqb (key g) k) cat.

End Registry.

(* ================================================================= *)
(** ** TransitionScene: choosing the next microgame *)

Module TransitionScene.

(** [Phaser.Utils.Array.GetRandom(arr)]: the element at index
    [Math.floor(Math.random() * arr.length)], or [null] when there is none.
    [u] is the value of [Math.random()]. *)
Definition GetRandom {A} (u : Q) (arr : list A) : option A :=
  nth_error arr (Z.to_nat (Qfloor (u * inject_Z (JS.len arr)))).

Record GameWeight := mkGameWeight {
  game : MicrogameInfo;
  weight : Z
}.

(** The loop [for (const gameWeight of gameWeights)]: [None] when it runs
    off the end with [nextGame] still unassigned. *)
Fixpoint weightedLoop (random : Q) (gws : list GameWeight) : option MicrogameInfo :=
  match gws with
  | [] => None
  | gameWeight :: rest =>
      let random' := (random - inject_Z (weight gameWeight))%Q in
      if Qle_bool random' 0 then Some (game gameWeight)
      else weightedLoop random' rest
  end.

(** [scene.start] as issued by [transitionToGame]. *)
Inductive SceneStart :=
| StartMicrogame (nextGameKey : string) (gs : GameState)
| FallbackToTitle.

Section Catalog.

Variable MICROGAMES : list MicrogameInfo.

(** [this.scene.get(key)] is truthy. *)
Variable sceneExists : string -> bool.

(** [Math.min(3, Math.floor(MICROGAMES.length / 2))]. *)
Definition HISTORY_SIZE : Z := Z.min 3 (JS.len MICROGAMES / 2).

(** [init(data)]. *)
Definition init (gs : GameState) (dataPreviousGameKey : option string) : GameState :=
  if JS.truthy_string dataPreviousGameKey then
    {| lives := lives gs; score := score gs; currentGame := currentGame gs;
       speed := speed gs; gamesCompleted := gamesCompleted gs;
       debugMode := debugMode gs;
       previousGameKey := dataPreviousGameKey;
       recentGames := recentGames gs |}
  else gs.

(** [if (!this.gameState.recentGames) this.gameState.recentGames = []]. *)
Definition ensureRecentGames (gs : GameState) : GameState :=
  match recentGames gs with
  | Some _ => gs
  | None =>
      {| lives := lives gs; score := score gs; currentGame := currentGame gs;
         speed := speed gs; gamesCompleted := gamesCompleted gs;
         debugMode := debugMode gs;
         previousGameKey := previousGameKey gs;
         recentGames := Some [] |}
  end.

Definition recentList (gs : GameState) : list string :=
  match recentGames gs with
  | Some l => l
  | None => []
  end.

(** The body of [MICROGAMES.map(game => ...)]. *)
Definition gameWeight (recent : list string) (g : MicrogameInfo) : GameWeight :=
  let recentIndex := JS.indexOf recent (key g) in
  if recentIndex =? -1 then
    {| game := g; weight := 100 |}
  else
    let age := JS.len recent - recentIndex in
    {| game := g; weight := age * 20 |}.

Definition gameWeights (recent : list string) : list GameWeight :=
  map (gameWeight recent) MICROGAMES.

(** [gameWeights.reduce((sum, gw) => sum + gw.weight, 0)]. *)
Definition totalWeight (gws : list GameWeight) : Z :=
  fold_left (fun sum gw => sum + weight gw) gws 0.

(** The branch for very few games: the games it draws from, and the draw. *)
Definition availableGames (gs : GameState) : list MicrogameInfo :=
  match previousGameKey gs with
  | Some prev =>
      if (JS.truthy_string (Some prev) && (1 <? JS.len MICROGAMES))%bool
      then filter (fun g => negb (String.eqb (key g) prev)) MICROGAMES
      else MICROGAMES
  | None => MICROGAMES
  end.

Definition smallCatalogChoice (u : Q) (gs : GameState) : option MicrogameInfo :=
  GetRandom u (availableGames gs).

(** The recency-weighted branch; [u] is the value of [Math.random()] and
    [u'] the draw of the fallback [GetRandom]. *)
Definition weightedChoice (u u' : Q) (gs : GameState) : option MicrogameInfo :=
  let gws := gameWeights (recentList gs) in
  let random := (u * inject_Z (totalWeight gws))%Q in
  match weightedLoop random gws with
  | Some g => Some g
  | None => GetRandom u' MICROGAMES
  end.

Definition usesSmallCatalogBranch : bool :=
  JS.len MICROGAMES <=? HISTORY_SIZE + 1.

Definition chooseNextGame (u u' : Q) (gs : GameState) : option MicrogameInfo :=
  if usesSmallCatalogBranch then smallCatalogChoice u gs
  else weightedChoice u u' gs.

(** [showNextGameControls()], as far as the session state and
    [nextGameKey] go.  [oldKey] is the value [nextGameKey] had before.
    [None] stands for the TypeError of reading [.key] of [null]. *)
Definition showNextGameControls (u u' : Q) (oldKey : string) (gs : GameState)
    : option (GameState * string) :=
  if 0 <? JS.len MICROGAMES then
    let gs1 := ensureRecentGames gs in
    match chooseNextGame u u' gs1 with
    | Some nextGame => Some (gs1, key nextGame)
    | None => None
    end
  else Some (gs, oldKey).

(** The [onComplete] callback of [transitionToGame()]. *)
Definition transitionToGame (nextGameKey : string) (gs : GameState) : SceneStart :=
  if (JS.truthy_string (Some nextGameKey) && sceneExists nextGameKey)%bool then
    let pushed := JS.push (recentList gs) nextGameKey in
    let kept := if HISTORY_SIZE <? JS.len pushed then JS.shift pushed else pushed in
    StartMicrogame nextGameKey
      {| lives := lives gs; score := score gs; currentGame := currentGame gs;
         speed := speed gs; gamesCompleted := gamesCompleted gs;
         debugMode := debugMode gs;
         previousGameKey := Some nextGameKey;
         recentGames := Some kept |}
  else FallbackToTitle.

End Catalog.

End TransitionScene.

(* ================================================================= *)
(** ** A play session: TransitionScene and microgames in alternation *)

Module Session.

Import BaseMicrogame.

(** What the player and the random source contribute to one round. *)
Record RoundScript := mkRoundScript {
  draw : Q;
  fallbackDraw : Q;
  events : list Event
}.

(** One round as the session saw it: the state handed to the microgame and
    the microgame when its round was over. *)
Record PlayedRound := mkPlayedRound {
  before : GameState;
  after : Microgame
}.

Section Game.

Variable MICROGAMES : list MicrogameInfo.
Variable sceneExists : string -> bool.
(** Per scene key: [getGameDuration()] and whether the scene has a
    physics world. *)
Variable getGameDuration : string -> Z.
Variable physicsWorld : string -> bool.

(** From a [TransitionScene] holding [gs] to the end of the microgame it
    starts, if it starts one. *)
Definition playOne (oldKey : string) (gs : GameState) (r : RoundScript)
    : option PlayedRound :=
  match TransitionScene.showNextGameControls MICROGAMES
          (draw r) (fallbackDraw r) oldKey gs with
  | None => None
  | Some (gs1, nextGameKey) =>
      match TransitionScene.transitionToGame MICROGAMES sceneExists
              nextGameKey gs1 with
      | TransitionScene.FallbackToTitle => None
      | TransitionScene.StartMicrogame k gs2 =>
          Some {| before := gs2;
                  after := playRound k (getGameDuration k) (physicsWorld k)
                             gs2 (events r) |}
      end
  end.

(** The rounds of a session that enters [TransitionScene] with [gs]
    (and with [data.previousGameKey = prev]), one script per round. *)
Fixpoint playSession (oldKey : string) (gs : GameState) (prev : option string)
    (script : list RoundScript) : list PlayedRound :=
  match script with
  | [] => []
  | r :: rest =>
      match playOne oldKey (TransitionScene.init gs prev) r with
      | None => []
      | Some pr =>
          pr ::
          match delayedTransition (after pr) with
          | Some (StartTransitionScene gs' _ k) =>
              playSession (sceneKey (after pr)) gs' (Some k) rest
          | _ => []
          end
      end
  end.

(** The session is over after a round when that round returns to the
    title scene. *)
Definition sessionOver (pr : PlayedRound) : Prop :=
  delayedTransition (after pr) = Some StartTitleScene.

End Game.

(** Two session states that differ at most in the selector's bookkeeping
    ([previousGameKey], [recentGames]). *)
Definition sameProgress (a b : GameState) : Prop :=
  lives a = lives b /\ score a = score b /\ speed a = speed b /\
  gamesCompleted a = gamesCompleted b /\ debugMode a = debugMode b.

(** The round was won and brought [gamesCompleted] to a positive multiple
    of 5: the test that guards the speed increase in [endGame]. *)
Definition speedStepDue (m : Microgame) : bool :=
  match scheduled m with
  | Some true =>
      ((0 <? gamesCompleted (gameState m))
       && JS.rem_is_zero (gamesCompleted (gameState m)) 5)%bool
  | _ => false
  end.

(** The speeds a session that starts at speed 1 passes through. *)
Definition speedLevels : list float :=
  [ 1; 0x1.3333333333333p+0; 0x1.6666666666666p+0; 0x1.9999999999999p+0;
    0x1.cccccccccccccp+0; 0x1.fffffffffffffp+0; 0x1.1999999999999p+1;
    0x1.3333333333333p+1; 0x1.4cccccccccccdp+1; 0x1.6666666666667p+1;
    3 ]%float.

End Session.

(* ================================================================= *)
(** ** BaseMicrogame: the frame update, and measures of a round *)

Module Round.

Import BaseMicrogame.

(** The test of [update(time, delta)]: a game's [onGameUpdate] is called
    only while [!this.gameEnded && this.gameReady]. *)
Definition updateRuns (m : Microgame) : bool :=
  (negb (gameEnded m) && gameReady m)%bool.

(** [update(time, delta)], for a game whose own fields are of type [S]. *)
Definition update {S : Type} (onGameUpdate : S * Microgame -> S * Microgame)
    (sm : S * Microgame) : S * Microgame :=
  if updateRuns (snd sm) then onGameUpdate sm else sm.

Definition isTick (e : Event) : bool :=
  match e with
  | Tick => true
  | _ => false
  end.

(** How often the timer has fired in a trace. *)
Definition ticks (tr : list Event) : nat := List.length (filter isTick tr).

(** The firing of the 50 ms timer at which a round of [d] milliseconds
    ends: the first one that leaves no time, and at the earliest the first. *)
Definition ticksToEnd (d : Z) : nat := Z.to_nat (Z.max 1 ((d + 49) / 50)).








End Round.

(* ================================================================= *)
(** ** Measures of a session *)

Module Progress.

Import BaseMicrogame Session.

Definition roundWon (pr : PlayedRound) : bool :=
  match scheduled (after pr) with
  | Some true => true
  | _ => false
  end.

Definition wins (rounds : list PlayedRound) : Z :=
  Z.of_nat (List.length (filter roundWon rounds)).

Definition losses (rounds : list PlayedRound) : Z :=
  Z.of_nat (List.length (filter (fun pr => negb (roundWon pr)) rounds)).

(** The speed that goes with a number of completed games: one step for
    every five, ten steps at most. *)
Definition levelOf (completed : Z) : float :=
  nth (Z.to_nat (Z.min 10 (completed / 5))) speedLevels 3%float.

(** The keys of the games played, in order. *)
Definition keysPlayed (rounds : list PlayedRound) : list string :=
  map (fun pr => sceneKey (after pr)) rounds.

(** The last [n] elements of a list. *)
Definition lastn {A : Type} (n : Z) (l : list A) : list A :=
  skipn (List.length l - Z.to_nat n) l.

End Progress.

(* ================================================================= *)
(** ** TransitionScene: the lives and speed displays *)

Module Displays.

(** [createLivesDisplay()]: the loop [for (let i = 0; i < 4; i++)] draws an
    active heart when [i < this.gameState.lives] and an empty slot
    otherwise.  [true] is an active heart. *)
Definition createLivesDisplay (lives : Z) : list bool :=
  map (fun i => i <? lives) [0; 1; 2; 3].

(** [createSpeedIndicator()]: the loop
    [for (let i = 0; i < this.gameState.speed; i++)] adds one bar per
    iteration.  [fuel] bounds the number of iterations. *)
Fixpoint speedBarsFrom (fuel : nat) (i speed : float) : nat :=
  match fuel with
  | O => O
  | S fuel' =>
      if ltb i speed then S (speedBarsFrom fuel' (i + 1)%float speed) else O
  end.

Definition createSpeedIndicator (fuel : nat) (speed : float) : nat :=
  speedBarsFrom fuel 0%float speed.

(** [init(data)]: [this.lastGameWon = data.lastGameWon ?? true]. *)
Definition lastGameWon (dataLastGameWon : option bool) : bool :=
  match dataLastGameWon with
  | Some b => b
  | None => true
  end.

(** [create()]: [if (!this.lastGameWon) this.showDramaticHeartBreak()]. *)
Definition showsHeartBreak (dataLastGameWon : option bool) : bool :=
  negb (lastGameWon dataLastGameWon).

End Displays.

(* ================================================================= *)
(** ** Strings of ASCII characters *)

Module JSString.

Definition upperChar (c : Ascii.ascii) : Ascii.ascii :=
  let n := Ascii.nat_of_ascii c in
  if (Nat.leb 97 n && Nat.leb n 122)%bool then Ascii.ascii_of_nat (n - 32) else c.

(** [s.toUpperCase()] on a string of ASCII characters, where it maps [a-z]
    to [A-Z] and leaves every other character.  On other strings
    [String.prototype.toUpperCase] follows the Unicode case mapping and
    this function does not: what is stated of arbitrary keys is stated of
    keys that satisfy [isAscii]. *)
Fixpoint toUpperCase (s : string) : string :=
  match s with
  | EmptyString => EmptyString
  | String c rest => String (upperChar c) (toUpperCase rest)
  end.

(** Every character of [s] is below U+0080. *)
Fixpoint isAscii (s : string) : bool :=
  match s with
  | EmptyString => true
  | String c rest => (Nat.ltb (Ascii.nat_of_ascii c) 128 && isAscii rest)%bool
  end.

End JSString.

(* ================================================================= *)
(** ** Microgames: what each one declares, and when *)

(** [ClickGame]: one target, and a click on it or off it. *)
Module ClickGame.

Import BaseMicrogame.

Definition getGameDuration : Z := 4000.

(** What reaches the scene: its timer firing, or a [pointerdown] whose
    position is inside the target's bounds or not. *)
Inductive Input :=
| TimerFires
| PointerDown (onTarget : bool).

(** [handleClick(pointer)], with
    [onTarget = this.target.getBounds().contains(pointer.x, pointer.y)]. *)
Definition handleClick (onTarget : bool) (m : Microgame) : Microgame :=
  if onTarget then setWinState m else setFailState m.

Definition handle (m : Microgame) (i : Input) : Microgame :=
  match i with
  | TimerFires => timerCallback m
  | PointerDown onTarget => handleClick onTarget m
  end.

Definition play (m : Microgame) (inputs : list Input) : Microgame :=
  fold_left handle inputs m.

Definition newRound (phys : bool) (gs : GameState) : Microgame :=
  start (init "ClickGame" getGameDuration phys gs).

(** What an input is to the base class: a timer firing or a declaration. *)
Definition asEvent (i : Input) : Event :=
  match i with
  | TimerFires => Tick
  | PointerDown true => DeclareWin
  | PointerDown false => DeclareFail
  end.

End ClickGame.

(** [DodgeGame]: survive the projectiles until the last 100 ms. *)
Module DodgeGame.

Import BaseMicrogame.

Definition getGameDuration : Z := 4000.

(** The timer firing, a frame ([update]), or the physics overlap of the
    player with a projectile. *)
Inductive Input :=
| TimerFires
| Frame
| Overlap.

(** [onGameUpdate], as far as the outcome goes. *)
Definition onGameUpdate (m : Microgame) : Microgame :=
  if (hasFailed m || gameEnded m)%bool then m
  else if ((timeRemaining m <=? 100) && negb (hasFailed m) && negb (hasWon m))%bool
       then setWinState m
       else m.

(** [handleHit()]. *)
Definition handleHit (m : Microgame) : Microgame :=
  if negb (hasFailed m) then setFailState m else m.

Definition handle (m : Microgame) (i : Input) : Microgame :=
  match i with
  | TimerFires => timerCallback m
  | Frame => if Round.updateRuns m then onGameUpdate m else m
  | Overlap => handleHit m
  end.

Definition play (m : Microgame) (inputs : list Input) : Microgame :=
  fold_left handle inputs m.

Definition newRound (phys : bool) (gs : GameState) : Microgame :=
  start (init "DodgeGame" getGameDuration phys gs).

Definition isTimer (i : Input) : bool :=
  match i with
  | TimerFires => true
  | _ => false
  end.

(** How often the timer has fired. *)
Definition firings (inputs : list Input) : nat :=
  List.length (filter isTimer inputs).

End DodgeGame.

(** [FlappyFeatherGame]: keep the feather between the spikes. *)
Module FlappyFeatherGame.

Import BaseMicrogame.

Definition getGameDuration : Z := 4000.

Definition gravity : float := 400.
Definition flapStrength : float := (-300)%float.
(** [GAME_HEIGHT - 50]. *)
Definition featherMaxY : float := (600 - 50)%float.

(** The game's own fields: [velocityY] and [feather.y]. *)
Record Feather := mkFeather {
  velocityY : float;
  y : float
}.

(** [resetGameState()] and [createFeather()]: at rest, at [GAME_HEIGHT / 2]. *)
Definition newFeather : Feather := {| velocityY := 0; y := (600 / 2)%float |}.

Inductive Input :=
| TimerFires
| Frame (delta : float)
| PointerDown.

(** [showFailureFeedback(); setFailState();] *)
Definition fail (m : Microgame) : Microgame :=
  setFailState (emit ShowFailureFeedback m).

Definition onGameUpdate (delta : float) (fm : Feather * Microgame)
    : Feather * Microgame :=
  let (f, m) := fm in
  if negb (hasFailed m) then
    let v := (velocityY f + gravity * (delta / 1000))%float in
    let y0 := (y f + v * (delta / 1000))%float in
    let '(y1, m1) :=
      if ltb featherMaxY y0 then (featherMaxY, fail m) else (y0, m) in
    let '(y2, m2) :=
      if ltb y1 0 then (0%float, fail m1) else (y1, m1) in
    let m3 :=
      if ((timeRemaining m2 <=? 0) && ltb 0 y2 && ltb y2 featherMaxY)%bool
      then setWinState m2 else m2 in
    ({| velocityY := v; y := y2 |}, m3)
  else fm.

(** [flap()]. *)
Definition flap (f : Feather) : Feather :=
  {| velocityY := flapStrength; y := y f |}.

Definition handle (fm : Feather * Microgame) (i : Input) : Feather * Microgame :=
  match i with
  | TimerFires => (fst fm, timerCallback (snd fm))
  | Frame delta => Round.update (onGameUpdate delta) fm
  | PointerDown => (flap (fst fm), snd fm)
  end.

Definition play (fm : Feather * Microgame) (inputs : list Input)
    : Feather * Microgame :=
  fold_left handle inputs fm.

Definition newRound (phys : bool) (gs : GameState) : Feather * Microgame :=
  (newFeather, start (init "FlappyFeatherGame" getGameDuration phys gs)).

(** What holds of a FlappyFeather round started on [gs], at every moment. *)
Definition neverWon (gs : GameState) (m : Microgame) : Prop :=
  hasWon m = false /\ gameReady m = true /\
  count ShowFailureFeedback m = (if hasFailed m then 2 else 0)%nat /\
  (if gameEnded m
   then scheduled m = Some false /\ gameState m = applyOutcome false gs
   else 0 < timeRemaining m /\ scheduled m = None /\ gameState m = gs).

End FlappyFeatherGame.

(** [TypeGame]: type the word that is shown.  Key names are taken to be
    ASCII, and [toUpperCase] is the ASCII one. *)
Module TypeGame.

Import BaseMicrogame JSString.

Definition getGameDuration : Z := 3000.

Definition words : list string :=
  ["BANANA"; "PHASER"; "SPEED"; "QUICK"; "GAME"; "TYPE"; "FAST"; "WIN"].

(** The game's own fields.  They are set where they are declared, when the
    scene is constructed; [init] and [resetGameState] leave them alone. *)
Record Words := mkWords {
  targetWord : string;
  typedWord : string
}.

(** The fields of a newly constructed scene. *)
Definition constructed : Words := {| targetWord := ""; typedWord := "" |}.

Definition isCapital (c : Ascii.ascii) : bool :=
  let n := Ascii.nat_of_ascii c in (Nat.leb 65 n && Nat.leb n 90)%bool.

(** [key.length === 1 && key.match(/[A-Z]/)]. *)
Definition isLetterKey (key : string) : bool :=
  match key with
  | String c EmptyString => isCapital c
  | _ => false
  end.

(** [s.slice(0, -1)]: [s] without its last character. *)
Fixpoint dropLast (s : string) : string :=
  match s with
  | EmptyString => EmptyString
  | String c EmptyString => EmptyString
  | String c rest => String c (dropLast rest)
  end.

(** [setupGame()]: [targetWord = GetRandom(this.words)], with [u] the value
    of [Math.random()]; [None] stands for a [null] target. *)
Definition setupGame (u : Q) (w : Words) : option Words :=
  match TransitionScene.GetRandom u words with
  | Some t => Some {| targetWord := t; typedWord := typedWord w |}
  | None => None
  end.

(** The [keydown] listener of [setupControls()]. *)
Definition keyboardListener (eventKey : string) (wm : Words * Microgame)
    : Words * Microgame :=
  let (w, m) := wm in
  if gameEnded m then wm
  else
    let key := toUpperCase eventKey in
    let '(w1, m1) :=
      if isLetterKey key then
        let typed := (typedWord w ++ key)%string in
        if String.eqb typed (targetWord w) then
          ({| targetWord := targetWord w; typedWord := typed |}, setWinState m)
        else if Nat.leb (String.length (targetWord w)) (String.length typed) then
          ({| targetWord := targetWord w; typedWord := "" |}, m)
        else
          ({| targetWord := targetWord w; typedWord := typed |}, m)
      else (w, m) in
    if (String.eqb eventKey "Backspace"
        && Nat.ltb 0 (String.length (typedWord w1)))%bool
    then ({| targetWord := targetWord w1; typedWord := dropLast (typedWord w1) |}, m1)
    else (w1, m1).

Inductive Input :=
| TimerFires
| KeyDown (eventKey : string).

Definition handle (wm : Words * Microgame) (i : Input) : Words * Microgame :=
  match i with
  | TimerFires => (fst wm, timerCallback (snd wm))
  | KeyDown eventKey => keyboardListener eventKey wm
  end.

Definition play (wm : Words * Microgame) (inputs : list Input) : Words * Microgame :=
  fold_left handle inputs wm.

(** A round of the scene whose fields are [carried] over from before. *)
Definition newRound (u : Q) (phys : bool) (gs : GameState) (carried : Words)
    : option (Words * Microgame) :=
  match setupGame u carried with
  | Some w => Some (w, start (init "TypeGame" getGameDuration phys gs))
  | None => None
  end.

Fixpoint allCapital (s : string) : bool :=
  match s with
  | EmptyString => true
  | String c rest => (isCapital c && allCapital rest)%bool
  end.

(** The characters of a string, each as a string of its own. *)
Fixpoint singles (s : string) : list string :=
  match s with
  | EmptyString => []
  | String c rest => String c EmptyString :: singles rest
  end.

(** The keys pressed, in order. *)
Fixpoint keysOf (inputs : list Input) : list string :=
  match inputs with
  | [] => []
  | TimerFires :: rest => keysOf rest
  | KeyDown k :: rest => k :: keysOf rest
  end.

(** What is typed is made of capitals, and is the target or shorter. *)
Definition wellTyped (w : Words) : Prop :=
  allCapital (typedWord w) = true /\
  (typedWord w = targetWord w \/
   (String.length (typedWord w) < String.length (targetWord w))%nat).

(** [s.slice(1)]. *)
Definition dropFirst (s : string) : string :=
  match s with
  | EmptyString => EmptyString
  | String _ rest => rest
  end.

(** Whether [c] is among the characters of [s]. *)
Fixpoint occurs (c : Ascii.ascii) (s : string) : bool :=
  match s with
  | EmptyString => false
  | String x rest => (Ascii.eqb c x || occurs c rest)%bool
  end.

(** A word whose first letter comes only once in it. *)
Definition firstLetterOnce (t : string) : bool :=
  match t with
  | EmptyString => false
  | String c rest => negb (occurs c rest)
  end.

End TypeGame.

(** [KeyboardSmashGame]: press enough different keys. *)
Module KeyboardSmashGame.

Import BaseMicrogame JSString.

Definition getGameDuration : Z := 5000.

(** The result of [Math.floor]: an integer, an infinity or NaN. *)
Inductive Floored :=
| FInt (z : Z)
| FInf (negative : bool)
| FNaN.

Definition Math_floor (x : float) : Floored :=
  match FloatOps.Prim2SF x with
  | SpecFloat.S754_zero _ => FInt 0
  | SpecFloat.S754_infinity s => FInf s
  | SpecFloat.S754_nan => FNaN
  | SpecFloat.S754_finite s m e =>
      let n := if s then Z.neg m else Z.pos m in
      FInt (if 0 <=? e then n * 2 ^ e else n / 2 ^ (- e))
  end.

(** [size >= target], for a size that is a natural number. *)
Definition reached (size : nat) (target : Floored) : bool :=
  match target with
  | FInt t => t <=? Z.of_nat size
  | FInf negative => negative
  | FNaN => false
  end.

(** The game's own fields; [keysPressed] is a [Set], kept here in the order
    of insertion. *)
Record Keys := mkKeys {
  keysPressed : list string;
  targetKeyCount : Floored
}.

(** [keysPressed.has(key)]. *)
Definition has (key : string) (k : Keys) : bool :=
  existsb (String.eqb key) (keysPressed k).

(** The [keydown] listener of [setupControls()].  [event.key.toUpperCase()]
    is [JSString.toUpperCase], which is exact for key names that satisfy
    [JSString.isAscii]. *)
Definition keyboardListener (eventKey : string) (km : Keys * Microgame)
    : Keys * Microgame :=
  let (k, m) := km in
  let key := toUpperCase eventKey in
  if negb (has key k) then
    let k' := {| keysPressed := keysPressed k ++ [key];
                 targetKeyCount := targetKeyCount k |} in
    if reached (List.length (keysPressed k')) (targetKeyCount k')
    then (k', setWinState m)
    else (k', m)
  else km.

Definition onGameUpdate (km : Keys * Microgame) : Keys * Microgame :=
  let (k, m) := km in
  if ((timeRemaining m <=? 0) && negb (hasWon m) && negb (hasFailed m))%bool
  then (k, setFailState m)
  else km.

(** The timer firing, a frame, or a [keydown] on the window.  The listener
    is on the window from [setupControls()] until [cleanupControls()], which
    [endGame] calls. *)
Inductive Input :=
| TimerFires
| Frame
| KeyDown (eventKey : string).

Definition handle (km : Keys * Microgame) (i : Input) : Keys * Microgame :=
  match i with
  | TimerFires => (fst km, timerCallback (snd km))
  | Frame => Round.update onGameUpdate km
  | KeyDown eventKey =>
      if gameEnded (snd km) then km else keyboardListener eventKey km
  end.

Definition play (km : Keys * Microgame) (inputs : list Input) : Keys * Microgame :=
  fold_left handle inputs km.

(** [init] with its [resetGameState()], then [setupGame()]. *)
Definition newRound (phys : bool) (gs : GameState) : Keys * Microgame :=
  ({| keysPressed := [];
      targetKeyCount := Math_floor (20 + 5 * speed gs)%float |},
   start (init "KeyboardSmashGame" getGameDuration phys gs)).

(** The keys pressed, in order. *)
Fixpoint keysOf (inputs : list Input) : list string :=
  match inputs with
  | [] => []
  | KeyDown k :: rest => k :: keysOf rest
  | _ :: rest => keysOf rest
  end.

(** How many different keys were pressed, the case of letters apart. *)
Definition differentKeys (inputs : list Input) : nat :=
  List.length (nodup string_dec (map toUpperCase (keysOf inputs))).

(** What holds of a running KeyboardSmash round started on [gs] with
    target [t]. *)
Definition smashing (gs : GameState) (t : Z) (km : Keys * Microgame) : Prop :=
  let (k, m) := km in
  targetKeyCount k = FInt t /\ NoDup (keysPressed k) /\
  (hasWon m = true <-> t <= Z.of_nat (List.length (keysPressed k))) /\
  hasFailed m = false /\ gameReady m = true /\ gameEnded m = false /\
  0 < timeRemaining m /\ gameState m = gs.

End KeyboardSmashGame.

(** [TerminalVirusGame]: press Ctrl+C before the payload is complete. *)
Module TerminalVirusGame.

Import BaseMicrogame.

Definition getGameDuration : Z := 5000.

(** The game's own fields, as far as the outcome goes. *)
Record Virus := mkVirus {
  payloadProgress : float;
  isCtrlPressed : bool
}.

(** [resetGameState()]. *)
Definition resetGameState : Virus :=
  {| payloadProgress := 0; isCtrlPressed := false |}.

(** [Math.min(100, payloadProgress + 0.1 * speed)]. *)
Definition grow (speed p : float) : float :=
  JS.Math_min 100 (p + 0.1 * speed)%float.

Definition onGameUpdate (vm : Virus * Microgame) : Virus * Microgame :=
  let (v, m) := vm in
  if negb (hasWon m) then
    let p := grow (speed (gameState m)) (payloadProgress v) in
    let v' := {| payloadProgress := p; isCtrlPressed := isCtrlPressed v |} in
    if leb 100 p then (v', setFailState m) else (v', m)
  else vm.

(** The timer firing, a frame, and the three key events the game listens
    to. *)
Inductive Input :=
| TimerFires
| Frame
| CtrlDown
| CtrlUp
| CDown.

Definition handle (vm : Virus * Microgame) (i : Input) : Virus * Microgame :=
  match i with
  | TimerFires => (fst vm, timerCallback (snd vm))
  | Frame => Round.update onGameUpdate vm
  | CtrlDown =>
      ({| payloadProgress := payloadProgress (fst vm); isCtrlPressed := true |},
       snd vm)
  | CtrlUp =>
      ({| payloadProgress := payloadProgress (fst vm); isCtrlPressed := false |},
       snd vm)
  | CDown => if isCtrlPressed (fst vm) then (fst vm, setWinState (snd vm)) else vm
  end.

Definition play (vm : Virus * Microgame) (inputs : list Input) : Virus * Microgame :=
  fold_left handle inputs vm.

Definition newRound (phys : bool) (gs : GameState) : Virus * Microgame :=
  (resetGameState, start (init "TerminalVirusGame" getGameDuration phys gs)).

Definition isFrame (i : Input) : bool :=
  match i with
  | Frame => true
  | _ => false
  end.

(** How many frames were drawn. *)
Definition frames (inputs : list Input) : nat :=
  List.length (filter isFrame inputs).

(** Whether Ctrl is held after [inputs], when it was [held] before. *)
Fixpoint ctrlHeld (held : bool) (inputs : list Input) : bool :=
  match inputs with
  | [] => held
  | CtrlDown :: rest => ctrlHeld true rest
  | CtrlUp :: rest => ctrlHeld false rest
  | _ :: rest => ctrlHeld held rest
  end.

(** The payload after [n] more frames of a round that is not won. *)
Fixpoint progressAfter (n : nat) (speed p : float) : float :=
  match n with
  | O => p
  | S k => progressAfter k speed (grow speed p)
  end.

(** The number of frames that bring the payload from [p] to 100, counted up
    to [fuel]. *)
Fixpoint framesToFill (fuel : nat) (speed p : float) : nat :=
  match fuel with
  | O => O
  | S f =>
      if leb 100 (grow speed p) then 1%nat
      else S (framesToFill f speed (grow speed p))
  end.

End TerminalVirusGame.

(* ================================================================= *)
(** ** The session state as a shared object; TitleScene *)

(** The [GameState] objects of the program, by address.  A scene's
    [gameState] field holds a reference: [scene.start(key, { gameState })]
    hands the reference on, and the scene that receives it updates the same
    object in place. *)
Module Heap.

Definition Ref := nat.
Definition Heap := list GameState.

Definition alloc (o : GameState) (h : Heap) : Ref * Heap :=
  (List.length h, h ++ [o]).

Definition read (h : Heap) (r : Ref) : option GameState := nth_error h r.

Fixpoint write (h : Heap) (r : Ref) (o : GameState) : Heap :=
  match h, r with
  | [], _ => []
  | _ :: rest, O => o :: rest
  | x :: rest, S r' => x :: write rest r' o
  end.

End Heap.

Module TitleScene.

Import BaseMicrogame Session.

Record Scene := mkScene {
  gameState : Heap.Ref
}.

(** [constructor()]: [this.gameState = { ...INITIAL_GAME_STATE }].  Phaser
    constructs the scene once; [create()] runs at every start of the scene
    and does not assign the field. *)
Definition constructor (h : Heap.Heap) : Scene * Heap.Heap :=
  let (r, h') := Heap.alloc INITIAL_GAME_STATE h in
  ({| gameState := r |}, h').

Section Game.

Variable MICROGAMES : list MicrogameInfo.
Variable sceneExists : string -> bool.
Variable getGameDuration : string -> Z.
Variable physicsWorld : string -> bool.

(** The session object after a [TransitionScene] that holds it as [gs] and
    the round it starts, also when no round is started. *)
Definition roundObject (oldKey : string) (gs : GameState) (r : RoundScript)
    : GameState :=
  match TransitionScene.showNextGameControls MICROGAMES
          (draw r) (fallbackDraw r) oldKey gs with
  | None => TransitionScene.ensureRecentGames gs
  | Some (gs1, nextGameKey) =>
      match TransitionScene.transitionToGame MICROGAMES sceneExists
              nextGameKey gs1 with
      | TransitionScene.FallbackToTitle => gs1
      | TransitionScene.StartMicrogame k gs2 =>
          BaseMicrogame.gameState
            (playRound k (getGameDuration k) (physicsWorld k) gs2 (events r))
      end
  end.

(** The session object once the rounds of [script] are played, along the
    recursion of [playSession]. *)
Fixpoint sessionObject (oldKey : string) (gs : GameState) (prev : option string)
    (script : list RoundScript) : GameState :=
  match script with
  | [] => gs
  | r :: rest =>
      let gs0 := TransitionScene.init gs prev in
      match playOne MICROGAMES sceneExists getGameDuration physicsWorld
              oldKey gs0 r with
      | None => roundObject oldKey gs0 r
      | Some pr =>
          match delayedTransition (after pr) with
          | Some (StartTransitionScene gs' _ k) =>
              sessionObject (sceneKey (after pr)) gs' (Some k) rest
          | _ => BaseMicrogame.gameState (after pr)
          end
      end
  end.

(** [startGame()]: [scene.start('TransitionScene', { gameState:
    this.gameState })], and the session that follows: its rounds, and the
    heap in which the scene's object is what the session made of it. *)
Definition startGame (t : Scene) (h : Heap.Heap) (oldKey : string)
    (script : list RoundScript) : option (list PlayedRound * Heap.Heap) :=
  match Heap.read h (gameState t) with
  | Some gs =>
      Some (playSession MICROGAMES sceneExists getGameDuration physicsWorld
              oldKey gs None script,
            Heap.write h (gameState t) (sessionObject oldKey gs None script))
  | None => None
  end.

End Game.

End TitleScene.

(* ================================================================= *)
(** ** DebugMenuScene: the selection and the scrolling of the game list *)

Module DebugMenuScene.

(** [Math.max], [Math.min] and [Phaser.Math.Clamp] on rational numbers. *)
Definition Math_max (a b : Q) : Q := if Qle_bool a b then b else a.
Definition Math_min (a b : Q) : Q := if Qle_bool a b then a else b.
Definition Clamp (value min max : Q) : Q := Math_max min (Math_min max value).

Definition Qlt_bool (a b : Q) : bool := negb (Qle_bool b a).

Record Scene := mkScene {
  selectedIndex : Z;
  scrollY : Q;
  maxScrollY : Q
}.

Definition viewportHeight : Q := 380.

(** [init()]. *)
Definition init : Scene :=
  {| selectedIndex := 0; scrollY := 0; maxScrollY := 0 |}.

(** What [ENTER] or [SPACE] does: nothing, the launch of a game, or the
    TypeError of reading [.key] of [undefined]. *)
Inductive Launch :=
| Nothing
| LaunchGame (gameKey : string)
| TypeError.

Inductive Input :=
| Up
| Down
| PageUp
| PageDown
| Wheel (deltaY : Q)
| PointerOver (index : Z).

Section Catalog.

Variable MICROGAMES : list MicrogameInfo.

(** [gameButtons.length], once [createGameButtons()] has run: one button
    per catalog entry. *)
Definition buttons : Z := JS.len MICROGAMES.

(** The [y] of the button of [index]: [startY + (buttonHeight +
    buttonSpacing) * index]. *)
Definition buttonY (index : Z) : Z := 150 + (100 + 20) * index.

(** [createGameButtons()], as far as the scene's fields go. *)
Definition createGameButtons (s : Scene) : Scene :=
  let totalHeight := JS.len MICROGAMES * (100 + 20) in
  {| selectedIndex := selectedIndex s; scrollY := scrollY s;
     maxScrollY := Math_max 0 (inject_Z totalHeight - viewportHeight) |}.

(** The scene when it has been entered: [init()], then [create()]. *)
Definition create : Scene := createGameButtons init.

Definition scrollTo (newScrollY : Q) (s : Scene) : Scene :=
  {| selectedIndex := selectedIndex s;
     scrollY := Clamp newScrollY 0 (maxScrollY s);
     maxScrollY := maxScrollY s |}.

Definition constrainScroll (s : Scene) : Scene :=
  {| selectedIndex := selectedIndex s;
     scrollY := Clamp (scrollY s) 0 (maxScrollY s);
     maxScrollY := maxScrollY s |}.

Definition ensureButtonVisible (index : Z) (s : Scene) : Scene :=
  if ((buttons =? 0) || (index <? 0) || (buttons <=? index))%bool then s
  else
    let y := (inject_Z (buttonY index) - 150)%Q in
    let buttonTop := (y - 45)%Q in
    let buttonBottom := (y + 45)%Q in
    if Qlt_bool buttonTop (scrollY s) then scrollTo buttonTop s
    else if Qlt_bool (scrollY s + viewportHeight) buttonBottom
         then scrollTo (buttonBottom - viewportHeight) s
         else s.

Definition select (index : Z) (s : Scene) : Scene :=
  {| selectedIndex := index; scrollY := scrollY s; maxScrollY := maxScrollY s |}.

(** The key, wheel and [pointerover] handlers. *)
Definition handle (s : Scene) (i : Input) : Scene :=
  match i with
  | Up =>
      if 0 <? buttons then
        let s' := select (Z.max 0 (selectedIndex s - 1)) s in
        ensureButtonVisible (selectedIndex s') s'
      else s
  | Down =>
      if 0 <? buttons then
        let s' := select (Z.min (buttons - 1) (selectedIndex s + 1)) s in
        ensureButtonVisible (selectedIndex s') s'
      else s
  | PageUp => scrollTo (scrollY s - viewportHeight) s
  | PageDown => scrollTo (scrollY s + viewportHeight) s
  | Wheel deltaY =>
      constrainScroll
        {| selectedIndex := selectedIndex s;
           scrollY := scrollY s - deltaY * (1 # 2);
           maxScrollY := maxScrollY s |}
  | PointerOver index => select index s
  end.

Definition play (s : Scene) (inputs : list Input) : Scene :=
  fold_left handle inputs s.

(** The [keydown-ENTER] and [keydown-SPACE] handlers:
    [launchGame(MICROGAMES[this.selectedIndex].key)]. *)
Definition enter (s : Scene) : Launch :=
  if 0 <? buttons then
    if selectedIndex s <? 0 then TypeError
    else match nth_error MICROGAMES (Z.to_nat (selectedIndex s)) with
         | Some g => LaunchGame (key g)
         | None => TypeError
         end
  else Nothing.

(** A [pointerover] comes from a button that exists. *)
Definition fromButton (i : Input) : Prop :=
  match i with
  | PointerOver index => 0 <= index < buttons
  | _ => True
  end.

(** The top and bottom of a button, as [ensureButtonVisible] measures
    them. *)
Definition buttonTop (index : Z) : Q := inject_Z (buttonY index) - 150 - 45.
Definition buttonBottom (index : Z) : Q := inject_Z (buttonY index) - 150 + 45.

(** What holds of the scene from [create()] on. *)
Definition inBounds (s : Scene) : Prop :=
  (0 <= scrollY s <= maxScrollY s)%Q /\
  maxScrollY s = maxScrollY create /\
  (0 < buttons -> 0 <= selectedIndex s < buttons) /\
  (buttons = 0 -> selectedIndex s = 0).

End Catalog.

End DebugMenuScene.

(* ================================================================= *)
(** ** Facts about one round *)

Module RoundFacts.

Import BaseMicrogame.

Ltac flags m :=
  destruct m as [mk md ph mgs t hw hf ge gr sc ef]; cbn in *.

Lemma run_app m tr1 tr2 : run m (tr1 ++ tr2) = run (run m tr1) tr2.
Proof. unfold run. apply fold_left_app. Qed.

Lemma run_cons m e tr : run m (e :: tr) = run (step m e) tr.
Proof. reflexivity. Qed.

Lemma endGame_ended m : gameEnded m = true -> endGame m = m.
Proof. intros H. unfold endGame. now rewrite H. Qed.

Lemma setWinState_ended m : gameEnded m = true -> setWinState m = m.
Proof. intros H. unfold setWinState. now rewrite H. Qed.

Lemma setFailState_ended m : gameEnded m = true -> setFailState m = m.
Proof. intros H. unfold setFailState. now rewrite H. Qed.

Lemma gameEnded_endGame m : gameEnded (endGame m) = true.
Proof. unfold endGame. destruct (gameEnded m) eqn:E; [exact E | reflexivity]. Qed.

(** Once a round has ended it stays ended. *)
Lemma gameEnded_step m e : gameEnded m = true -> gameEnded (step m e) = true.
Proof.
  intros H. destruct e; cbn.
  - unfold timerCallback. cbn. destruct (_ <=? 0).
    + apply gameEnded_endGame.
    + exact H.
  - now rewrite setWinState_ended.
  - now rewrite setFailState_ended.
Qed.

Lemma gameEnded_run tr : forall m, gameEnded m = true -> gameEnded (run m tr) = true.
Proof.
  induction tr as [|e tr IH]; intros m H; [exact H|].
  rewrite run_cons. apply IH, gameEnded_step, H.
Qed.

Lemma not_ended_before m tr :
  gameEnded (run m tr) = false -> gameEnded m = false.
Proof.
  intros H. destruct (gameEnded m) eqn:E; [|reflexivity].
  now rewrite (gameEnded_run tr m E) in H.
Qed.

(** A flag that is set stays set. *)
Lemma hasWon_step m e : hasWon m = true -> hasWon (step m e) = true.
Proof.
  intros H. destruct e; cbn.
  - unfold timerCallback, endGame. cbn. destruct (_ <=? 0); [|exact H].
    destruct (gameEnded m); exact H.
  - unfold setWinState. rewrite H. cbn. rewrite andb_false_r. exact H.
  - unfold setFailState. destruct (_ && _)%bool; exact H.
Qed.

Lemma hasFailed_step m e : hasFailed m = true -> hasFailed (step m e) = true.
Proof.
  intros H. destruct e; cbn.
  - unfold timerCallback, endGame. cbn. destruct (_ <=? 0); [|exact H].
    destruct (gameEnded m); exact H.
  - unfold setWinState. destruct (_ && _)%bool; exact H.
  - unfold setFailState. rewrite H. cbn. rewrite andb_false_r. exact H.
Qed.

Lemma hasWon_run tr : forall m, hasWon m = true -> hasWon (run m tr) = true.
Proof.
  induction tr as [|e tr IH]; intros m H; [exact H|].
  rewrite run_cons. apply IH, hasWon_step, H.
Qed.

Lemma hasFailed_run tr : forall m, hasFailed m = true -> hasFailed (run m tr) = true.
Proof.
  induction tr as [|e tr IH]; intros m H; [exact H|].
  rewrite run_cons. apply IH, hasFailed_step, H.
Qed.

(** A declaration made while the round is running takes effect. *)
Lemma declared_win tr : forall m,
  In DeclareWin tr -> gameEnded (run m tr) = false -> hasWon (run m tr) = true.
Proof.
  induction tr as [|e tr IH]; intros m Hin Hrun; [destruct Hin|].
  rewrite run_cons in *. destruct Hin as [->|Hin]; [|apply IH; assumption].
  apply hasWon_run. apply not_ended_before in Hrun.
  unfold step, setWinState in *. flags m.
  destruct ge, hw; cbn in *; congruence.
Qed.

Lemma declared_fail tr : forall m,
  In DeclareFail tr -> gameEnded (run m tr) = false -> hasFailed (run m tr) = true.
Proof.
  induction tr as [|e tr IH]; intros m Hin Hrun; [destruct Hin|].
  rewrite run_cons in *. destruct Hin as [->|Hin]; [|apply IH; assumption].
  apply hasFailed_run. apply not_ended_before in Hrun.
  unfold step, setFailState in *. flags m.
  destruct ge, hf; cbn in *; congruence.
Qed.

(** Nothing changes the outcome of a round that has ended. *)
Lemma won_run_ended late : forall m,
  gameEnded m = true -> won (run m late) = won m.
Proof.
  induction late as [|e late IH]; intros m He; [reflexivity|].
  rewrite run_cons, IH by (apply gameEnded_step, He).
  destruct e; cbn.
  - unfold timerCallback. cbn. destruct (_ <=? 0); [|reflexivity].
    rewrite endGame_ended by exact He. reflexivity.
  - now rewrite setWinState_ended.
  - now rewrite setFailState_ended.
Qed.

(** *** The countdown always ends the round *)

Lemma runTimer_ended fuel m : gameEnded m = true -> runTimer fuel m = m.
Proof. intros H. destruct fuel; cbn; [reflexivity | now rewrite H]. Qed.

Lemma runTimer_ends fuel : forall m,
  timeRemaining m <= 50 * Z.of_nat fuel -> (0 < fuel)%nat ->
  gameEnded (runTimer fuel m) = true.
Proof.
  induction fuel as [|fuel IH]; intros m Ht Hf; [lia|].
  cbn [runTimer]. destruct (gameEnded m) eqn:E; [exact E|].
  unfold timerCallback. cbn [timeRemaining].
  destruct (Z.leb_spec (timeRemaining m - 50) 0) as [Hle|Hgt].
  - rewrite runTimer_ended; apply gameEnded_endGame.
  - apply IH; cbn [timeRemaining]; lia.
Qed.

Lemma expire_ends m : gameEnded (expire m) = true.
Proof.
  unfold expire. apply runTimer_ends; [|lia].
  destruct (Z.le_gt_cases 0 (timeRemaining m)) as [Hpos|Hneg].
  - rewrite Nat2Z.inj_succ, Z2Nat.id by (apply Z.div_pos; lia).
    pose proof (Z.mul_succ_div_gt (timeRemaining m) 50 ltac:(lia)). lia.
  - lia.
Qed.

(** [expire] is a run of timer ticks. *)
Lemma runTimer_is_run fuel : forall m, exists n, runTimer fuel m = run m (repeat Tick n).
Proof.
  induction fuel as [|fuel IH]; intros m; [now exists 0%nat|].
  cbn [runTimer]. destruct (gameEnded m); [now exists 0%nat|].
  destruct (IH (timerCallback m)) as [n Hn]. exists (S n). exact Hn.
Qed.

Lemma playRound_is_run k d ph gs tr :
  exists n, playRound k d ph gs tr = run (start (init k d ph gs)) (tr ++ repeat Tick n).
Proof.
  unfold playRound, expire.
  destruct (runTimer_is_run (S (Z.to_nat (timeRemaining (run (start (init k d ph gs)) tr) / 50)))
              (run (start (init k d ph gs)) tr)) as [n Hn].
  exists n. now rewrite run_app.
Qed.

(** *** What a round does to the session state and to its resources *)

Lemma count_app e l l' :
  List.length (filter (Effect_eqb e) (l ++ l')) =
  (List.length (filter (Effect_eqb e) l) + List.length (filter (Effect_eqb e) l'))%nat.
Proof. now rewrite filter_app, length_app. Qed.

Lemma settled_step gs m e : settled gs m -> settled gs (step m e).
Proof.
  unfold settled. destruct e; cbn [step];
    unfold timerCallback, setWinState, setFailState, endGame, emit, count, won;
    flags m.
  - destruct ge; cbn.
    + destruct (t - 50 <=? 0); cbn; auto.
    + intros (Hs & Hg & Hc & Hr). destruct (t - 50 <=? 0); cbn; auto.
      subst gs. rewrite !count_app, Hc, Hr.
      destruct ph; cbn; auto.
  - destruct ge, hw; cbn; auto.
    rewrite !count_app. cbn. rewrite !Nat.add_0_r. auto.
  - destruct ge, hf; cbn; auto.
    rewrite !count_app. cbn. rewrite !Nat.add_0_r. auto.
Qed.

Lemma settled_run gs tr : forall m, settled gs m -> settled gs (run m tr).
Proof.
  induction tr as [|e tr IH]; intros m H; [exact H|].
  rewrite run_cons. apply IH, settled_step, H.
Qed.

Lemma settled_start k d ph gs : settled gs (start (init k d ph gs)).
Proof. unfold settled; cbn. auto. Qed.

Lemma settled_playRound k d ph gs tr :
  let m := playRound k d ph gs tr in
  scheduled m = Some (won m) /\ gameState m = applyOutcome (won m) gs /\
  count CleanupControls m = 1%nat /\ count TimerRemove m = 1%nat /\
  gameEnded m = true.
Proof.
  intros m.
  assert (He : gameEnded m = true) by apply expire_ends.
  assert (Hs : settled gs m).
  { destruct (playRound_is_run k d ph gs tr) as [n Hn].
    subst m. rewrite Hn. apply settled_run, settled_start. }
  unfold settled in Hs. rewrite He in Hs. tauto.
Qed.

End RoundFacts.

(* ================================================================= *)
(** ** Facts about the selector *)

Module SelectorFacts.

Import TransitionScene.

Lemma len_nonneg {A} (l : list A) : 0 <= JS.len l.
Proof. unfold JS.len. lia. Qed.

Lemma len_cons {A} (x : A) (l : list A) : JS.len (x :: l) = JS.len l + 1.
Proof. unfold JS.len. cbn [List.length]. lia. Qed.

Lemma len_app {A} (l l' : list A) : JS.len (l ++ l') = JS.len l + JS.len l'.
Proof. unfold JS.len. rewrite length_app. lia. Qed.

(** [indexOf] answers -1 or a position inside the array. *)
Lemma indexOf_range arr x :
  JS.indexOf arr x = -1 \/ 0 <= JS.indexOf arr x < JS.len arr.
Proof.
  induction arr as [|y arr IH]; [now left|].
  cbn [JS.indexOf]. rewrite len_cons.
  destruct (String.eqb y x); [right; pose proof (len_nonneg arr); lia|].
  destruct IH as [-> | IH]; [now left|].
  destruct (Z.eqb_spec (JS.indexOf arr x) (-1)); [lia|]. right. lia.
Qed.

Lemma indexOf_absent arr x : ~ In x arr -> JS.indexOf arr x = -1.
Proof.
  induction arr as [|y arr IH]; intros Hn; [reflexivity|].
  cbn [JS.indexOf]. destruct (String.eqb_spec y x) as [->|_].
  - exfalso. apply Hn. now left.
  - rewrite IH by (intros H; apply Hn; now right). reflexivity.
Qed.

(** The position of a key that occurs last and nowhere before. *)
Lemma indexOf_last arr x : ~ In x arr -> JS.indexOf (arr ++ [x]) x = JS.len arr.
Proof.
  induction arr as [|y arr IH]; intros Hn.
  - cbn. now rewrite String.eqb_refl.
  - cbn [app JS.indexOf]. rewrite len_cons.
    destruct (String.eqb_spec y x) as [->|_].
    + exfalso. apply Hn. now left.
    + rewrite IH by (intros H; apply Hn; now right).
      pose proof (len_nonneg arr).
      destruct (Z.eqb_spec (JS.len arr) (-1)); lia.
Qed.

Section Catalog.

Variable MICROGAMES : list MicrogameInfo.

#[local] Abbreviation gameWeights := (gameWeights MICROGAMES).

(** Every weight is 100, or 20 times an age between 1 and the length of the
    history. *)
Lemma gameWeight_bounds recent g :
  game (gameWeight recent g) = g /\
  20 <= weight (gameWeight recent g) <= Z.max 100 (20 * JS.len recent).
Proof.
  unfold TransitionScene.gameWeight.
  destruct (indexOf_range recent (key g)) as [E | R].
  - rewrite E, Z.eqb_refl. cbn [game weight]. split; [reflexivity|lia].
  - destruct (Z.eqb_spec (JS.indexOf recent (key g)) (-1)); [lia|].
    cbn [game weight]. split; [reflexivity|lia].
Qed.

Lemma totalWeight_from (gws : list GameWeight) (a : Z) :
  fold_left (fun sum gw => sum + weight gw) gws a = a + totalWeight gws.
Proof.
  unfold totalWeight. revert a.
  induction gws as [|gw gws IH]; intros a; cbn [fold_left]; [lia|].
  rewrite IH, (IH (0 + weight gw)). lia.
Qed.

Lemma totalWeight_cons gw gws : totalWeight (gw :: gws) = weight gw + totalWeight gws.
Proof. unfold totalWeight at 1. cbn [fold_left]. rewrite totalWeight_from. lia. Qed.

Lemma totalWeight_app l l' : totalWeight (l ++ l') = totalWeight l + totalWeight l'.
Proof.
  induction l as [|gw l IH]; [reflexivity|].
  cbn [app]. rewrite !totalWeight_cons, IH. lia.
Qed.

Lemma totalWeight_lower (gws : list GameWeight) :
  (forall gw, In gw gws -> 20 <= weight gw) -> 20 * JS.len gws <= totalWeight gws.
Proof.
  induction gws as [|gw gws IH]; intros H; [reflexivity|].
  rewrite totalWeight_cons, len_cons.
  pose proof (H gw (or_introl eq_refl)).
  specialize (IH (fun x Hx => H x (or_intror Hx))). lia.
Qed.

Lemma totalWeight_nonneg (gws : list GameWeight) :
  (forall gw, In gw gws -> 0 <= weight gw) -> 0 <= totalWeight gws.
Proof.
  induction gws as [|gw gws IH]; intros H; [reflexivity|].
  rewrite totalWeight_cons.
  pose proof (H gw (or_introl eq_refl)).
  specialize (IH (fun x Hx => H x (or_intror Hx))). lia.
Qed.

Lemma gameWeights_ge_20 recent gw : In gw (gameWeights recent) -> 20 <= weight gw.
Proof.
  unfold TransitionScene.gameWeights. rewrite in_map_iff. intros (g & <- & _).
  apply gameWeight_bounds.
Qed.

(** *** The loop *)

Lemma loop_step (random : Q) gw rest :
  weightedLoop random (gw :: rest) =
  if Qle_bool (random - inject_Z (weight gw)) 0 then Some (game gw)
  else weightedLoop (random - inject_Z (weight gw)) rest.
Proof. reflexivity. Qed.

(** What the loop assigns is one of the weighted games. *)
Lemma weightedLoop_In gws : forall (random : Q) g,
  weightedLoop random gws = Some g -> exists gw, In gw gws /\ game gw = g.
Proof.
  induction gws as [|gw rest IH]; intros random g; [discriminate|].
  rewrite loop_step. destruct (Qle_bool _ 0).
  - intros [= <-]. exists gw. split; [now left | reflexivity].
  - intros H. destruct (IH _ _ H) as (x & Hx & Hg).
    exists x. split; [now right | exact Hg].
Qed.

Lemma gameWeights_In recent gw :
  In gw (gameWeights recent) -> In (game gw) MICROGAMES.
Proof.
  unfold TransitionScene.gameWeights. rewrite in_map_iff. intros (g & <- & Hg).
  now rewrite (proj1 (gameWeight_bounds recent g)).
Qed.

(** A starting value that does not exceed the total lets the loop assign. *)
Lemma weightedLoop_assigns gws : forall random : Q,
  gws <> [] -> (random <= inject_Z (totalWeight gws))%Q ->
  exists gw, In gw gws /\ weightedLoop random gws = Some (game gw).
Proof.
  induction gws as [|gw rest IH]; intros random Hne Hle; [congruence|].
  rewrite loop_step.
  destruct (Qle_bool (random - inject_Z (weight gw)) 0) eqn:E.
  - exists gw. split; [now left | reflexivity].
  - assert (Hpos : ~ (random - inject_Z (weight gw) <= 0)%Q).
    { rewrite <- Qle_bool_iff, E. discriminate. }
    rewrite totalWeight_cons, inject_Z_plus in Hle.
    destruct rest as [|gw' rest'].
    + exfalso. apply Hpos.
      change (inject_Z (totalWeight [])) with 0%Q in Hle. lra.
    + destruct (IH (random - inject_Z (weight gw))%Q) as (x & Hx & Hsel);
        [discriminate | lra |].
      exists x. split; [now right | exact Hsel].
Qed.

(** The loop assigns the game whose share of the total the starting value
    falls into. *)
Lemma weightedLoop_position l1 gw l2 : forall random : Q,
  (forall x, In x l1 -> 0 <= weight x) ->
  (inject_Z (totalWeight l1) < random)%Q ->
  (random <= inject_Z (totalWeight l1 + weight gw))%Q ->
  weightedLoop random (l1 ++ gw :: l2) = Some (game gw).
Proof.
  induction l1 as [|a l1 IH]; intros random Hnn Hlo Hhi.
  - cbn [app]. rewrite loop_step.
    change (totalWeight []) with 0 in Hhi, Hlo. rewrite Z.add_0_l in Hhi.
    change (inject_Z 0) with 0%Q in Hlo.
    assert (E : Qle_bool (random - inject_Z (weight gw)) 0 = true)
      by (rewrite Qle_bool_iff; lra).
    now rewrite E.
  - cbn [app]. rewrite loop_step.
    rewrite totalWeight_cons in Hlo, Hhi.
    rewrite <- Z.add_assoc, inject_Z_plus in Hhi. rewrite inject_Z_plus in Hlo.
    assert (H0 : (0 <= inject_Z (totalWeight l1))%Q).
    { change 0%Q with (inject_Z 0). rewrite <- Zle_Qle.
      apply totalWeight_nonneg. intros x Hx. apply Hnn. now right. }
    assert (E : Qle_bool (random - inject_Z (weight a)) 0 = false).
    { destruct (Qle_bool _ 0) eqn:E; [|reflexivity].
      rewrite Qle_bool_iff in E. lra. }
    rewrite E. apply IH.
    + intros x Hx. apply Hnn. now right.
    + lra.
    + lra.
Qed.

(** Every game of the catalog is assigned for some draw. *)
Lemma weightedChoice_reaches (gs : GameState) (u' : Q) (g : MicrogameInfo) :
  In g MICROGAMES ->
  exists v : Q, (0 <= v)%Q /\ (v < 1)%Q /\
    weightedChoice MICROGAMES v u' gs = Some g.
Proof.
  intros Hin. destruct (in_split _ _ Hin) as (l1 & l2 & Hcat).
  set (recent := recentList gs).
  set (f := TransitionScene.gameWeight recent).
  assert (Hgws : gameWeights recent = (map f l1 ++ f g :: map f l2)%list).
  { unfold TransitionScene.gameWeights. rewrite Hcat, map_app. reflexivity. }
  assert (Hge : forall l x, In x (map f l) -> 20 <= weight x).
  { intros l x. rewrite in_map_iff. intros (y & <- & _). apply gameWeight_bounds. }
  assert (Hnn : forall l, 0 <= totalWeight (map f l)).
  { intros l. apply totalWeight_nonneg. intros x Hx. specialize (Hge l x Hx). lia. }
  pose proof (Hnn l1) as HP. pose proof (Hnn l2) as HR.
  destruct (gameWeight_bounds recent g) as (Hgame & Hw & _). fold f in Hgame, Hw.
  assert (HT : totalWeight (gameWeights recent)
               = totalWeight (map f l1) + weight (f g) + totalWeight (map f l2)).
  { rewrite Hgws, totalWeight_app, totalWeight_cons. lia. }
  set (P := totalWeight (map f l1)) in *.
  set (T := totalWeight (gameWeights recent)) in *.
  assert (HTpos : (0 < inject_Z T)%Q).
  { change 0%Q with (inject_Z 0). rewrite <- Zlt_Qlt. lia. }
  assert (HPT : (inject_Z P + 10 < inject_Z T)%Q).
  { change 10%Q with (inject_Z 10). rewrite <- inject_Z_plus, <- Zlt_Qlt. lia. }
  assert (HP0 : (0 <= inject_Z P)%Q).
  { change 0%Q with (inject_Z 0). rewrite <- Zle_Qle. exact HP. }
  exists ((inject_Z P + 10) / inject_Z T)%Q.
  assert (Hv : ((inject_Z P + 10) / inject_Z T * inject_Z T == inject_Z P + 10)%Q).
  { rewrite Qmult_comm. apply Qmult_div_r. lra. }
  split; [apply Qle_shift_div_l; [exact HTpos | lra]|].
  split; [apply Qlt_shift_div_r; [exact HTpos | lra]|].
  unfold weightedChoice. fold recent. fold T.
  rewrite Hgws at 1.
  rewrite (weightedLoop_position (map f l1) (f g) (map f l2)).
  - now rewrite Hgame.
  - intros x Hx. specialize (Hge l1 x Hx). lia.
  - fold P. rewrite Hv. lra.
  - fold P. rewrite Hv, inject_Z_plus.
    assert ((inject_Z 20 <= inject_Z (weight (f g)))%Q) by (rewrite <- Zle_Qle; exact Hw).
    change (inject_Z 20) with 20%Q in H. lra.
Qed.

(** *** The two branches *)

(** The small-catalog branch is taken for one or two games, and for none. *)
Lemma usesSmallCatalogBranch_iff :
  usesSmallCatalogBranch MICROGAMES = true <-> JS.len MICROGAMES <= 2.
Proof.
  unfold usesSmallCatalogBranch, HISTORY_SIZE.
  pose proof (len_nonneg MICROGAMES).
  pose proof (Z.div_mod (JS.len MICROGAMES) 2 ltac:(lia)).
  pose proof (Z.mod_pos_bound (JS.len MICROGAMES) 2 ltac:(lia)).
  destruct (Z.leb_spec (JS.len MICROGAMES) (Z.min 3 (JS.len MICROGAMES / 2) + 1));
    split; intros; try discriminate; try reflexivity; lia.
Qed.

End Catalog.

(** *** The history *)

Lemma HISTORY_SIZE_nonneg (cat : list MicrogameInfo) : 0 <= HISTORY_SIZE cat.
Proof.
  unfold HISTORY_SIZE. pose proof (len_nonneg cat).
  pose proof (Z.div_pos (JS.len cat) 2 ltac:(lia) ltac:(lia)). lia.
Qed.

Lemma len_shift {A} (l : list A) : l <> [] -> JS.len (JS.shift l) = JS.len l - 1.
Proof. destruct l; [congruence|]. intros _. cbn [JS.shift tl]. rewrite len_cons. lia. Qed.

(** What [transitionToGame] does to the history when it starts a game. *)
Lemma transitionToGame_history cat ex k gs :
  (JS.truthy_string (Some k) && ex k)%bool = true ->
  exists gs2,
    transitionToGame cat ex k gs = StartMicrogame k gs2 /\
    recentGames gs2 =
      Some (if HISTORY_SIZE cat <? JS.len (JS.push (recentList gs) k)
            then JS.shift (JS.push (recentList gs) k)
            else JS.push (recentList gs) k) /\
    previousGameKey gs2 = Some k /\
    (JS.len (recentList gs) <= HISTORY_SIZE cat ->
     JS.len (recentList gs2) <= HISTORY_SIZE cat).
Proof.
  intros Hk. unfold transitionToGame. rewrite Hk.
  eexists. split; [reflexivity|]. cbn [recentGames previousGameKey].
  split; [reflexivity|]. split; [reflexivity|].
  intros Hle. unfold recentList at 1. cbn [recentGames].
  unfold JS.push.
  destruct (Z.ltb_spec (HISTORY_SIZE cat) (JS.len (recentList gs ++ [k]))) as [Hlt|Hge].
  - rewrite len_shift by (destruct (recentList gs); discriminate).
    rewrite len_app. change (JS.len [k]) with 1. lia.
  - exact Hge.
Qed.

Lemma transitionToGame_bounded cat ex k gs k' gs2 :
  transitionToGame cat ex k gs = StartMicrogame k' gs2 ->
  JS.len (recentList gs) <= HISTORY_SIZE cat ->
  JS.len (recentList gs2) <= HISTORY_SIZE cat.
Proof.
  intros Ht Hle.
  destruct (JS.truthy_string (Some k) && ex k)%bool eqn:Hk.
  - destruct (transitionToGame_history cat ex k gs Hk) as (gs3 & E & _ & _ & Hb).
    rewrite E in Ht. injection Ht as _ <-. now apply Hb.
  - unfold transitionToGame in Ht. rewrite Hk in Ht. discriminate.
Qed.

Lemma showNextGameControls_recentList cat u u' oldKey gs gs1 k :
  showNextGameControls cat u u' oldKey gs = Some (gs1, k) ->
  recentList gs1 = recentList gs.
Proof.
  unfold showNextGameControls.
  destruct (0 <? JS.len cat).
  - destruct (chooseNextGame _ _ _ _); [|discriminate].
    intros [= <- _]. unfold ensureRecentGames, recentList.
    destruct (recentGames gs) eqn:E; [now rewrite E | reflexivity].
  - now intros [= <- _].
Qed.

(** [GetRandom] gives every position of the array the same share of the
    draws: position [i] of [n] is taken exactly on [i/n <= u < (i+1)/n]. *)
Lemma GetRandom_interval {A} (u : Q) (arr : list A) (i : Z) :
  (inject_Z i <= u * inject_Z (JS.len arr))%Q ->
  (u * inject_Z (JS.len arr) < inject_Z (i + 1))%Q ->
  GetRandom u arr = nth_error arr (Z.to_nat i).
Proof.
  intros Hlo Hhi. unfold GetRandom.
  set (x := (u * inject_Z (JS.len arr))%Q) in *.
  pose proof (Qfloor_le x) as Hf1. pose proof (Qlt_floor x) as Hf2.
  assert (i < Qfloor x + 1) by (rewrite Zlt_Qlt; lra).
  assert (Qfloor x < i + 1) by (rewrite Zlt_Qlt; lra).
  replace (Qfloor x) with i by lia. reflexivity.
Qed.

Lemma GetRandom_In {A} (u : Q) (arr : list A) (x : A) :
  GetRandom u arr = Some x -> In x arr.
Proof. unfold GetRandom. apply nth_error_In. Qed.

End SelectorFacts.

(* ================================================================= *)
(** ** Facts about sessions *)

Module SessionFacts.

Import BaseMicrogame Session RoundFacts.

Lemma sameProgress_refl gs : sameProgress gs gs.
Proof. unfold sameProgress. tauto. Qed.

Lemma sameProgress_trans a b c :
  sameProgress a b -> sameProgress b c -> sameProgress a c.
Proof. unfold sameProgress. intuition congruence. Qed.

Lemma init_sameProgress gs prev : sameProgress gs (TransitionScene.init gs prev).
Proof.
  unfold TransitionScene.init. destruct (JS.truthy_string prev);
    unfold sameProgress; cbn; tauto.
Qed.

Lemma showNextGameControls_sameProgress cat u u' oldKey gs gs1 k :
  TransitionScene.showNextGameControls cat u u' oldKey gs = Some (gs1, k) ->
  sameProgress gs gs1.
Proof.
  unfold TransitionScene.showNextGameControls.
  destruct (0 <? JS.len cat).
  - destruct (TransitionScene.chooseNextGame _ _ _ _); [|discriminate].
    intros [= <- _]. unfold TransitionScene.ensureRecentGames.
    destruct (recentGames gs); unfold sameProgress; cbn; tauto.
  - intros [= <- _]. apply sameProgress_refl.
Qed.

Lemma transitionToGame_sameProgress cat ex k gs k' gs2 :
  TransitionScene.transitionToGame cat ex k gs = TransitionScene.StartMicrogame k' gs2 ->
  sameProgress gs gs2.
Proof.
  unfold TransitionScene.transitionToGame.
  destruct (_ && _)%bool; [|discriminate].
  intros [= _ <-]. unfold sameProgress; cbn; tauto.
Qed.

Section Game.

Variable MICROGAMES : list MicrogameInfo.
Variable sceneExists : string -> bool.
Variable getGameDuration : string -> Z.
Variable physicsWorld : string -> bool.

#[local] Abbreviation playOne := (playOne MICROGAMES sceneExists getGameDuration physicsWorld).
#[local] Abbreviation playSession := (playSession MICROGAMES sceneExists getGameDuration physicsWorld).

(** A played round starts from the session's progress and ends with the
    round's outcome applied to it once. *)
Lemma playOne_round oldKey gs r pr :
  playOne oldKey gs r = Some pr ->
  sameProgress gs (before pr) /\
  scheduled (after pr) = Some (won (after pr)) /\
  gameState (after pr) = applyOutcome (won (after pr)) (before pr) /\
  gameEnded (after pr) = true.
Proof.
  unfold Session.playOne.
  destruct (TransitionScene.showNextGameControls _ _ _ _ _) as [[gs1 k]|] eqn:E1;
    [|discriminate].
  destruct (TransitionScene.transitionToGame _ _ _ _) as [k' gs2|] eqn:E2;
    [|discriminate].
  intros [= <-]. cbn [before after].
  split.
  - eapply sameProgress_trans.
    + eapply showNextGameControls_sameProgress, E1.
    + eapply transitionToGame_sameProgress, E2.
  - pose proof (settled_playRound k' (getGameDuration k') (physicsWorld k')
                  gs2 (events r)) as H. cbn zeta in H. tauto.
Qed.

(** Lives across one round of a session that is not in debug mode. *)
Lemma round_lives oldKey gs r pr :
  playOne oldKey gs r = Some pr ->
  1 <= lives gs -> JS.truthy_bool (debugMode gs) = false ->
  let gs' := gameState (after pr) in
  0 <= lives gs' /\ JS.truthy_bool (debugMode gs') = false /\
  ((delayedTransition (after pr) = Some StartTitleScene /\
    lives gs' = 0 /\ scheduled (after pr) = Some false) \/
   (delayedTransition (after pr) =
      Some (StartTransitionScene gs' (won (after pr)) (sceneKey (after pr))) /\
    1 <= lives gs')).
Proof.
  intros Hp Hl Hd gs'.
  destruct (playOne_round _ _ _ _ Hp) as ((El & _ & _ & _ & Ed) & Hs & Hg & _).
  unfold delayedTransition. subst gs'. rewrite Hs, Hg.
  destruct (won (after pr)); cbn; rewrite <- Ed, Hd, <- El.
  - repeat split; try lia.
    destruct (Z.leb_spec (lives gs) 0); [lia|]. right. split; [reflexivity|lia].
  - repeat split; try lia.
    destruct (Z.leb_spec (lives gs - 1) 0); [left|right]; repeat split; lia.
Qed.



(** The history across one round: bounded when the round starts, and left
    alone by the round itself. *)
Lemma round_history oldKey gs r pr :
  playOne oldKey gs r = Some pr ->
  JS.len (TransitionScene.recentList gs) <= TransitionScene.HISTORY_SIZE MICROGAMES ->
  JS.len (TransitionScene.recentList (before pr))
    <= TransitionScene.HISTORY_SIZE MICROGAMES /\
  recentGames (gameState (after pr)) = recentGames (before pr).
Proof.
  intros Hp Hle.
  destruct (playOne_round _ _ _ _ Hp) as (_ & _ & Hg & _).
  split.
  - unfold Session.playOne in Hp.
    destruct (TransitionScene.showNextGameControls _ _ _ _ _) as [[gs1 k]|] eqn:E1;
      [|discriminate].
    destruct (TransitionScene.transitionToGame _ _ _ _) as [k' gs2|] eqn:E2;
      [|discriminate].
    injection Hp as <-. cbn [before].
    eapply SelectorFacts.transitionToGame_bounded; [exact E2|].
    now rewrite (SelectorFacts.showNextGameControls_recentList _ _ _ _ _ _ _ E1).
  - rewrite Hg. unfold applyOutcome. destruct (won (after pr)); reflexivity.
Qed.

(** What a round does to the counters, in terms of how the round stood
    ([won]) and of the state it started with. *)
Lemma round_counters oldKey gs r pr :
  playOne oldKey gs r = Some pr ->
  lives (gameState (after pr))
  = lives (before pr) - (if won (after pr) then 0 else 1) /\
  gamesCompleted (gameState (after pr))
  = gamesCompleted (before pr) + (if won (after pr) then 1 else 0) /\
  speedStepDue (after pr)
  = (won (after pr) && (0 <? gamesCompleted (before pr) + 1)
     && JS.rem_is_zero (gamesCompleted (before pr) + 1) 5)%bool.
Proof.
  intros Hp.
  destruct (playOne_round _ _ _ _ Hp) as (_ & Hs & Hg & _).
  unfold speedStepDue. rewrite Hs, Hg.
  destruct (won (after pr)); cbn [applyOutcome lives gamesCompleted andb];
    repeat split; lia.
Qed.

(** The scene a round hands over to, by the lives it leaves. *)
Lemma round_transition oldKey gs r pr :
  playOne oldKey gs r = Some pr ->
  1 <= lives gs -> JS.truthy_bool (debugMode gs) = false ->
  delayedTransition (after pr)
  = Some (if lives (gameState (after pr)) =? 0 then StartTitleScene
          else StartTransitionScene (gameState (after pr)) (won (after pr))
                 (sceneKey (after pr))).
Proof.
  intros Hp Hl Hd.
  destruct (round_lives _ _ _ _ Hp Hl Hd) as (_ & _ & [(Ht & Hz & _) | (Ht & H1)]);
    rewrite Ht.
  - now rewrite Hz.
  - destruct (Z.eqb_spec (lives (gameState (after pr))) 0); [lia | reflexivity].
Qed.

(** While lives remain the session goes on: the rounds after a round that
    leaves a life are the session played from the state it left, on the
    rest of the script. *)
Lemma session_goes_on script : forall oldKey gs prev n pr,
  1 <= lives gs -> JS.truthy_bool (debugMode gs) = false ->
  nth_error (playSession oldKey gs prev script) n = Some pr ->
  1 <= lives (gameState (after pr)) ->
  skipn (S n) (playSession oldKey gs prev script)
  = playSession (sceneKey (after pr)) (gameState (after pr))
      (Some (sceneKey (after pr))) (skipn (S n) script).
Proof.
  induction script as [|r script IH]; intros oldKey gs prev n pr Hl Hd Hn H1;
    [destruct n; discriminate Hn|].
  cbn [Session.playSession] in *.
  destruct (playOne oldKey (TransitionScene.init gs prev) r) as [pr0|] eqn:Hp;
    [|destruct n; discriminate Hn].
  pose proof (init_sameProgress gs prev) as (El & _ & _ & _ & Ed).
  destruct (round_lives _ _ _ _ Hp) as (_ & Hd' & Hcase); [lia | congruence |].
  destruct n as [|n]; cbn [nth_error] in Hn.
  - injection Hn as <-. cbn [skipn].
    destruct Hcase as [(_ & Hz & _) | (Ht & _)]; [lia|]. now rewrite Ht.
  - destruct Hcase as [(Ht & _) | (Ht & Hl')]; rewrite Ht in Hn |- *;
      [destruct n; discriminate Hn|].
    change (skipn (S (S n)) (pr0 :: ?l)) with (skipn (S n) l).
    change (skipn (S (S n)) (r :: script)) with (skipn (S n) script).
    now apply IH.
Qed.

End Game.

End SessionFacts.

(* ================================================================= *)
(** ** The round controller: declared outcomes and resolution *)

Import BaseMicrogame.

(** C1, as stated, fails: a declaration of the other outcome made after the
    first one is not ignored.  In a running round, [setWinState] followed by
    [setFailState] (and likewise in the opposite order) leaves both [hasWon]
    and [hasFailed] true, so the later call changed the state and the two
    flags are not exclusive. *)
Lemma later_declaration_not_ignored :
  let m := start (init "ClickGame" 4000 false INITIAL_GAME_STATE) in
  setFailState (setWinState m) <> setWinState m /\
  setWinState (setFailState m) <> setFailState m /\
  hasWon (setFailState (setWinState m)) = true /\
  hasFailed (setFailState (setWinState m)) = true /\
  hasWon (setWinState (setFailState m)) = true /\
  hasFailed (setWinState (setFailState m)) = true /\
  xorb (hasWon (setFailState (setWinState m)))
       (hasFailed (setFailState (setWinState m))) = false.
Proof.
  cbv zeta. repeat split; try reflexivity; intros H;
    apply (f_equal effects) in H; vm_compute in H; discriminate H.
Qed.

(** C1, amended: each declaration is guarded by its own flag and by
    [gameEnded] only.  Repeating a declaration is a no-op, a flag that is set
    stays set whatever happens later in the round, and once the round has
    ended both declarations are no-ops.  A declared fail is final: the round
    can no longer count as won.  A declaration of the other outcome while the
    round runs is not ignored: it sets its own flag. *)
Theorem declaration_guards (m : Microgame) (tr : list Event) :
  (hasWon m = true ->
     setWinState m = m /\ hasWon (run m tr) = true) /\
  (hasFailed m = true ->
     setFailState m = m /\ hasFailed (run m tr) = true /\ won (run m tr) = false) /\
  (gameEnded m = true -> setWinState m = m /\ setFailState m = m) /\
  (gameEnded m = false ->
     hasWon (setWinState m) = true /\ hasFailed (setWinState m) = hasFailed m /\
     hasFailed (setFailState m) = true /\ hasWon (setFailState m) = hasWon m).
Proof.
  repeat split.
  - unfold setWinState. rewrite H. cbn. now rewrite andb_false_r.
  - now apply RoundFacts.hasWon_run.
  - unfold setFailState. rewrite H. cbn. now rewrite andb_false_r.
  - now apply RoundFacts.hasFailed_run.
  - unfold won. rewrite (RoundFacts.hasFailed_run tr m H). cbn. apply andb_false_r.
  - now apply RoundFacts.setWinState_ended.
  - now apply RoundFacts.setFailState_ended.
  - unfold setWinState. rewrite H. RoundFacts.flags m. destruct hw; reflexivity.
  - unfold setWinState. rewrite H. RoundFacts.flags m. destruct hw; reflexivity.
  - unfold setFailState. rewrite H. RoundFacts.flags m. destruct hf; reflexivity.
  - unfold setFailState. rewrite H. RoundFacts.flags m. destruct hf; reflexivity.
Qed.

Lemma declaration_guards_witness :
  let m := setFailState (start (init "ClickGame" 4000 false INITIAL_GAME_STATE)) in
  hasFailed m = true /\
  setFailState m = m /\
  hasFailed (run m [DeclareWin; Tick; DeclareFail]) = true /\
  won (run m [DeclareWin; Tick; DeclareFail]) = false.
Proof.
  intros m. split; [reflexivity|].
  apply (proj1 (proj2 (declaration_guards m [DeclareWin; Tick; DeclareFail]))).
  reflexivity.
Defined.



(** C8: in every round, whatever the events, the session state (debug or
    not) and the game, the controls are cleaned up exactly once and the
    round's timer is removed exactly once; [endGame] called again does
    nothing, and no later timer firing or declaration repeats the cleanup
    or touches the session state. *)
Theorem cleanup_exactly_once (k : string) (d : Z) (phys : bool) (gs : GameState)
    (tr late : list Event) :
  let m := playRound k d phys gs tr in
  gameEnded m = true /\
  count CleanupControls m = 1%nat /\
  count TimerRemove m = 1%nat /\
  endGame m = m /\
  count CleanupControls (run m late) = 1%nat /\
  count TimerRemove (run m late) = 1%nat /\
  gameState (run m late) = gameState m.
Proof.
  intros m.
  destruct (RoundFacts.settled_playRound k d phys gs tr) as (Hs & Hg & Hc & Hr & He).
  fold m in Hs, Hg, Hc, Hr, He. clearbody m.
  assert (Hset : settled gs m).
  { unfold settled. rewrite He. auto. }
  pose proof (RoundFacts.settled_run gs late m Hset) as Hlate.
  unfold settled in Hlate. rewrite (RoundFacts.gameEnded_run late m He) in Hlate.
  destruct Hlate as (Hs' & Hg' & Hc' & Hr').
  pose proof (RoundFacts.won_run_ended late m He) as Hw.
  repeat split; try assumption.
  - apply RoundFacts.endGame_ended, He.
  - rewrite Hg', Hg, Hw. reflexivity.
Qed.

(** C9: the round counts as won iff, when the countdown ends it, [hasWon] is
    set and [hasFailed] is not.  If both a win and a fail were declared
    while the round was running, in whatever order and with whatever else in
    between, both flags are set and the round counts as failed: [lives]
    drops by one and nothing is added to [score]. *)
Theorem both_declared_counts_as_failed (k : string) (d : Z) (phys : bool)
    (gs : GameState) (tr : list Event) :
  let running := run (start (init k d phys gs)) tr in
  let m := playRound k d phys gs tr in
  (scheduled m = Some true <-> hasWon m = true /\ hasFailed m = false) /\
  (In DeclareWin tr -> In DeclareFail tr -> gameEnded running = false ->
     hasWon running = true /\ hasFailed running = true /\
     hasWon m = true /\ hasFailed m = true /\
     scheduled m = Some false /\
     lives (gameState m) = lives gs - 1 /\
     score (gameState m) = score gs).
Proof.
  intros running m.
  destruct (RoundFacts.settled_playRound k d phys gs tr) as (Hs & Hg & _ & _ & He).
  fold m in Hs, Hg, He.
  split.
  { rewrite Hs. unfold won. destruct (hasWon m), (hasFailed m); cbn; intuition congruence. }
  intros Hw Hf Hrun.
  assert (Hhw : hasWon running = true) by (apply RoundFacts.declared_win; assumption).
  assert (Hhf : hasFailed running = true) by (apply RoundFacts.declared_fail; assumption).
  assert (Hm : exists n, m = run running (repeat Tick n)).
  { apply RoundFacts.runTimer_is_run. }
  destruct Hm as [n Hn].
  assert (Hmw : hasWon m = true) by (rewrite Hn; now apply RoundFacts.hasWon_run).
  assert (Hmf : hasFailed m = true) by (rewrite Hn; now apply RoundFacts.hasFailed_run).
  assert (Hwon : won m = false) by (unfold won; now rewrite Hmw, Hmf).
  rewrite Hs, Hg, Hwon. cbn. auto 10.
Qed.

Lemma both_declared_counts_as_failed_witness :
  let tr := [DeclareWin; Tick; DeclareFail] in
  let m := playRound "ClickGame" 4000 false INITIAL_GAME_STATE tr in
  hasWon m = true /\ hasFailed m = true /\ scheduled m = Some false /\
  lives (gameState m) = 3 /\ score (gameState m) = 0.
Proof.
  intros tr m.
  destruct (both_declared_counts_as_failed "ClickGame" 4000 false
              INITIAL_GAME_STATE tr) as [_ H].
  destruct H as (_ & _ & Hw & Hf & Hs & Hl & Hsc).
  - cbn. auto.
  - cbn. auto.
  - reflexivity.
  - auto.
Defined.

(* ================================================================= *)
(** ** The session: lives and speed *)

Import Session.

(** C3: in a session that is not in debug mode and starts with 4 lives,
    [lives] is at least 0 after every round; a round takes one life iff it
    was not won, and hands over to the title scene when it leaves [lives]
    at 0 and to the transition scene, with the state it left, otherwise.
    So a round returns to the title scene exactly when it leaves [lives] at
    0, and only a lost round does; every round before the last one of the
    session leaves the session running, and while lives remain the session
    goes on from the state the round left. *)
Theorem lives_never_negative (MICROGAMES : list MicrogameInfo)
    (sceneExists : string -> bool) (getGameDuration : string -> Z)
    (physicsWorld : string -> bool) (oldKey : string) (gs : GameState)
    (prev : option string) (script : list RoundScript) :
  lives gs = 4 ->
  JS.truthy_bool (debugMode gs) = false ->
  let rounds := playSession MICROGAMES sceneExists getGameDuration physicsWorld
                  oldKey gs prev script in
  Forall (fun pr =>
            0 <= lives (gameState (after pr)) /\
            (sessionOver pr <-> lives (gameState (after pr)) = 0) /\
            (sessionOver pr -> scheduled (after pr) = Some false) /\
            lives (gameState (after pr))
            = lives (before pr) - (if won (after pr) then 0 else 1) /\
            delayedTransition (after pr)
            = Some (if lives (gameState (after pr)) =? 0 then StartTitleScene
                    else StartTransitionScene (gameState (after pr))
                           (won (after pr)) (sceneKey (after pr)))) rounds /\
  Forall (fun pr => ~ sessionOver pr) (removelast rounds) /\
  (forall n pr,
     nth_error rounds n = Some pr -> 1 <= lives (gameState (after pr)) ->
     skipn (S n) rounds
     = playSession MICROGAMES sceneExists getGameDuration physicsWorld
         (sceneKey (after pr)) (gameState (after pr))
         (Some (sceneKey (after pr))) (skipn (S n) script)).
Proof.
  intros Hl Hd rounds. assert (Hl1 : 1 <= lives gs) by lia. clear Hl.
  split; [|split].
  3:{ intros n pr Hn H1. subst rounds.
      now apply SessionFacts.session_goes_on. }
  all: subst rounds; revert oldKey gs prev Hl1 Hd;
    induction script as [|r script IH]; intros oldKey gs prev Hl Hd;
    cbn [playSession]; try constructor.
  - destruct (playOne _ _ _ _ _ (TransitionScene.init gs prev) r) as [pr|] eqn:Hp;
      [|constructor].
    pose proof (SessionFacts.init_sameProgress gs prev) as (El & _ & _ & _ & Ed).
    destruct (SessionFacts.round_lives _ _ _ _ _ _ _ _ Hp) as (H0 & Hd' & Hcase);
      [lia | congruence |].
    destruct (SessionFacts.round_counters _ _ _ _ _ _ _ _ Hp) as (Hlives & _).
    pose proof (SessionFacts.round_transition _ _ _ _ _ _ _ _ Hp
                  ltac:(lia) ltac:(congruence)) as Htr.
    constructor.
    + unfold sessionOver.
      split; [exact H0|]. split; [|split; [|split; [exact Hlives | exact Htr]]].
      * destruct Hcase as [(Ht & Hz & _) | (Ht & H1)]; rewrite Ht;
          [tauto | split; [discriminate | lia]].
      * destruct Hcase as [(Ht & _ & Hs) | (Ht & _)]; rewrite Ht;
          [intros _; exact Hs | discriminate].
    + destruct Hcase as [(Ht & _) | (Ht & H1)]; rewrite Ht; [constructor|].
      now apply IH.
  - destruct (playOne _ _ _ _ _ (TransitionScene.init gs prev) r) as [pr|] eqn:Hp;
      [|constructor].
    pose proof (SessionFacts.init_sameProgress gs prev) as (El & _ & _ & _ & Ed).
    destruct (SessionFacts.round_lives _ _ _ _ _ _ _ _ Hp) as (H0 & Hd' & Hcase);
      [lia | congruence |].
    destruct Hcase as [(Ht & _) | (Ht & H1)]; rewrite Ht; [constructor|].
    specialize (IH (sceneKey (after pr)) (gameState (after pr))
                  (Some (sceneKey (after pr))) H1 Hd').
    cbn [removelast].
    destruct (playSession _ _ _ _ _ _ _ _) eqn:E; [constructor|].
    constructor; [|exact IH]. unfold sessionOver. rewrite Ht. discriminate.
Qed.

Lemma lives_never_negative_witness :
  let lost := {| draw := 1 # 128; fallbackDraw := 0; events := [DeclareFail] |} in
  let script := [lost; lost; lost; lost; lost] in
  let rounds := playSession Registry.MICROGAME_METADATA
                  (Registry.registered Registry.MICROGAME_METADATA)
                  (fun _ => 4000) (fun _ => false) "" INITIAL_GAME_STATE None
                  script in
  List.length rounds = 4%nat /\
  Forall (fun pr =>
            0 <= lives (gameState (after pr)) /\
            (sessionOver pr <-> lives (gameState (after pr)) = 0) /\
            (sessionOver pr -> scheduled (after pr) = Some false) /\
            lives (gameState (after pr))
            = lives (before pr) - (if won (after pr) then 0 else 1) /\
            delayedTransition (after pr)
            = Some (if lives (gameState (after pr)) =? 0 then StartTitleScene
                    else StartTransitionScene (gameState (after pr))
                           (won (after pr)) (sceneKey (after pr)))) rounds /\
  Forall (fun pr => ~ sessionOver pr) (removelast rounds) /\
  (forall n pr,
     nth_error rounds n = Some pr -> 1 <= lives (gameState (after pr)) ->
     skipn (S n) rounds
     = playSession Registry.MICROGAME_METADATA
         (Registry.registered Registry.MICROGAME_METADATA)
         (fun _ => 4000) (fun _ => false)
         (sceneKey (after pr)) (gameState (after pr))
         (Some (sceneKey (after pr))) (skipn (S n) script)).
Proof.
  intros lost script rounds.
  split; [reflexivity|].
  apply (lives_never_negative Registry.MICROGAME_METADATA
           (Registry.registered Registry.MICROGAME_METADATA)
           (fun _ => 4000) (fun _ => false) "" INITIAL_GAME_STATE None
           script); reflexivity.
Defined.



(* ================================================================= *)
(** ** The selector *)

Import TransitionScene.

(** C5, as stated, fails: with the twelve registered games (at least
    [2 * HISTORY_SIZE + 1 = 7]) and the history Dodge, Type, Catch, the draw
    [1/128] gives [random = 1020/128 < 20], and the loop assigns the first
    game of the table, CatchGame, which is the most recently played one. *)
Lemma most_recent_reselected :
  let gs := {| lives := 4; score := 300; currentGame := 0; speed := 1%float;
               gamesCompleted := 3; debugMode := Some false;
               previousGameKey := Some "CatchGame";
               recentGames := Some ["DodgeGame"; "TypeGame"; "CatchGame"] |} in
  2 * HISTORY_SIZE Registry.MICROGAME_METADATA + 1 <= JS.len Registry.MICROGAME_METADATA /\
  usesSmallCatalogBranch Registry.MICROGAME_METADATA = false /\
  last (recentList gs) "" = "CatchGame" /\
  option_map key (weightedChoice Registry.MICROGAME_METADATA (1 # 128) 0 gs)
    = Some "CatchGame" /\
  showNextGameControls Registry.MICROGAME_METADATA (1 # 128) 0 "" gs
    = Some (gs, "CatchGame").
Proof. cbv zeta. repeat split; vm_compute; congruence. Qed.

(** C5, amended: the weighted selection only weights recently played games
    down.  Whatever the catalog, the history and the draw, the game it
    returns is in the catalog and has weight at least 20, so a game of
    weight 0 is never returned.  The most recently played game is not
    excluded: its weight is at least 20 (exactly 20 when its key occurs
    nowhere earlier in [recentGames]) and some draw returns it. *)
Theorem recent_games_only_weighted_down (MICROGAMES : list MicrogameInfo)
    (gs : GameState) (u u' : Q) :
  MICROGAMES <> [] -> (0 <= u)%Q -> (u < 1)%Q ->
  let recent := recentList gs in
  (forall g, weightedChoice MICROGAMES u u' gs = Some g ->
     In g MICROGAMES /\ 20 <= weight (gameWeight recent g) /\
     weight (gameWeight recent g) <> 0) /\
  (forall g older, In g MICROGAMES -> recent = older ++ [key g] ->
     20 <= weight (gameWeight recent g) /\
     (~ In (key g) older -> weight (gameWeight recent g) = 20) /\
     exists v : Q, (0 <= v)%Q /\ (v < 1)%Q /\
       weightedChoice MICROGAMES v u' gs = Some g).
Proof.
  intros Hne Hu0 Hu1 recent. split.
  - intros g Hsel.
    assert (Hin : In g MICROGAMES).
    { unfold weightedChoice in Hsel. fold recent in Hsel.
      destruct (weightedLoop _ _) as [g'|] eqn:E.
      - injection Hsel as <-.
        destruct (SelectorFacts.weightedLoop_In _ _ _ E) as (gw & Hgw & <-).
        eapply SelectorFacts.gameWeights_In, Hgw.
      - eapply SelectorFacts.GetRandom_In, Hsel. }
    destruct (SelectorFacts.gameWeight_bounds recent g) as (_ & Hw & _).
    repeat split; [exact Hin | lia | lia].
  - intros g older Hin Hrec.
    destruct (SelectorFacts.gameWeight_bounds recent g) as (_ & Hw & _).
    split; [lia|]. split.
    + intros Hold. unfold gameWeight. rewrite Hrec.
      rewrite SelectorFacts.indexOf_last by exact Hold.
      rewrite SelectorFacts.len_app.
      pose proof (SelectorFacts.len_nonneg older).
      destruct (Z.eqb_spec (JS.len older) (-1)); [lia|].
      cbn [weight]. change (JS.len [key g]) with 1. lia.
    + apply SelectorFacts.weightedChoice_reaches, Hin.
Qed.

Lemma recent_games_only_weighted_down_witness :
  let gs := {| lives := 4; score := 300; currentGame := 0; speed := 1%float;
               gamesCompleted := 3; debugMode := Some false;
               previousGameKey := Some "CatchGame";
               recentGames := Some ["DodgeGame"; "TypeGame"; "CatchGame"] |} in
  let catch := mkMicrogameInfo "CatchGame" "Catch the Egg" "CATCH!"
                 "Move basket to catch falling egg" "Mouse: Move left/right" in
  weight (gameWeight (recentList gs) catch) = 20 /\
  exists v : Q, (0 <= v)%Q /\ (v < 1)%Q /\
    weightedChoice Registry.MICROGAME_METADATA v 0 gs = Some catch.
Proof.
  intros gs catch.
  destruct (proj2 (recent_games_only_weighted_down Registry.MICROGAME_METADATA
                     gs (1 # 2) 0 ltac:(discriminate) ltac:(discriminate)
                     ltac:(reflexivity))
              catch ["DodgeGame"; "TypeGame"])
    as (_ & Hw & Hv).
  - left. reflexivity.
  - reflexivity.
  - split; [|exact Hv]. apply Hw.
    intros [H|[H|[]]]; discriminate H.
Defined.

(** C6, as stated, fails: the test is [MICROGAMES.length <= HISTORY_SIZE + 1],
    not [<= 2 * HISTORY_SIZE].  With four games ([HISTORY_SIZE = 2], so
    [4 <= 2 * HISTORY_SIZE]) the weighted branch runs, and it returns the
    immediately previous game, which the other branch would have left out.
    With one game ([HISTORY_SIZE = 0], so [1 > 2 * HISTORY_SIZE]) the
    small-catalog branch runs. *)
Lemma branch_threshold_is_history_plus_one :
  let four := firstn 4 Registry.MICROGAME_METADATA in
  let one := firstn 1 Registry.MICROGAME_METADATA in
  let gs := {| lives := 4; score := 100; currentGame := 0; speed := 1%float;
               gamesCompleted := 1; debugMode := Some false;
               previousGameKey := Some "CatchGame";
               recentGames := Some ["CatchGame"] |} in
  (JS.len four <= 2 * HISTORY_SIZE four /\
   usesSmallCatalogBranch four = false /\
   chooseNextGame four (1 # 128) 0 gs = weightedChoice four (1 # 128) 0 gs /\
   option_map key (chooseNextGame four (1 # 128) 0 gs) = previousGameKey gs /\
   option_map key (smallCatalogChoice four (1 # 128) gs) = Some "TypeGame") /\
  (2 * HISTORY_SIZE one < JS.len one /\
   usesSmallCatalogBranch one = true /\
   chooseNextGame one (1 # 128) 0 gs = smallCatalogChoice one (1 # 128) gs).
Proof. cbv zeta. repeat split; vm_compute; congruence. Qed.

(** C6, amended: the selector takes the recency-weighted path exactly when
    the catalog has more than [HISTORY_SIZE + 1] entries, which is when it
    has at least 3.  Otherwise (one or two games) it draws uniformly, every
    position of [availableGames] having the same share of the draws, from
    the catalog without the games whose key is [previousGameKey] when there
    is such a key and more than one game, and from the whole catalog when
    not; [recentGames] plays no part in that branch. *)
Theorem selector_branches (MICROGAMES : list MicrogameInfo) (gs : GameState)
    (u u' : Q) :
  (usesSmallCatalogBranch MICROGAMES = false <->
     HISTORY_SIZE MICROGAMES + 1 < JS.len MICROGAMES) /\
  (HISTORY_SIZE MICROGAMES + 1 < JS.len MICROGAMES <-> 3 <= JS.len MICROGAMES) /\
  (3 <= JS.len MICROGAMES ->
     chooseNextGame MICROGAMES u u' gs = weightedChoice MICROGAMES u u' gs) /\
  (JS.len MICROGAMES <= 2 ->
     chooseNextGame MICROGAMES u u' gs = smallCatalogChoice MICROGAMES u gs /\
     (forall i, (inject_Z i <= u * inject_Z (JS.len (availableGames MICROGAMES gs)))%Q ->
                (u * inject_Z (JS.len (availableGames MICROGAMES gs)) < inject_Z (i + 1))%Q ->
                smallCatalogChoice MICROGAMES u gs
                = nth_error (availableGames MICROGAMES gs) (Z.to_nat i)) /\
     (forall g, smallCatalogChoice MICROGAMES u gs = Some g ->
        In g MICROGAMES /\
        (forall prev, previousGameKey gs = Some prev -> prev <> "" ->
           1 < JS.len MICROGAMES -> key g <> prev)) /\
     (forall g prev, In g MICROGAMES -> previousGameKey gs = Some prev ->
        key g <> prev -> In g (availableGames MICROGAMES gs)) /\
     (forall gs', previousGameKey gs' = previousGameKey gs ->
        smallCatalogChoice MICROGAMES u gs' = smallCatalogChoice MICROGAMES u gs)).
Proof.
  pose proof (SelectorFacts.usesSmallCatalogBranch_iff MICROGAMES) as Hsmall.
  assert (Hthr : HISTORY_SIZE MICROGAMES + 1 < JS.len MICROGAMES <-> 3 <= JS.len MICROGAMES).
  { unfold HISTORY_SIZE. pose proof (SelectorFacts.len_nonneg MICROGAMES).
    pose proof (Z.div_mod (JS.len MICROGAMES) 2 ltac:(lia)).
    pose proof (Z.mod_pos_bound (JS.len MICROGAMES) 2 ltac:(lia)). lia. }
  split; [|split; [exact Hthr|split]].
  - rewrite Hthr. destruct (usesSmallCatalogBranch MICROGAMES).
    + split; [discriminate|]. intros H. assert (JS.len MICROGAMES <= 2) by tauto. lia.
    + split; [|reflexivity]. intros _.
      destruct (Z.le_gt_cases (JS.len MICROGAMES) 2) as [H|H]; [|lia].
      apply Hsmall in H. discriminate.
  - intros H3. unfold chooseNextGame.
    destruct (usesSmallCatalogBranch MICROGAMES); [|reflexivity].
    assert (JS.len MICROGAMES <= 2) by tauto. lia.
  - intros H2. unfold chooseNextGame.
    rewrite (proj2 Hsmall H2).
    split; [reflexivity|]. split; [|split; [|split]].
    + intros i Hlo Hhi. apply SelectorFacts.GetRandom_interval; assumption.
    + intros g Hsel. apply SelectorFacts.GetRandom_In in Hsel.
      unfold availableGames in Hsel.
      destruct (previousGameKey gs) as [p|] eqn:Ep.
      * destruct (JS.truthy_string (Some p) && (1 <? JS.len MICROGAMES))%bool eqn:Ec.
        -- apply filter_In in Hsel. destruct Hsel as [Hin Hk].
           split; [exact Hin|]. intros prev [= <-] _ _.
           destruct (String.eqb_spec (key g) p); [discriminate|assumption].
        -- split; [exact Hsel|]. intros prev [= <-] Hp H1.
           exfalso. cbn in Ec.
           destruct (String.eqb_spec p ""); [congruence|].
           destruct (Z.ltb_spec 1 (JS.len MICROGAMES)); [discriminate|lia].
      * split; [exact Hsel|]. intros prev [=].
    + intros g prev Hin Ep Hk. unfold availableGames. rewrite Ep.
      destruct (_ && _)%bool; [|exact Hin].
      apply filter_In. split; [exact Hin|].
      destruct (String.eqb_spec (key g) prev); [contradiction|reflexivity].
    + intros gs' E. unfold smallCatalogChoice, availableGames. now rewrite E.
Qed.

Lemma selector_branches_witness :
  let two := firstn 2 Registry.MICROGAME_METADATA in
  let gs := {| lives := 4; score := 100; currentGame := 0; speed := 1%float;
               gamesCompleted := 1; debugMode := Some false;
               previousGameKey := Some "CatchGame";
               recentGames := Some ["CatchGame"] |} in
  JS.len two <= 2 /\
  chooseNextGame two (1 # 2) 0 gs = smallCatalogChoice two (1 # 2) gs.
Proof.
  intros two gs. split; [vm_compute; discriminate|].
  assert (Hlen : JS.len two <= 2) by (vm_compute; discriminate).
  exact (proj1 (proj2 (proj2 (proj2 (selector_branches two gs (1 # 2) 0))) Hlen)).
Defined.

(** C10: for a non-empty catalog and a draw in [0, 1), every weight is at
    least 20, the total weight is positive, the scaled draw is below the
    total, and the loop assigns a game of the catalog; the fallback after
    the loop is never taken, whatever its own draw would be. *)
Theorem weighted_loop_always_assigns (MICROGAMES : list MicrogameInfo)
    (gs : GameState) (u u' : Q) :
  MICROGAMES <> [] -> (0 <= u)%Q -> (u < 1)%Q ->
  let gws := gameWeights MICROGAMES (recentList gs) in
  let total := totalWeight gws in
  (forall gw, In gw gws -> 20 <= weight gw) /\
  0 < total /\
  (u * inject_Z total < inject_Z total)%Q /\
  (exists g, In g MICROGAMES /\
             weightedLoop (u * inject_Z total) gws = Some g) /\
  weightedChoice MICROGAMES u u' gs = weightedLoop (u * inject_Z total) gws.
Proof.
  intros Hne Hu0 Hu1 gws total.
  assert (Hge : forall gw, In gw gws -> 20 <= weight gw)
    by (intros gw; apply SelectorFacts.gameWeights_ge_20).
  assert (Hgne : gws <> []).
  { subst gws. unfold gameWeights. destruct MICROGAMES; [congruence|discriminate]. }
  assert (Hpos : 0 < total).
  { pose proof (SelectorFacts.totalWeight_lower gws Hge) as Hl.
    assert (1 <= JS.len gws).
    { destruct gws; [congruence|]. rewrite SelectorFacts.len_cons.
      pose proof (SelectorFacts.len_nonneg gws). lia. }
    subst total. lia. }
  assert (HposQ : (0 < inject_Z total)%Q).
  { change 0%Q with (inject_Z 0). now rewrite <- Zlt_Qlt. }
  assert (Hlt : (u * inject_Z total < inject_Z total)%Q).
  { setoid_replace (inject_Z total) with (1 * inject_Z total)%Q at 2 by ring.
    apply Qmult_lt_compat_r; assumption. }
  destruct (SelectorFacts.weightedLoop_assigns gws (u * inject_Z total)%Q Hgne
              (Qlt_le_weak _ _ Hlt)) as (gw & Hin & Hsel).
  repeat split; try assumption.
  - exists (game gw). split; [|exact Hsel].
    eapply SelectorFacts.gameWeights_In, Hin.
  - unfold weightedChoice. fold gws. fold total. now rewrite Hsel.
Qed.

Lemma weighted_loop_always_assigns_witness :
  let gs := {| lives := 4; score := 300; currentGame := 0; speed := 1%float;
               gamesCompleted := 3; debugMode := Some false;
               previousGameKey := Some "CatchGame";
               recentGames := Some ["DodgeGame"; "TypeGame"; "CatchGame"] |} in
  let gws := gameWeights Registry.MICROGAME_METADATA (recentList gs) in
  exists g, In g Registry.MICROGAME_METADATA /\
            weightedLoop ((255 # 256) * inject_Z (totalWeight gws)) gws = Some g.
Proof.
  intros gs gws.
  apply (weighted_loop_always_assigns Registry.MICROGAME_METADATA gs (255 # 256) 0
           ltac:(discriminate) ltac:(discriminate) ltac:(reflexivity)).
Defined.

(** C7: when [transitionToGame] starts the chosen game, it appends the
    game's key to [recentGames] and, if that makes the history longer than
    [HISTORY_SIZE = min(3, floor(catalog size / 2))], drops the entry at the
    front, which is the oldest.  A history within the bound stays within it,
    so throughout a session [recentGames] holds at most [HISTORY_SIZE]
    entries. *)
Theorem history_bounded (MICROGAMES : list MicrogameInfo)
    (sceneExists : string -> bool) (getGameDuration : string -> Z)
    (physicsWorld : string -> bool) (oldKey : string) (gs : GameState)
    (prev : option string) (script : list RoundScript) (k : string) :
  JS.len (recentList gs) <= HISTORY_SIZE MICROGAMES ->
  ((JS.truthy_string (Some k) && sceneExists k)%bool = true ->
   exists gs2,
     transitionToGame MICROGAMES sceneExists k gs = StartMicrogame k gs2 /\
     previousGameKey gs2 = Some k /\
     (JS.len (recentList gs) < HISTORY_SIZE MICROGAMES ->
        recentList gs2 = recentList gs ++ [k]) /\
     (forall oldest rest, recentList gs = oldest :: rest ->
        JS.len (recentList gs) = HISTORY_SIZE MICROGAMES ->
        recentList gs2 = rest ++ [k]) /\
     (HISTORY_SIZE MICROGAMES = 0 -> recentList gs2 = []) /\
     JS.len (recentList gs2) <= HISTORY_SIZE MICROGAMES) /\
  Forall (fun pr =>
            JS.len (recentList (before pr)) <= HISTORY_SIZE MICROGAMES /\
            JS.len (recentList (gameState (after pr))) <= HISTORY_SIZE MICROGAMES)
    (playSession MICROGAMES sceneExists getGameDuration physicsWorld
       oldKey gs prev script).
Proof.
  intros Hle. split.
  - intros Hk.
    destruct (SelectorFacts.transitionToGame_history MICROGAMES sceneExists k gs Hk)
      as (gs2 & Et & Er & Ep & Hb).
    exists gs2. split; [exact Et|]. split; [exact Ep|].
    specialize (Hb Hle).
    remember (recentList gs) as recent eqn:Erec. clear Erec.
    unfold recentList in *. rewrite Er in *. unfold JS.push in *.
    rewrite SelectorFacts.len_app in *. change (JS.len [k]) with 1 in *.
    pose proof (SelectorFacts.len_nonneg recent) as Hnn.
    destruct (Z.ltb_spec (HISTORY_SIZE MICROGAMES) (JS.len recent + 1)) as [Hlt|Hge].
    + split; [lia|]. split; [|split; [|exact Hb]].
      * intros oldest rest -> _. reflexivity.
      * intros H0. destruct recent as [|x xs]; [reflexivity|].
        rewrite SelectorFacts.len_cons in Hle.
        pose proof (SelectorFacts.len_nonneg xs). lia.
    + split; [reflexivity|]. split; [|split; [|exact Hb]].
      * intros oldest rest _ Hfull. lia.
      * intros H0. lia.
  - clear k. revert oldKey gs prev Hle.
    induction script as [|r script IH]; intros oldKey gs prev Hle;
      cbn [playSession]; [constructor|].
    destruct (playOne _ _ _ _ _ (TransitionScene.init gs prev) r) as [pr|] eqn:Hp;
      [|constructor].
    assert (Hinit : recentList (TransitionScene.init gs prev) = recentList gs).
    { unfold TransitionScene.init. destruct (JS.truthy_string prev); reflexivity. }
    destruct (SessionFacts.round_history _ _ _ _ _ _ _ _ Hp) as (Hb & Ha);
      [now rewrite Hinit|].
    assert (Hafter : JS.len (recentList (gameState (after pr)))
                     <= HISTORY_SIZE MICROGAMES).
    { unfold recentList. rewrite Ha. exact Hb. }
    constructor; [split; assumption|].
    destruct (BaseMicrogame.delayedTransition (after pr)) as [[|gs' w k']|] eqn:Ed;
      try constructor.
    apply IH.
    unfold BaseMicrogame.delayedTransition in Ed.
    destruct (BaseMicrogame.scheduled (after pr)); [|discriminate].
    destruct (JS.truthy_bool _); [discriminate|].
    destruct (_ <=? 0); [discriminate|].
    injection Ed as <- _ _. exact Hafter.
Qed.

Lemma history_bounded_witness :
  let r := {| draw := 1 # 2; fallbackDraw := 0; events := [DeclareWin] |} in
  Forall (fun pr =>
            JS.len (recentList (before pr)) <= HISTORY_SIZE Registry.MICROGAME_METADATA /\
            JS.len (recentList (gameState (after pr)))
              <= HISTORY_SIZE Registry.MICROGAME_METADATA)
    (playSession Registry.MICROGAME_METADATA
       (Registry.registered Registry.MICROGAME_METADATA)
       (fun _ => 4000) (fun _ => false) "" INITIAL_GAME_STATE None
       [r; r; r; r; r]).
Proof.
  intros r.
  apply (history_bounded Registry.MICROGAME_METADATA
           (Registry.registered Registry.MICROGAME_METADATA)
           (fun _ => 4000) (fun _ => false) "" INITIAL_GAME_STATE None
           [r; r; r; r; r] "CatchGame").
  vm_compute. discriminate.
Defined.

(* ================================================================= *)
(** ** Worked sessions *)

(** Four lives and no score; a win, a loss, four wins, then losses.  The
    fifth win takes the speed from 1 to 1.2, the fourth loss takes the last
    life and ends the session, and the script's extra round is not played. *)
Example session_of_ten_rounds :
  let w := {| draw := 1 # 2; fallbackDraw := 0; events := [Tick; DeclareWin] |} in
  let l := {| draw := 3 # 4; fallbackDraw := 0; events := [DeclareFail] |} in
  map (fun pr => (lives (gameState (after pr)), score (gameState (after pr)),
                  gamesCompleted (gameState (after pr)),
                  speed (gameState (after pr))))
      (playSession Registry.MICROGAME_METADATA
         (Registry.registered Registry.MICROGAME_METADATA)
         (fun _ => 4000) (fun _ => false) "" INITIAL_GAME_STATE None
         [w; l; w; w; w; w; l; l; l; l])
  = [ (4, 100, 1, 1%float); (3, 100, 1, 1%float); (3, 200, 2, 1%float);
      (3, 300, 3, 1%float); (3, 400, 4, 1%float);
      (3, 500, 5, 0x1.3333333333333p+0%float);
      (2, 500, 5, 0x1.3333333333333p+0%float);
      (1, 500, 5, 0x1.3333333333333p+0%float);
      (0, 500, 5, 0x1.3333333333333p+0%float) ].
Proof. vm_compute. reflexivity. Qed.

(** The history of the same session: the last three keys, oldest first.
    The draw 1/2 lands on TerminalVirusGame three times, twice in a row. *)
Example session_history :
  let w := {| draw := 1 # 2; fallbackDraw := 0; events := [Tick; DeclareWin] |} in
  let l := {| draw := 3 # 4; fallbackDraw := 0; events := [DeclareFail] |} in
  map (fun pr => recentGames (before pr))
      (playSession Registry.MICROGAME_METADATA
         (Registry.registered Registry.MICROGAME_METADATA)
         (fun _ => 4000) (fun _ => false) "" INITIAL_GAME_STATE None
         [w; l; w; w])
  = [ Some ["TerminalVirusGame"];
      Some ["TerminalVirusGame"; "SneezeShieldGame"];
      Some ["TerminalVirusGame"; "SneezeShieldGame"; "TerminalVirusGame"];
      Some ["SneezeShieldGame"; "TerminalVirusGame"; "TerminalVirusGame"] ].
Proof. vm_compute. reflexivity. Qed.

(** Fifty wins bring the speed to the cap, where it stays. *)
Example speed_reaches_cap :
  let w := {| draw := 1 # 2; fallbackDraw := 0; events := [DeclareWin] |} in
  map (fun pr => speed (gameState (after pr)))
      (skipn 48
         (playSession Registry.MICROGAME_METADATA
            (Registry.registered Registry.MICROGAME_METADATA)
            (fun _ => 4000) (fun _ => false) "" INITIAL_GAME_STATE None
            (repeat w 56)))
  = [ 0x1.6666666666667p+1; 3; 3; 3; 3; 3; 3; 3 ]%float.
Proof. vm_compute. reflexivity. Qed.

(** A round launched from the debug menu returns to the title scene whether
    it is won or lost. *)
Example debug_round_returns_to_title :
  delayedTransition (playRound "TypeGame" 3000 false debugState [DeclareWin])
    = Some StartTitleScene /\
  delayedTransition (playRound "TypeGame" 3000 false debugState [DeclareFail])
    = Some StartTitleScene.
Proof. split; reflexivity. Qed.

(** The bound on [lives] needs a session that starts with lives to lose:
    entered with [lives = 0], a won round already returns to the title
    scene and a lost round leaves [lives] at -1. *)
Example session_entered_without_lives :
  let spent := {| lives := 0; score := 500; currentGame := 0;
                  speed := 0x1.3333333333333p+0%float; gamesCompleted := 5;
                  debugMode := Some false;
                  previousGameKey := Some "CatchGame";
                  recentGames := Some ["TypeGame"; "DodgeGame"; "CatchGame"] |} in
  delayedTransition (playRound "TypeGame" 3000 false spent [DeclareWin])
    = Some StartTitleScene /\
  lives (gameState (playRound "TypeGame" 3000 false spent [DeclareFail])) = -1.
Proof. split; reflexivity. Qed.

(* ================================================================= *)
(** ** More about one round *)

Module RoundMore.

Import Round RoundFacts.

Lemma ticks_app tr1 tr2 : ticks (tr1 ++ tr2) = (ticks tr1 + ticks tr2)%nat.
Proof. unfold ticks. now rewrite filter_app, length_app. Qed.

Lemma ticksToEnd_spec d t :
  (ticksToEnd d <= S t)%nat <-> d - 50 * Z.of_nat (S t) <= 0.
Proof.
  unfold ticksToEnd.
  pose proof (Z.div_mod (d + 49) 50 ltac:(lia)).
  pose proof (Z.mod_pos_bound (d + 49) 50 ltac:(lia)).
  split; intros Hle; lia.
Qed.

Lemma gameReady_step m e : gameReady (step m e) = gameReady m.
Proof.
  destruct e; cbn [step];
    unfold timerCallback, setWinState, setFailState, endGame, emit; flags m.
  - destruct (t - 50 <=? 0); cbn; [destruct ge|]; reflexivity.
  - destruct (negb ge && negb hw)%bool; reflexivity.
  - destruct (negb ge && negb hf)%bool; reflexivity.
Qed.

Lemma tick_running m :
  gameEnded m = false ->
  gameEnded (timerCallback m) = (timeRemaining m - 50 <=? 0) /\
  timeRemaining (timerCallback m) = timeRemaining m - 50.
Proof.
  intros He. unfold timerCallback, endGame. flags m. subst ge.
  destruct (t - 50 <=? 0); cbn; auto.
Qed.

Lemma declare_keeps_clock m e :
  e <> Tick ->
  gameEnded (step m e) = gameEnded m /\ timeRemaining (step m e) = timeRemaining m.
Proof.
  destruct e; [congruence| |]; intros _; cbn [step];
    unfold setWinState, setFailState, emit; flags m.
  - destruct (negb ge && negb hw)%bool; auto.
  - destruct (negb ge && negb hf)%bool; auto.
Qed.

(** Where the clock stands: the round has ended iff the timer has fired
    [ticksToEnd d] times, and until then every firing has taken 50 ms. *)
Lemma clock k d ph gs tr :
  let m := run (start (BaseMicrogame.init k d ph gs)) tr in
  gameEnded m = (ticksToEnd d <=? ticks tr)%nat /\
  gameReady m = true /\
  (gameEnded m = false -> timeRemaining m = d - 50 * Z.of_nat (ticks tr)).
Proof.
  induction tr as [|e tr IH] using rev_ind; cbn zeta.
  - split; [|split].
    + change (ticks []) with 0%nat. change (gameEnded _) with false.
      symmetry. apply Nat.leb_gt. unfold ticksToEnd. lia.
    + reflexivity.
    + intros _. change (ticks []) with 0%nat.
      cbn [run fold_left start timeRemaining BaseMicrogame.init]. lia.
  - cbn zeta in IH. rewrite run_app, ticks_app.
    set (m := run (start (BaseMicrogame.init k d ph gs)) tr) in *.
    destruct IH as (He & Hr & Ht).
    change (run m [e]) with (step m e).
    rewrite gameReady_step. split; [|split; [exact Hr|]].
    + destruct e.
      * change (ticks [Tick]) with 1%nat. rewrite Nat.add_1_r.
        destruct (gameEnded m) eqn:Em.
        -- rewrite (gameEnded_step m Tick Em).
           symmetry in He. apply Nat.leb_le in He.
           symmetry. apply Nat.leb_le. lia.
        -- destruct (tick_running m Em) as [E _]. cbn [step]. rewrite E.
           rewrite (Ht eq_refl).
           pose proof (ticksToEnd_spec d (ticks tr)) as Hspec.
           rewrite Nat2Z.inj_succ in Hspec.
           destruct (Z.leb_spec (d - 50 * Z.of_nat (ticks tr) - 50) 0) as [Hle|Hgt];
             symmetry.
           ++ apply Nat.leb_le, Hspec. lia.
           ++ apply Nat.leb_gt.
              destruct (Nat.le_gt_cases (ticksToEnd d) (S (ticks tr))) as [H|H];
                [apply Hspec in H; lia | exact H].
      * change (ticks [DeclareWin]) with 0%nat. rewrite Nat.add_0_r.
        now rewrite (proj1 (declare_keeps_clock m DeclareWin ltac:(discriminate))).
      * change (ticks [DeclareFail]) with 0%nat. rewrite Nat.add_0_r.
        now rewrite (proj1 (declare_keeps_clock m DeclareFail ltac:(discriminate))).
    + destruct e.
      * change (ticks [Tick]) with 1%nat. rewrite Nat.add_1_r.
        intros Hrun.
        assert (Em : gameEnded m = false).
        { destruct (gameEnded m) eqn:Em; [|reflexivity].
          now rewrite (gameEnded_step m Tick Em) in Hrun. }
        destruct (tick_running m Em) as [_ E]. cbn [step]. rewrite E, (Ht Em). lia.
      * change (ticks [DeclareWin]) with 0%nat. rewrite Nat.add_0_r.
        destruct (declare_keeps_clock m DeclareWin ltac:(discriminate)) as [E1 E2].
        rewrite E1, E2. exact Ht.
      * change (ticks [DeclareFail]) with 0%nat. rewrite Nat.add_0_r.
        destruct (declare_keeps_clock m DeclareFail ltac:(discriminate)) as [E1 E2].
        rewrite E1, E2. exact Ht.
Qed.

(** A flag is set only by its own declaration. *)
Lemma hasWon_origin tr : forall m,
  hasWon (run m tr) = true -> hasWon m = true \/ In DeclareWin tr.
Proof.
  induction tr as [|e tr IH]; intros m H; [now left|].
  rewrite run_cons in H. destruct (IH _ H) as [Hs | Hin]; [|right; now right].
  destruct e; cbn [step] in Hs.
  - left. revert Hs. unfold timerCallback, endGame. flags m.
    destruct (t - 50 <=? 0); cbn; [destruct ge|]; auto.
  - right. now left.
  - left. revert Hs. unfold setFailState, emit. flags m.
    destruct (negb ge && negb hf)%bool; auto.
Qed.

Lemma hasFailed_origin tr : forall m,
  hasFailed (run m tr) = true -> hasFailed m = true \/ In DeclareFail tr.
Proof.
  induction tr as [|e tr IH]; intros m H; [now left|].
  rewrite run_cons in H. destruct (IH _ H) as [Hs | Hin]; [|right; now right].
  destruct e; cbn [step] in Hs.
  - left. revert Hs. unfold timerCallback, endGame. flags m.
    destruct (t - 50 <=? 0); cbn; [destruct ge|]; auto.
  - left. revert Hs. unfold setWinState, emit. flags m.
    destruct (negb ge && negb hw)%bool; auto.
  - right. now left.
Qed.





(** While the round runs, the flags are the declarations made. *)
Lemma running_flags k d ph gs tr :
  gameEnded (run (start (BaseMicrogame.init k d ph gs)) tr) = false ->
  (hasWon (run (start (BaseMicrogame.init k d ph gs)) tr) = true <-> In DeclareWin tr) /\
  (hasFailed (run (start (BaseMicrogame.init k d ph gs)) tr) = true <-> In DeclareFail tr) /\
  (won (run (start (BaseMicrogame.init k d ph gs)) tr) = true
   <-> In DeclareWin tr /\ ~ In DeclareFail tr).
Proof.
  set (m := run (start (BaseMicrogame.init k d ph gs)) tr). intros He.
  assert (Hw : hasWon m = true <-> In DeclareWin tr).
  { split.
    - intros H. destruct (hasWon_origin tr _ H) as [H0|H0];
        [discriminate H0 | exact H0].
    - intros H. now apply declared_win. }
  assert (Hf : hasFailed m = true <-> In DeclareFail tr).
  { split.
    - intros H. destruct (hasFailed_origin tr _ H) as [H0|H0];
        [discriminate H0 | exact H0].
    - intros H. now apply declared_fail. }
  split; [exact Hw|]. split; [exact Hf|].
  unfold won. rewrite andb_true_iff, negb_true_iff, Hw.
  split; intros [H1 H2]; split; try assumption.
  - rewrite <- Hf. congruence.
  - destruct (hasFailed m) eqn:E; [|reflexivity]. exfalso. apply H2, Hf. reflexivity.
Qed.

End RoundMore.

Import Round.

(** X1: a round of [d] milliseconds lasts exactly [ticksToEnd d] firings of
    its timer, whatever is declared in between: declaring a win or a fail
    never ends the round early, and no round outlasts its countdown. *)
Theorem round_lasts_its_countdown (k : string) (d : Z) (phys : bool)
    (gs : GameState) (tr : list Event) :
  gameEnded (run (start (BaseMicrogame.init k d phys gs)) tr) = true <->
  (ticksToEnd d <= ticks tr)%nat.
Proof.
  destruct (RoundMore.clock k d phys gs tr) as (He & _ & _).
  cbn zeta in He. rewrite He. apply Nat.leb_le.
Qed.

(** X2: while a round of positive duration has not ended, its clock shows
    time left: whenever [update] lets the game's [onGameUpdate] run,
    [0 < timeRemaining <= duration].  A test [timeRemaining <= 0] made in
    [onGameUpdate] therefore never succeeds. *)
Theorem update_sees_time_left (k : string) (d : Z) (phys : bool)
    (gs : GameState) (tr : list Event) :
  0 < d ->
  updateRuns (run (start (BaseMicrogame.init k d phys gs)) tr) = true ->
  0 < timeRemaining (run (start (BaseMicrogame.init k d phys gs)) tr) <= d /\
  (timeRemaining (run (start (BaseMicrogame.init k d phys gs)) tr) <=? 0) = false.
Proof.
  intros Hd Hu.
  destruct (RoundMore.clock k d phys gs tr) as (He & _ & Ht). cbn zeta in He, Ht.
  set (m := run (start (BaseMicrogame.init k d phys gs)) tr) in *.
  unfold updateRuns in Hu. apply andb_prop in Hu. destruct Hu as [Hu _].
  apply negb_true_iff in Hu. specialize (Ht Hu).
  rewrite Hu in He. symmetry in He. apply Nat.leb_gt in He.
  assert (H : 0 < timeRemaining m <= d).
  { rewrite Ht. destruct (ticks tr) as [|t] eqn:Et; [lia|].
    pose proof (RoundMore.ticksToEnd_spec d t) as Hspec. lia. }
  split; [exact H|]. apply Z.leb_gt. lia.
Qed.

Lemma update_sees_time_left_witness :
  0 < timeRemaining
        (run (start (BaseMicrogame.init "FlappyFeatherGame" 4000 true INITIAL_GAME_STATE))
           (repeat Tick 79)) <= 4000 /\
  (timeRemaining
     (run (start (BaseMicrogame.init "FlappyFeatherGame" 4000 true INITIAL_GAME_STATE))
        (repeat Tick 79)) <=? 0) = false.
Proof.
  apply (update_sees_time_left "FlappyFeatherGame" 4000 true INITIAL_GAME_STATE
           (repeat Tick 79)); reflexivity.
Defined.


(** X4: while a round is running, its flags record exactly what has been
    declared: [hasWon] is set iff [setWinState] has been called, [hasFailed]
    iff [setFailState] has; so the round stands as won iff a win has been
    declared and no fail has. *)
Theorem flags_record_declarations (k : string) (d : Z) (phys : bool)
    (gs : GameState) (tr : list Event) :
  let m := run (start (BaseMicrogame.init k d phys gs)) tr in
  gameEnded m = false ->
  (hasWon m = true <-> In DeclareWin tr) /\
  (hasFailed m = true <-> In DeclareFail tr) /\
  (won m = true <-> In DeclareWin tr /\ ~ In DeclareFail tr).
Proof.
  intros m He. exact (RoundMore.running_flags k d phys gs tr He).
Qed.

Lemma flags_record_declarations_witness :
  let m := run (start (BaseMicrogame.init "ClickGame" 4000 true INITIAL_GAME_STATE))
             [DeclareFail; Tick; DeclareWin] in
  won m = true <-> In DeclareWin [DeclareFail; Tick; DeclareWin] /\
                   ~ In DeclareFail [DeclareFail; Tick; DeclareWin].
Proof.
  intros m.
  apply (flags_record_declarations "ClickGame" 4000 true INITIAL_GAME_STATE
           [DeclareFail; Tick; DeclareWin]).
  reflexivity.
Defined.

(* ================================================================= *)
(** ** More about sessions *)

Module SessionMore.

Import Progress SessionFacts.

Lemma wins_cons pr l : wins (pr :: l) = (if roundWon pr then 1 else 0) + wins l.
Proof.
  unfold wins. cbn [filter]. destruct (roundWon pr); cbn [List.length]; lia.
Qed.

Lemma losses_cons pr l : losses (pr :: l) = (if roundWon pr then 0 else 1) + losses l.
Proof.
  unfold losses. cbn [filter]. destruct (roundWon pr); cbn [negb List.length]; lia.
Qed.

Lemma delayedTransition_continues m gs' w k :
  delayedTransition m = Some (StartTransitionScene gs' w k) ->
  gs' = gameState m /\ k = sceneKey m /\ 1 <= lives (gameState m) /\
  JS.truthy_bool (debugMode (gameState m)) = false.
Proof.
  unfold delayedTransition. destruct (scheduled m); [|discriminate].
  destruct (JS.truthy_bool _); [discriminate|].
  destruct (Z.leb_spec (lives (gameState m)) 0); [discriminate|].
  intros [= <- _ <-]. repeat split; lia.
Qed.

(** One speed step from the level with index [j]. *)
Lemma level_next j :
  (j <= 10)%nat ->
  JS.Math_min (nth j speedLevels 3 + 0.2)%float 3%float
  = nth (Nat.min 10 (S j)) speedLevels 3%float.
Proof.
  intros Hj. do 11 (destruct j as [|j]; [vm_compute; reflexivity|]). lia.
Qed.

Lemma levelOf_step g :
  0 <= g ->
  levelOf (g + 1) =
  if ((0 <? g + 1) && JS.rem_is_zero (g + 1) 5)%bool
  then JS.Math_min (levelOf g + 0.2)%float 3%float
  else levelOf g.
Proof.
  intros Hg. unfold levelOf, JS.rem_is_zero.
  rewrite Z.rem_mod_nonneg by lia.
  pose proof (Z.div_mod g 5 ltac:(lia)).
  pose proof (Z.mod_pos_bound g 5 ltac:(lia)).
  pose proof (Z.div_mod (g + 1) 5 ltac:(lia)).
  pose proof (Z.mod_pos_bound (g + 1) 5 ltac:(lia)).
  destruct (Z.ltb_spec 0 (g + 1)); [|lia]. cbn [andb].
  destruct (Z.eqb_spec ((g + 1) mod 5) 0) as [E|E].
  - rewrite level_next by lia. f_equal. lia.
  - f_equal. f_equal. f_equal. lia.
Qed.

Section Game.

Variable MICROGAMES : list MicrogameInfo.
Variable sceneExists : string -> bool.
Variable getGameDuration : string -> Z.
Variable physicsWorld : string -> bool.

#[local] Abbreviation playOne := (playOne MICROGAMES sceneExists getGameDuration physicsWorld).
#[local] Abbreviation playSession := (playSession MICROGAMES sceneExists getGameDuration physicsWorld).

(** The rounds after the first one are a session of their own, entered with
    the state the first round left. *)
Lemma playSession_cons oldKey gs prev r script pr rest :
  playSession oldKey gs prev (r :: script) = pr :: rest ->
  playOne oldKey (TransitionScene.init gs prev) r = Some pr /\
  (rest = [] \/
   (rest = playSession (sceneKey (after pr)) (gameState (after pr))
             (Some (sceneKey (after pr))) script /\
    1 <= lives (gameState (after pr)) /\
    JS.truthy_bool (debugMode (gameState (after pr))) = false)).
Proof.
  cbn [Session.playSession].
  destruct (playOne oldKey (TransitionScene.init gs prev) r) as [pr0|] eqn:Hp;
    [|discriminate].
  intros [= -> <-]. split; [reflexivity|].
  destruct (delayedTransition (after pr)) as [[|gs' w k]|] eqn:Ed; auto.
  destruct (delayedTransition_continues _ _ _ _ Ed) as (-> & -> & Hl & Hd).
  right. auto.
Qed.

Lemma roundWon_won oldKey gs r pr :
  playOne oldKey gs r = Some pr -> roundWon pr = won (after pr).
Proof.
  intros Hp. destruct (playOne_round _ _ _ _ _ _ _ _ Hp) as (_ & Hs & _).
  unfold roundWon. rewrite Hs. destruct (won (after pr)); reflexivity.
Qed.

(** The books of a session: what the rounds up to a given one have added
    and taken. *)
Lemma accounts script : forall oldKey gs prev n pr,
  nth_error (playSession oldKey gs prev script) n = Some pr ->
  let upto := firstn (S n) (playSession oldKey gs prev script) in
  score (gameState (after pr)) = score gs + 100 * wins upto /\
  gamesCompleted (gameState (after pr)) = gamesCompleted gs + wins upto /\
  lives (gameState (after pr)) = lives gs - losses upto /\
  wins upto + losses upto = Z.of_nat (S n).
Proof.
  induction script as [|r script IH]; intros oldKey gs prev n pr Hn upto.
  - destruct n; discriminate Hn.
  - subst upto.
    destruct (playSession oldKey gs prev (r :: script)) as [|pr0 rest] eqn:E;
      [destruct n; discriminate Hn|].
    destruct (playSession_cons _ _ _ _ _ _ _ E) as (Hp & Hrest).
    destruct (playOne_round _ _ _ _ _ _ _ _ Hp) as ((El & Esc & _ & Eg & _) & Hs & Hg & _).
    pose proof (init_sameProgress gs prev) as (El0 & Esc0 & _ & Eg0 & _).
    pose proof (roundWon_won _ _ _ _ Hp) as Hw.
    assert (Hfirst :
      score (gameState (after pr0)) = score gs + 100 * (if roundWon pr0 then 1 else 0) /\
      gamesCompleted (gameState (after pr0))
        = gamesCompleted gs + (if roundWon pr0 then 1 else 0) /\
      lives (gameState (after pr0)) = lives gs - (if roundWon pr0 then 0 else 1)).
    { rewrite Hw, Hg. destruct (won (after pr0)); cbn; repeat split; lia. }
    destruct n as [|n].
    + injection Hn as <-. cbn [firstn]. rewrite wins_cons, losses_cons.
      change (wins []) with 0. change (losses []) with 0.
      destruct (roundWon pr0); repeat split; lia.
    + cbn [nth_error] in Hn.
      destruct Hrest as [-> | (Er & _ & _)]; [destruct n; discriminate Hn|].
      rewrite Er in Hn. specialize (IH _ _ _ _ _ Hn). cbn zeta in IH.
      rewrite <- Er in IH.
      change (firstn (S (S n)) (pr0 :: rest)) with (pr0 :: firstn (S n) rest).
      rewrite wins_cons, losses_cons.
      destruct IH as (I1 & I2 & I3 & I4).
      destruct (roundWon pr0); repeat split; lia.
Qed.

(** Lives in a session that is not in debug mode and starts with lives. *)
Lemma session_lives script : forall oldKey gs prev,
  1 <= lives gs -> JS.truthy_bool (debugMode gs) = false ->
  Forall (fun pr => 0 <= lives (gameState (after pr)) /\
                    lives (before pr) = lives (gameState (after pr))
                                        + (if roundWon pr then 0 else 1) /\
                    1 <= lives (before pr) /\
                    (sessionOver pr <-> lives (gameState (after pr)) = 0))
    (playSession oldKey gs prev script).
Proof.
  induction script as [|r script IH]; intros oldKey gs prev Hl Hd; [constructor|].
  destruct (playSession oldKey gs prev (r :: script)) as [|pr rest] eqn:E;
    [constructor|].
  destruct (playSession_cons _ _ _ _ _ _ _ E) as (Hp & Hrest).
  pose proof (init_sameProgress gs prev) as (El & _ & _ & _ & Ed).
  destruct (round_lives _ _ _ _ _ _ _ _ Hp) as (H0 & Hd' & Hcase);
    [lia | congruence |].
  destruct (playOne_round _ _ _ _ _ _ _ _ Hp) as ((Elb & _) & Hs & Hg & _).
  pose proof (roundWon_won _ _ _ _ Hp) as Hw.
  constructor.
  - split; [exact H0|]. split; [|split; [lia|]].
    + rewrite Hw, Hg. destruct (won (after pr)); cbn; lia.
    + unfold sessionOver.
      destruct Hcase as [(Ht & Hz & _) | (Ht & H1)]; rewrite Ht.
      * tauto.
      * split; [discriminate|lia].
  - destruct Hrest as [-> | (-> & Hl' & Hd'')]; [constructor|].
    now apply IH.
Qed.

(** Lives never go up. *)
Lemma session_lives_upper script : forall oldKey gs prev,
  Forall (fun pr => lives (before pr) <= lives gs)
    (playSession oldKey gs prev script).
Proof.
  induction script as [|r script IH]; intros oldKey gs prev; [constructor|].
  destruct (playSession oldKey gs prev (r :: script)) as [|pr rest] eqn:E;
    [constructor|].
  destruct (playSession_cons _ _ _ _ _ _ _ E) as (Hp & Hrest).
  pose proof (init_sameProgress gs prev) as (El & _).
  destruct (playOne_round _ _ _ _ _ _ _ _ Hp) as ((Elb & _) & _ & Hg & _).
  constructor; [lia|].
  destruct Hrest as [-> | (-> & _ & _)]; [constructor|].
  eapply Forall_impl; [|apply IH].
  intros pr' H. cbn beta in H. rewrite Hg in H. unfold applyOutcome in H.
  destruct (won (after pr)); cbn [lives] in H; lia.
Qed.

(** Speed follows the number of completed games. *)
Lemma session_speed script : forall oldKey gs prev,
  speed gs = levelOf (gamesCompleted gs) -> 0 <= gamesCompleted gs ->
  Forall (fun pr =>
            speed (before pr) = levelOf (gamesCompleted (before pr)) /\
            speed (gameState (after pr))
              = levelOf (gamesCompleted (gameState (after pr))) /\
            0 <= gamesCompleted (before pr))
    (playSession oldKey gs prev script).
Proof.
  induction script as [|r script IH]; intros oldKey gs prev Hs Hg; [constructor|].
  destruct (playSession oldKey gs prev (r :: script)) as [|pr rest] eqn:E;
    [constructor|].
  destruct (playSession_cons _ _ _ _ _ _ _ E) as (Hp & Hrest).
  pose proof (init_sameProgress gs prev) as (_ & _ & Es0 & Eg0 & _).
  destruct (playOne_round _ _ _ _ _ _ _ _ Hp) as ((_ & _ & Es & Eg & _) & _ & Hst & _).
  assert (Hb : speed (before pr) = levelOf (gamesCompleted (before pr))) by congruence.
  assert (Hgb : 0 <= gamesCompleted (before pr)) by lia.
  assert (Ha : speed (gameState (after pr))
               = levelOf (gamesCompleted (gameState (after pr))) /\
               0 <= gamesCompleted (gameState (after pr))).
  { rewrite Hst. unfold applyOutcome.
    destruct (won (after pr)); cbn [speed gamesCompleted].
    - rewrite levelOf_step by exact Hgb. rewrite Hb. split; [reflexivity|lia].
    - split; assumption. }
  constructor; [tauto|].
  destruct Hrest as [-> | (-> & _ & _)]; [constructor|].
  apply IH; tauto.
Qed.

End Game.

End SessionMore.

Import Progress.

(** X5: the books of a session balance.  After any round of a session
    entered with state [gs], [score] is [gs]'s plus 100 for every round won
    so far, [gamesCompleted] is [gs]'s plus the rounds won, and [lives] is
    [gs]'s minus the rounds lost; every round is either won or lost. *)
Theorem session_accounts (MICROGAMES : list MicrogameInfo)
    (sceneExists : string -> bool) (getGameDuration : string -> Z)
    (physicsWorld : string -> bool) (oldKey : string) (gs : GameState)
    (prev : option string) (script : list RoundScript) (n : nat)
    (pr : PlayedRound) :
  let rounds := playSession MICROGAMES sceneExists getGameDuration physicsWorld
                  oldKey gs prev script in
  nth_error rounds n = Some pr ->
  score (gameState (after pr)) = score gs + 100 * wins (firstn (S n) rounds) /\
  gamesCompleted (gameState (after pr))
    = gamesCompleted gs + wins (firstn (S n) rounds) /\
  lives (gameState (after pr)) = lives gs - losses (firstn (S n) rounds) /\
  wins (firstn (S n) rounds) + losses (firstn (S n) rounds) = Z.of_nat (S n).
Proof.
  intros rounds Hn.
  exact (SessionMore.accounts MICROGAMES sceneExists getGameDuration physicsWorld
           script oldKey gs prev n pr Hn).
Qed.

Lemma session_accounts_witness :
  let w := {| draw := 1 # 2; fallbackDraw := 0; events := [Tick; DeclareWin] |} in
  let l := {| draw := 3 # 4; fallbackDraw := 0; events := [DeclareFail] |} in
  let rounds := playSession Registry.MICROGAME_METADATA
                  (Registry.registered Registry.MICROGAME_METADATA)
                  (fun _ => 4000) (fun _ => false) "" INITIAL_GAME_STATE None
                  [w; l; w; w] in
  exists pr, nth_error rounds 2 = Some pr /\
    score (gameState (after pr)) = 0 + 100 * wins (firstn 3 rounds) /\
    gamesCompleted (gameState (after pr)) = 0 + wins (firstn 3 rounds) /\
    lives (gameState (after pr)) = 4 - losses (firstn 3 rounds) /\
    wins (firstn 3 rounds) + losses (firstn 3 rounds) = 3.
Proof.
  intros w l rounds.
  destruct (nth_error rounds 2) as [pr|] eqn:E; [|vm_compute in E; discriminate E].
  exists pr. split; [reflexivity|].
  exact (session_accounts Registry.MICROGAME_METADATA
           (Registry.registered Registry.MICROGAME_METADATA)
           (fun _ => 4000) (fun _ => false) "" INITIAL_GAME_STATE None
           [w; l; w; w] 2 pr E).
Defined.

(** X6: in a session started with no games completed and speed 1, the speed
    is a function of [gamesCompleted] alone: one step of the speed table
    for every five completed games, and the table's last entry, 3, from
    fifty completed games on. *)
Theorem speed_follows_games_completed (MICROGAMES : list MicrogameInfo)
    (sceneExists : string -> bool) (getGameDuration : string -> Z)
    (physicsWorld : string -> bool) (oldKey : string) (gs : GameState)
    (prev : option string) (script : list RoundScript) :
  speed gs = 1%float -> gamesCompleted gs = 0 ->
  Forall (fun pr =>
            speed (gameState (after pr))
              = levelOf (gamesCompleted (gameState (after pr))) /\
            (50 <= gamesCompleted (gameState (after pr)) ->
               speed (gameState (after pr)) = 3%float))
    (playSession MICROGAMES sceneExists getGameDuration physicsWorld
       oldKey gs prev script).
Proof.
  intros Hs Hg.
  pose proof (SessionMore.session_speed MICROGAMES sceneExists getGameDuration
                physicsWorld script oldKey gs prev) as H.
  eapply Forall_impl; [|apply H].
  - intros pr (_ & Ha & _). split; [exact Ha|].
    intros H50. rewrite Ha. unfold levelOf.
    pose proof (Z.div_le_lower_bound (gamesCompleted (gameState (after pr))) 5 10
                  ltac:(lia) ltac:(lia)).
    replace (Z.min 10 (gamesCompleted (gameState (after pr)) / 5)) with 10 by lia.
    reflexivity.
  - rewrite Hs, Hg. reflexivity.
  - lia.
Qed.

Lemma speed_follows_games_completed_witness :
  let w := {| draw := 1 # 2; fallbackDraw := 0; events := [DeclareWin] |} in
  Forall (fun pr =>
            speed (gameState (after pr))
              = levelOf (gamesCompleted (gameState (after pr))) /\
            (50 <= gamesCompleted (gameState (after pr)) ->
               speed (gameState (after pr)) = 3%float))
    (playSession Registry.MICROGAME_METADATA
       (Registry.registered Registry.MICROGAME_METADATA)
       (fun _ => 4000) (fun _ => false) "" INITIAL_GAME_STATE None
       [w; w; w; w; w; w]).
Proof.
  intros w.
  apply (speed_follows_games_completed Registry.MICROGAME_METADATA
           (Registry.registered Registry.MICROGAME_METADATA)
           (fun _ => 4000) (fun _ => false) "" INITIAL_GAME_STATE None
           [w; w; w; w; w; w]); reflexivity.
Defined.

(** X7: a session that is not in debug mode and starts with 4 lives ends
    with its fourth lost round and not before: after any round at most four
    rounds have been lost, and the round returns to the title scene iff it
    is the fourth lost one. *)
Theorem session_ends_at_fourth_loss (MICROGAMES : list MicrogameInfo)
    (sceneExists : string -> bool) (getGameDuration : string -> Z)
    (physicsWorld : string -> bool) (oldKey : string) (gs : GameState)
    (prev : option string) (script : list RoundScript) (n : nat)
    (pr : PlayedRound) :
  lives gs = 4 -> JS.truthy_bool (debugMode gs) = false ->
  let rounds := playSession MICROGAMES sceneExists getGameDuration physicsWorld
                  oldKey gs prev script in
  nth_error rounds n = Some pr ->
  losses (firstn (S n) rounds) <= 4 /\
  (sessionOver pr <-> losses (firstn (S n) rounds) = 4) /\
  (sessionOver pr -> List.length rounds = S n).
Proof.
  intros Hl Hd rounds Hn.
  destruct (SessionMore.accounts MICROGAMES sceneExists getGameDuration physicsWorld
              script oldKey gs prev n pr Hn) as (_ & _ & Hlives & _).
  fold rounds in Hlives.
  pose proof (SessionMore.session_lives MICROGAMES sceneExists getGameDuration
                physicsWorld script oldKey gs prev ltac:(lia) Hd) as Hall.
  fold rounds in Hall.
  rewrite Forall_forall in Hall.
  destruct (Hall pr (nth_error_In _ _ Hn)) as (H0 & _ & _ & Hover).
  split; [lia|]. split; [rewrite Hover; lia|].
  intros Ho.
  (* a round that returns to the title scene is the last one *)
  clear Hall Hlives H0 Hover Hl Hd. subst rounds.
  revert oldKey gs prev n Hn.
  induction script as [|r script IH]; intros oldKey gs prev n Hn;
    [destruct n; discriminate Hn|].
  destruct (playSession MICROGAMES sceneExists getGameDuration physicsWorld
              oldKey gs prev (r :: script)) as [|pr0 rest] eqn:E;
    [destruct n; discriminate Hn|].
  destruct (SessionMore.playSession_cons _ _ _ _ _ _ _ _ _ _ _ E) as (Hp & Hrest).
  destruct n as [|n].
  - injection Hn as ->.
    cbn [Session.playSession] in E. rewrite Hp in E.
    unfold sessionOver in Ho. rewrite Ho in E. injection E as <-. reflexivity.
  - cbn [nth_error] in Hn. cbn [List.length]. f_equal.
    destruct Hrest as [-> | (Er & _ & _)]; [destruct n; discriminate Hn|].
    rewrite Er in Hn |- *. eapply IH, Hn.
Qed.

Lemma session_ends_at_fourth_loss_witness :
  let w := {| draw := 1 # 2; fallbackDraw := 0; events := [Tick; DeclareWin] |} in
  let l := {| draw := 3 # 4; fallbackDraw := 0; events := [DeclareFail] |} in
  let rounds := playSession Registry.MICROGAME_METADATA
                  (Registry.registered Registry.MICROGAME_METADATA)
                  (fun _ => 4000) (fun _ => false) "" INITIAL_GAME_STATE None
                  [l; l; w; l; l; w] in
  exists pr, nth_error rounds 4 = Some pr /\
    losses (firstn 5 rounds) <= 4 /\
    (sessionOver pr <-> losses (firstn 5 rounds) = 4) /\
    (sessionOver pr -> List.length rounds = 5%nat).
Proof.
  intros w l rounds.
  destruct (nth_error rounds 4) as [pr|] eqn:E; [|vm_compute in E; discriminate E].
  exists pr. split; [reflexivity|].
  exact (session_ends_at_fourth_loss Registry.MICROGAME_METADATA
           (Registry.registered Registry.MICROGAME_METADATA)
           (fun _ => 4000) (fun _ => false) "" INITIAL_GAME_STATE None
           [l; l; w; l; l; w] 4 pr eq_refl eq_refl E).
Defined.

(* ================================================================= *)
(** ** The displays of the transition scene *)

(** X8: the lives display always has four slots, the first
    [min(4, max(0, lives))] of them active hearts and the rest empty; in a
    session that starts with 4 lives outside debug mode the transition scene
    is only ever shown with 1 to 4 lives, so it shows exactly [lives] active
    hearts. *)
Theorem hearts_show_lives (MICROGAMES : list MicrogameInfo)
    (sceneExists : string -> bool) (getGameDuration : string -> Z)
    (physicsWorld : string -> bool) (oldKey : string) (gs : GameState)
    (prev : option string) (script : list RoundScript) (n : Z) :
  Displays.createLivesDisplay n
    = repeat true (Z.to_nat (Z.max 0 (Z.min 4 n)))
      ++ repeat false (4 - Z.to_nat (Z.max 0 (Z.min 4 n))) /\
  (lives gs = 4 -> JS.truthy_bool (debugMode gs) = false ->
   Forall (fun pr =>
             1 <= lives (before pr) <= 4 /\
             Displays.createLivesDisplay (lives (before pr))
             = repeat true (Z.to_nat (lives (before pr)))
               ++ repeat false (4 - Z.to_nat (lives (before pr))))
     (playSession MICROGAMES sceneExists getGameDuration physicsWorld
        oldKey gs prev script)).
Proof.
  assert (Hgen : forall n,
    Displays.createLivesDisplay n
    = repeat true (Z.to_nat (Z.max 0 (Z.min 4 n)))
      ++ repeat false (4 - Z.to_nat (Z.max 0 (Z.min 4 n)))).
  { clear. intros n. unfold Displays.createLivesDisplay. cbn [map].
    assert (Hc : n <= 0 \/ n = 1 \/ n = 2 \/ n = 3 \/ 4 <= n) by lia.
    destruct Hc as [H|[->|[->|[->|H]]]]; try reflexivity.
    - replace (Z.max 0 (Z.min 4 n)) with 0 by lia.
      rewrite !(proj2 (Z.ltb_ge _ _)) by lia. reflexivity.
    - replace (Z.max 0 (Z.min 4 n)) with 4 by lia.
      rewrite !(proj2 (Z.ltb_lt _ _)) by lia. reflexivity. }
  split; [apply Hgen|].
  intros Hl Hd.
  pose proof (SessionMore.session_lives MICROGAMES sceneExists getGameDuration
                physicsWorld script oldKey gs prev ltac:(lia) Hd) as H1.
  pose proof (SessionMore.session_lives_upper MICROGAMES sceneExists getGameDuration
                physicsWorld script oldKey gs prev) as H2.
  rewrite Forall_forall in *. intros pr Hin.
  destruct (H1 pr Hin) as (_ & _ & Hlo & _). specialize (H2 pr Hin). cbn beta in H2.
  split; [lia|]. rewrite Hgen.
  replace (Z.max 0 (Z.min 4 (lives (before pr)))) with (lives (before pr)) by lia.
  reflexivity.
Qed.

Lemma hearts_show_lives_witness :
  let l := {| draw := 3 # 4; fallbackDraw := 0; events := [DeclareFail] |} in
  Forall (fun pr =>
            1 <= lives (before pr) <= 4 /\
            Displays.createLivesDisplay (lives (before pr))
            = repeat true (Z.to_nat (lives (before pr)))
              ++ repeat false (4 - Z.to_nat (lives (before pr))))
    (playSession Registry.MICROGAME_METADATA
       (Registry.registered Registry.MICROGAME_METADATA)
       (fun _ => 4000) (fun _ => false) "" INITIAL_GAME_STATE None [l; l; l]).
Proof.
  intros l.
  apply (proj2 (hearts_show_lives Registry.MICROGAME_METADATA
                  (Registry.registered Registry.MICROGAME_METADATA)
                  (fun _ => 4000) (fun _ => false) "" INITIAL_GAME_STATE None
                  [l; l; l] 4)); reflexivity.
Defined.

(** X9: for every speed a session started at speed 1 can be at, the speed
    indicator draws one bar at speed 1, two bars up to speed 2 and three
    bars above, the loop stopping by itself after at most three bars. *)
Theorem speed_bars (s : float) (fuel : nat) :
  In s speedLevels -> (4 <= fuel)%nat ->
  Displays.createSpeedIndicator fuel s
  = (if leb s 1 then 1 else if leb s 2 then 2 else 3)%nat.
Proof.
  intros Hin Hfuel.
  do 4 (destruct fuel as [|fuel]; [lia|]).
  unfold speedLevels in Hin. cbn [In] in Hin.
  repeat (destruct Hin as [<-|Hin]; [vm_compute; reflexivity|]).
  destruct Hin.
Qed.

Lemma speed_bars_witness :
  Displays.createSpeedIndicator 10 0x1.fffffffffffffp+0%float = 2%nat.
Proof.
  apply (speed_bars 0x1.fffffffffffffp+0%float 10).
  - vm_compute. auto 20.
  - repeat constructor.
Defined.

(* ================================================================= *)
(** ** More about the selector *)

Module SelectorMore.

Import SelectorFacts.

(** A draw in [0, 1) gives an element of a non-empty array. *)
Lemma GetRandom_some {A} (u : Q) (arr : list A) :
  arr <> [] -> (0 <= u)%Q -> (u < 1)%Q ->
  exists x, GetRandom u arr = Some x /\ In x arr.
Proof.
  intros Hne Hu0 Hu1. unfold GetRandom.
  set (n := JS.len arr).
  assert (Hn : 1 <= n).
  { subst n. destruct arr; [congruence|]. rewrite len_cons.
    pose proof (len_nonneg arr). lia. }
  assert (HnQ : (1 <= inject_Z n)%Q).
  { change 1%Q with (inject_Z 1). now rewrite <- Zle_Qle. }
  assert (Hx0 : (0 <= u * inject_Z n)%Q) by (apply Qmult_le_0_compat; lra).
  assert (Hx1 : (u * inject_Z n < inject_Z n)%Q).
  { setoid_replace (inject_Z n) with (1 * inject_Z n)%Q at 2 by ring.
    apply Qmult_lt_compat_r; lra. }
  pose proof (Qfloor_le (u * inject_Z n)) as Hf1.
  pose proof (Qlt_floor (u * inject_Z n)) as Hf2.
  assert (H0 : 0 <= Qfloor (u * inject_Z n)).
  { assert (-1 < Qfloor (u * inject_Z n)); [|lia].
    rewrite Zlt_Qlt. rewrite inject_Z_plus in Hf2.
    change (inject_Z (-1)) with (-1)%Q. change (inject_Z 1) with 1%Q in Hf2. lra. }
  assert (H1 : Qfloor (u * inject_Z n) < n) by (rewrite Zlt_Qlt; lra).
  destruct (nth_error arr (Z.to_nat (Qfloor (u * inject_Z n)))) as [x|] eqn:E.
  - exists x. split; [reflexivity|]. eapply nth_error_In, E.
  - exfalso. apply nth_error_None in E. subst n. unfold JS.len in *. lia.
Qed.

(** The weighted branch answers for every non-empty catalog. *)
Lemma weightedChoice_some cat gs (u u' : Q) :
  cat <> [] -> (0 <= u)%Q -> (u < 1)%Q ->
  exists g, weightedChoice cat u u' gs = Some g /\ In g cat.
Proof.
  intros Hne Hu0 Hu1. unfold weightedChoice.
  set (gws := gameWeights cat (recentList gs)).
  assert (Hge : forall gw, In gw gws -> 20 <= weight gw)
    by (intros gw; apply gameWeights_ge_20).
  assert (Hgne : gws <> []).
  { subst gws. unfold gameWeights. destruct cat; [congruence|discriminate]. }
  assert (Hpos : (0 < inject_Z (totalWeight gws))%Q).
  { change 0%Q with (inject_Z 0). rewrite <- Zlt_Qlt.
    pose proof (totalWeight_lower gws Hge).
    assert (1 <= JS.len gws).
    { destruct gws; [congruence|]. rewrite len_cons.
      pose proof (len_nonneg gws). lia. }
    lia. }
  assert (Hlt : (u * inject_Z (totalWeight gws) < inject_Z (totalWeight gws))%Q).
  { setoid_replace (inject_Z (totalWeight gws))
      with (1 * inject_Z (totalWeight gws))%Q at 2 by ring.
    apply Qmult_lt_compat_r; assumption. }
  destruct (weightedLoop_assigns gws _ Hgne (Qlt_le_weak _ _ Hlt)) as (gw & Hin & Hsel).
  rewrite Hsel. exists (game gw). split; [reflexivity|].
  eapply gameWeights_In, Hin.
Qed.

(** The position of the first occurrence. *)
Lemma indexOf_first pre x post :
  ~ In x pre -> JS.indexOf (pre ++ x :: post) x = JS.len pre.
Proof.
  induction pre as [|y pre IH]; intros Hn.
  - cbn. now rewrite String.eqb_refl.
  - cbn [app JS.indexOf]. rewrite len_cons.
    destruct (String.eqb_spec y x) as [->|_].
    + exfalso. apply Hn. now left.
    + rewrite IH by (intros H; apply Hn; now right).
      pose proof (len_nonneg pre).
      destruct (Z.eqb_spec (JS.len pre) (-1)); lia.
Qed.

End SelectorMore.

(** X10: for a non-empty catalog whose keys are distinct and a draw in
    [0, 1), [showNextGameControls] always finds a game: it never runs into
    reading [.key] of [null], the key it sets is the key of a catalog game,
    and the session state is only touched to create a missing
    [recentGames]. *)
Theorem selector_always_finds_a_game (MICROGAMES : list MicrogameInfo)
    (gs : GameState) (u u' : Q) (oldKey : string) :
  MICROGAMES <> [] -> NoDup (map key MICROGAMES) ->
  (0 <= u)%Q -> (u < 1)%Q ->
  exists g, In g MICROGAMES /\
    showNextGameControls MICROGAMES u u' oldKey gs
    = Some (ensureRecentGames gs, key g).
Proof.
  intros Hne Hnd Hu0 Hu1. unfold showNextGameControls.
  assert (Hlen : 1 <= JS.len MICROGAMES).
  { destruct MICROGAMES as [|g0 rest]; [congruence|]. rewrite SelectorFacts.len_cons.
    pose proof (SelectorFacts.len_nonneg rest). lia. }
  rewrite (proj2 (Z.ltb_lt 0 (JS.len MICROGAMES))) by lia.
  assert (Hc : exists g, chooseNextGame MICROGAMES u u' (ensureRecentGames gs) = Some g
                         /\ In g MICROGAMES).
  { unfold chooseNextGame.
    destruct (usesSmallCatalogBranch MICROGAMES) eqn:Eb.
    - apply SelectorFacts.usesSmallCatalogBranch_iff in Eb.
      unfold smallCatalogChoice.
      assert (Hav : availableGames MICROGAMES (ensureRecentGames gs) <> [] /\
                    forall x, In x (availableGames MICROGAMES (ensureRecentGames gs))
                              -> In x MICROGAMES).
      { unfold availableGames.
        destruct (previousGameKey (ensureRecentGames gs)) as [p|]; [|auto].
        destruct (JS.truthy_string (Some p) && (1 <? JS.len MICROGAMES))%bool eqn:Ec;
          [|auto].
        split; [|intros x Hx; apply filter_In in Hx; tauto].
        apply andb_prop in Ec. destruct Ec as [_ Ec]. apply Z.ltb_lt in Ec.
        destruct MICROGAMES as [|a [|b [|c l]]]; unfold JS.len in *;
          cbn [List.length] in *; try lia.
        cbn [map] in Hnd. inversion Hnd as [|? ? Hna _]; subst.
        cbn [filter].
        destruct (String.eqb_spec (key a) p) as [Ea|_]; [|discriminate].
        destruct (String.eqb_spec (key b) p) as [Eb'|_]; [|discriminate].
        exfalso. apply Hna. left. congruence. }
      destruct Hav as [Hav Hsub].
      destruct (SelectorMore.GetRandom_some u _ Hav Hu0 Hu1) as (x & Hx & Hin).
      exists x. split; [exact Hx | apply Hsub, Hin].
    - apply SelectorMore.weightedChoice_some; assumption. }
  destruct Hc as (g & Hg & Hin). rewrite Hg. exists g. split; [exact Hin|reflexivity].
Qed.

Lemma selector_always_finds_a_game_witness :
  exists g, In g Registry.MICROGAME_METADATA /\
    showNextGameControls Registry.MICROGAME_METADATA (255 # 256) 0 "" INITIAL_GAME_STATE
    = Some (ensureRecentGames INITIAL_GAME_STATE, key g).
Proof.
  apply (selector_always_finds_a_game Registry.MICROGAME_METADATA
           INITIAL_GAME_STATE (255 # 256) 0 "").
  - discriminate.
  - repeat constructor; cbn; intuition discriminate.
  - discriminate.
  - reflexivity.
Defined.

(** X11: with a single game the selector returns that game for every draw,
    previous game or not; with two games of distinct keys, one of which was
    played previously, it returns the other one for every draw. *)
Theorem two_games_alternate (a b : MicrogameInfo) (gs : GameState)
    (u u' : Q) :
  (0 <= u)%Q -> (u < 1)%Q ->
  chooseNextGame [a] u u' gs = Some a /\
  (key a <> key b -> key a <> "" ->
   previousGameKey gs = Some (key a) ->
   chooseNextGame [a; b] u u' gs = Some b /\
   chooseNextGame [b; a] u u' gs = Some b).
Proof.
  intros Hu0 Hu1.
  assert (Hone : forall x : MicrogameInfo, GetRandom u [x] = Some x).
  { intros x. destruct (SelectorMore.GetRandom_some u [x] ltac:(discriminate) Hu0 Hu1)
      as (y & Hy & [<-|[]]). exact Hy. }
  split.
  - unfold chooseNextGame.
    change (usesSmallCatalogBranch [a]) with true. cbn iota.
    unfold smallCatalogChoice, availableGames.
    destruct (previousGameKey gs) as [p|]; [|apply Hone].
    change (1 <? JS.len [a]) with false. rewrite andb_false_r. apply Hone.
  - intros Hab Ha Hp.
    assert (Et : JS.truthy_string (Some (key a)) = true).
    { cbn. destruct (String.eqb_spec (key a) ""); [contradiction|reflexivity]. }
    split; unfold chooseNextGame.
    + change (usesSmallCatalogBranch [a; b]) with true. cbn iota.
      unfold smallCatalogChoice, availableGames. rewrite Hp, Et.
      change (1 <? JS.len [a; b]) with true. cbn [andb filter].
      rewrite String.eqb_refl. cbn [negb].
      destruct (String.eqb_spec (key b) (key a)); [congruence|]. cbn [negb].
      apply Hone.
    + change (usesSmallCatalogBranch [b; a]) with true. cbn iota.
      unfold smallCatalogChoice, availableGames. rewrite Hp, Et.
      change (1 <? JS.len [b; a]) with true. cbn [andb filter].
      rewrite String.eqb_refl. cbn [negb].
      destruct (String.eqb_spec (key b) (key a)); [congruence|]. cbn [negb].
      apply Hone.
Qed.

Lemma two_games_alternate_witness :
  let a := mkMicrogameInfo "CatchGame" "Catch the Egg" "CATCH!"
             "Move basket to catch falling egg" "Mouse: Move left/right" in
  let b := mkMicrogameInfo "TypeGame" "Type the Word" "TYPE!"
             "Type the word shown before time runs out"
             "Keyboard: Type letters, Backspace to delete" in
  let gs := {| lives := 4; score := 100; currentGame := 0; speed := 1%float;
               gamesCompleted := 1; debugMode := Some false;
               previousGameKey := Some "CatchGame";
               recentGames := Some ["CatchGame"] |} in
  chooseNextGame [a; b] (1 # 128) 0 gs = Some b /\
  chooseNextGame [b; a] (1 # 128) 0 gs = Some b.
Proof.
  intros a b gs.
  apply (proj2 (two_games_alternate a b gs (1 # 128) 0
                  ltac:(discriminate) ltac:(reflexivity)));
    [discriminate | discriminate | reflexivity].
Defined.

(** X12: the weight of a game depends on the first, that is the oldest,
    occurrence of its key in [recentGames]: 20 for every entry from that
    occurrence to the end of the history, and 100 when the key does not
    occur.  A key that occurs twice is weighted by its older occurrence,
    also when it is the most recent entry. *)
Theorem weight_by_oldest_occurrence (g : MicrogameInfo)
    (pre post recent : list string) :
  (~ In (key g) recent -> weight (gameWeight recent g) = 100) /\
  (~ In (key g) pre ->
   weight (gameWeight (pre ++ key g :: post) g) = 20 * (JS.len post + 1)).
Proof.
  split; intros Hn; unfold gameWeight.
  - rewrite SelectorFacts.indexOf_absent by exact Hn. reflexivity.
  - rewrite SelectorMore.indexOf_first by exact Hn.
    pose proof (SelectorFacts.len_nonneg pre).
    destruct (Z.eqb_spec (JS.len pre) (-1)); [lia|].
    cbn [weight]. rewrite SelectorFacts.len_app, SelectorFacts.len_cons. lia.
Qed.

Lemma weight_by_oldest_occurrence_witness :
  let g := mkMicrogameInfo "TerminalVirusGame" "Stop the Virus" "TERMINATE!"
             "Press Ctrl+C to stop the virus"
             "Keyboard: Type letters, Backspace to delete" in
  weight (gameWeight (["TerminalVirusGame"; "SneezeShieldGame"; "TerminalVirusGame"]) g)
  = 60.
Proof.
  intros g.
  apply (proj2 (weight_by_oldest_occurrence g []
                  ["SneezeShieldGame"; "TerminalVirusGame"] [])).
  intros [].
Defined.

(* ================================================================= *)
(** ** The history across a session *)

Module HistoryMore.

Import SelectorFacts SessionFacts SessionMore.

Lemma lastn_lastn_app {A} (n : Z) (l l' : list A) :
  lastn n (lastn n l ++ l') = lastn n (l ++ l').
Proof.
  unfold lastn. set (N := Z.to_nat n).
  destruct (Nat.le_gt_cases (List.length l) N) as [Hle|Hgt].
  - replace (List.length l - N)%nat with 0%nat by lia. reflexivity.
  - rewrite !length_app, length_skipn.
    rewrite !skipn_app, skipn_skipn, length_skipn.
    f_equal; f_equal; lia.
Qed.

(** Pushing a key and dropping the front entry when the history has grown
    too long keeps the last [n] keys. *)
Lemma kept_lastn (n : Z) (h : list string) (k : string) :
  0 <= n -> JS.len h <= n ->
  (if n <? JS.len (JS.push h k) then JS.shift (JS.push h k) else JS.push h k)
  = lastn n (h ++ [k]).
Proof.
  intros Hn Hle. unfold JS.push, JS.shift, lastn, JS.len in *.
  rewrite length_app. cbn [List.length].
  destruct (Z.ltb_spec n (Z.of_nat (List.length h + 1))) as [Hlt|Hge].
  - replace (List.length h + 1 - Z.to_nat n)%nat with 1%nat by lia. reflexivity.
  - replace (List.length h + 1 - Z.to_nat n)%nat with 0%nat by lia. reflexivity.
Qed.

Lemma sceneKey_step m e : sceneKey (step m e) = sceneKey m.
Proof.
  destruct e; cbn [step];
    unfold timerCallback, setWinState, setFailState, endGame, emit;
    RoundFacts.flags m.
  - destruct (t - 50 <=? 0); cbn; [destruct ge|]; reflexivity.
  - destruct (negb ge && negb hw)%bool; reflexivity.
  - destruct (negb ge && negb hf)%bool; reflexivity.
Qed.

Lemma sceneKey_run tr : forall m, sceneKey (run m tr) = sceneKey m.
Proof.
  induction tr as [|e tr IH]; intros m; [reflexivity|].
  rewrite RoundFacts.run_cons, IH. apply sceneKey_step.
Qed.

Lemma sceneKey_playRound k d ph gs tr : sceneKey (playRound k d ph gs tr) = k.
Proof.
  destruct (RoundFacts.playRound_is_run k d ph gs tr) as [n ->].
  now rewrite sceneKey_run.
Qed.

Section Game.

Variable MICROGAMES : list MicrogameInfo.
Variable sceneExists : string -> bool.
Variable getGameDuration : string -> Z.
Variable physicsWorld : string -> bool.

#[local] Abbreviation playOne := (playOne MICROGAMES sceneExists getGameDuration physicsWorld).
#[local] Abbreviation playSession := (playSession MICROGAMES sceneExists getGameDuration physicsWorld).
#[local] Abbreviation HS := (HISTORY_SIZE MICROGAMES).

(** What the transition scene has written down when a round starts. *)
Lemma playOne_records oldKey gs r pr :
  playOne oldKey gs r = Some pr ->
  let k := sceneKey (after pr) in
  recentList (before pr)
    = (if HS <? JS.len (JS.push (recentList gs) k)
       then JS.shift (JS.push (recentList gs) k)
       else JS.push (recentList gs) k) /\
  previousGameKey (before pr) = Some k /\
  sceneExists k = true /\ k <> "" /\
  (MICROGAMES <> [] -> exists g, In g MICROGAMES /\ key g = k) /\
  recentList (gameState (after pr)) = recentList (before pr).
Proof.
  intros Hp k.
  assert (Hh : recentList (gameState (after pr)) = recentList (before pr)).
  { destruct (playOne_round _ _ _ _ _ _ _ _ Hp) as (_ & _ & Hg & _).
    rewrite Hg. unfold applyOutcome. destruct (won (after pr)); reflexivity. }
  unfold Session.playOne in Hp.
  destruct (showNextGameControls _ _ _ _ _) as [[gs1 k1]|] eqn:E1; [|discriminate].
  destruct (transitionToGame _ _ _ _) as [k' gs2|] eqn:E2; [|discriminate].
  injection Hp as <-. subst k. cbn [before after] in *.
  rewrite sceneKey_playRound.
  unfold transitionToGame in E2.
  destruct (JS.truthy_string (Some k1) && sceneExists k1)%bool eqn:Ek; [|discriminate].
  injection E2 as <- <-.
  apply andb_prop in Ek. destruct Ek as [Et Ex].
  pose proof (showNextGameControls_recentList _ _ _ _ _ _ _ E1) as Er.
  rewrite Er in Hh |- *.
  split; [reflexivity|]. split; [reflexivity|]. split; [exact Ex|].
  split.
  { intros ->. discriminate Et. }
  split.
  - intros Hne. unfold showNextGameControls in E1.
    assert (Hlen : 0 < JS.len MICROGAMES).
    { destruct MICROGAMES as [|g0 rest]; [congruence|]. rewrite len_cons.
      pose proof (len_nonneg rest). lia. }
    rewrite (proj2 (Z.ltb_lt _ _) Hlen) in E1.
    destruct (chooseNextGame _ _ _ _) as [g|] eqn:Ec; [|discriminate].
    injection E1 as _ <-. exists g. split; [|reflexivity].
    unfold chooseNextGame in Ec.
    destruct (usesSmallCatalogBranch MICROGAMES).
    + apply GetRandom_In in Ec. unfold availableGames in Ec.
      destruct (previousGameKey _) as [p|]; [|exact Ec].
      destruct (_ && _)%bool; [|exact Ec]. apply filter_In in Ec. tauto.
    + unfold weightedChoice in Ec.
      destruct (weightedLoop _ _) as [g'|] eqn:El.
      * injection Ec as <-.
        destruct (weightedLoop_In _ _ _ El) as (gw & Hgw & <-).
        eapply gameWeights_In, Hgw.
      * eapply GetRandom_In, Ec.
  - exact Hh.
Qed.

Lemma init_recentList gs prev :
  recentList (TransitionScene.init gs prev) = recentList gs.
Proof. unfold TransitionScene.init. destruct (JS.truthy_string prev); reflexivity. Qed.

(** The history when a round starts is made of the last keys played. *)
Lemma history_keys script : forall oldKey gs prev n pr,
  JS.len (recentList gs) <= HS ->
  nth_error (playSession oldKey gs prev script) n = Some pr ->
  recentList (before pr)
  = lastn HS (recentList gs
              ++ keysPlayed (firstn (S n) (playSession oldKey gs prev script))).
Proof.
  induction script as [|r script IH]; intros oldKey gs prev n pr Hle Hn;
    [destruct n; discriminate Hn|].
  destruct (playSession oldKey gs prev (r :: script)) as [|pr0 rest] eqn:E;
    [destruct n; discriminate Hn|].
  destruct (playSession_cons _ _ _ _ _ _ _ _ _ _ _ E) as (Hp & Hrest).
  destruct (playOne_records _ _ _ _ Hp) as (Hrec & _ & _ & _ & _ & Hafter).
  cbn zeta in Hrec. rewrite init_recentList in Hrec.
  rewrite kept_lastn in Hrec by (try apply HISTORY_SIZE_nonneg; exact Hle).
  destruct n as [|n].
  - injection Hn as <-. exact Hrec.
  - cbn [nth_error] in Hn.
    destruct Hrest as [-> | (Er & _ & _)]; [destruct n; discriminate Hn|].
    change (firstn (S (S n)) (pr0 :: rest)) with (pr0 :: firstn (S n) rest).
    cbn [keysPlayed map]. fold (keysPlayed (firstn (S n) rest)).
    rewrite Er in Hn |- *.
    assert (Hb : JS.len (recentList (gameState (after pr0))) <= HS).
    { rewrite Hafter.
      pose proof (round_history _ _ _ _ _ _ _ _ Hp) as Hh.
      rewrite init_recentList in Hh. apply Hh, Hle. }
    rewrite (IH _ _ _ _ _ Hb Hn).
    rewrite Hafter, Hrec, lastn_lastn_app, <- app_assoc. reflexivity.
Qed.

(** What every round of a session has on record. *)
Lemma session_records script : forall oldKey gs prev,
  MICROGAMES <> [] ->
  Forall (fun pr =>
            previousGameKey (before pr) = Some (sceneKey (after pr)) /\
            sceneExists (sceneKey (after pr)) = true /\
            sceneKey (after pr) <> "" /\
            (exists g, In g MICROGAMES /\ key g = sceneKey (after pr)) /\
            (2 <= JS.len MICROGAMES ->
             last (recentList (before pr)) "" = sceneKey (after pr)))
    (playSession oldKey gs prev script).
Proof.
  induction script as [|r script IH]; intros oldKey gs prev Hne; [constructor|].
  destruct (playSession oldKey gs prev (r :: script)) as [|pr rest] eqn:E;
    [constructor|].
  destruct (playSession_cons _ _ _ _ _ _ _ _ _ _ _ E) as (Hp & Hrest).
  destruct (playOne_records _ _ _ _ Hp) as (Hrec & Hprev & Hex & Hk & Hg & _).
  cbn zeta in Hrec. constructor.
  - split; [exact Hprev|]. split; [exact Hex|]. split; [exact Hk|].
    split; [exact (Hg Hne)|].
    intros H2. rewrite Hrec. unfold JS.push, JS.shift.
    set (h := recentList (TransitionScene.init gs prev)).
    assert (H1 : 1 <= HS).
    { unfold HISTORY_SIZE.
      pose proof (Z.div_le_lower_bound (JS.len MICROGAMES) 2 1 ltac:(lia) ltac:(lia)).
      lia. }
    destruct (Z.ltb_spec HS (JS.len (h ++ [sceneKey (after pr)]))) as [Hlt|_];
      [|apply last_last].
    destruct h as [|x h']; [cbn in Hlt; lia|].
    cbn [app tl]. apply last_last.
  - destruct Hrest as [-> | (-> & _ & _)]; [constructor|]. now apply IH.
Qed.

End Game.

End HistoryMore.

(** X13: [recentGames] is the tail of the play order.  In a session entered
    with a history [h] within the bound, the history a round starts with is
    the last [HISTORY_SIZE] entries of [h] followed by the keys of the games
    played so far, that round's own key included. *)
Theorem history_is_last_keys (MICROGAMES : list MicrogameInfo)
    (sceneExists : string -> bool) (getGameDuration : string -> Z)
    (physicsWorld : string -> bool) (oldKey : string) (gs : GameState)
    (prev : option string) (script : list RoundScript) (n : nat)
    (pr : PlayedRound) :
  let rounds := playSession MICROGAMES sceneExists getGameDuration physicsWorld
                  oldKey gs prev script in
  JS.len (recentList gs) <= HISTORY_SIZE MICROGAMES ->
  nth_error rounds n = Some pr ->
  recentList (before pr)
  = lastn (HISTORY_SIZE MICROGAMES)
      (recentList gs ++ keysPlayed (firstn (S n) rounds)).
Proof.
  intros rounds Hle Hn.
  exact (HistoryMore.history_keys MICROGAMES sceneExists getGameDuration
           physicsWorld script oldKey gs prev n pr Hle Hn).
Qed.

Lemma history_is_last_keys_witness :
  let w := {| draw := 1 # 2; fallbackDraw := 0; events := [Tick; DeclareWin] |} in
  let l := {| draw := 3 # 4; fallbackDraw := 0; events := [DeclareFail] |} in
  let rounds := playSession Registry.MICROGAME_METADATA
                  (Registry.registered Registry.MICROGAME_METADATA)
                  (fun _ => 4000) (fun _ => false) "" INITIAL_GAME_STATE None
                  [w; l; w; w; l] in
  exists pr, nth_error rounds 3 = Some pr /\
    recentList (before pr)
    = lastn (HISTORY_SIZE Registry.MICROGAME_METADATA)
        (recentList INITIAL_GAME_STATE ++ keysPlayed (firstn 4 rounds)).
Proof.
  intros w l rounds.
  destruct (nth_error rounds 3) as [pr|] eqn:E; [|vm_compute in E; discriminate E].
  exists pr. split; [reflexivity|].
  apply (history_is_last_keys Registry.MICROGAME_METADATA
           (Registry.registered Registry.MICROGAME_METADATA)
           (fun _ => 4000) (fun _ => false) "" INITIAL_GAME_STATE None
           [w; l; w; w; l] 3 pr); [vm_compute; discriminate | exact E].
Defined.

(** X14: every round a session plays is the round the transition scene
    chose: its scene key is a non-empty key of a catalog game whose scene
    exists, it is what [previousGameKey] holds when the round starts, and,
    in a catalog of at least two games, it is the newest entry of
    [recentGames]. *)
Theorem played_round_is_recorded (MICROGAMES : list MicrogameInfo)
    (sceneExists : string -> bool) (getGameDuration : string -> Z)
    (physicsWorld : string -> bool) (oldKey : string) (gs : GameState)
    (prev : option string) (script : list RoundScript) :
  MICROGAMES <> [] ->
  Forall (fun pr =>
            previousGameKey (before pr) = Some (sceneKey (after pr)) /\
            sceneExists (sceneKey (after pr)) = true /\
            sceneKey (after pr) <> "" /\
            (exists g, In g MICROGAMES /\ key g = sceneKey (after pr)) /\
            (2 <= JS.len MICROGAMES ->
             last (recentList (before pr)) "" = sceneKey (after pr)))
    (playSession MICROGAMES sceneExists getGameDuration physicsWorld
       oldKey gs prev script).
Proof.
  intros Hne.
  exact (HistoryMore.session_records MICROGAMES sceneExists getGameDuration
           physicsWorld script oldKey gs prev Hne).
Qed.

Lemma played_round_is_recorded_witness :
  let w := {| draw := 1 # 2; fallbackDraw := 0; events := [Tick; DeclareWin] |} in
  Forall (fun pr =>
            previousGameKey (before pr) = Some (sceneKey (after pr)) /\
            Registry.registered Registry.MICROGAME_METADATA (sceneKey (after pr)) = true /\
            sceneKey (after pr) <> "" /\
            (exists g, In g Registry.MICROGAME_METADATA /\ key g = sceneKey (after pr)) /\
            (2 <= JS.len Registry.MICROGAME_METADATA ->
             last (recentList (before pr)) "" = sceneKey (after pr)))
    (playSession Registry.MICROGAME_METADATA
       (Registry.registered Registry.MICROGAME_METADATA)
       (fun _ => 4000) (fun _ => false) "" INITIAL_GAME_STATE None [w; w; w]).
Proof.
  intros w.
  apply (played_round_is_recorded Registry.MICROGAME_METADATA
           (Registry.registered Registry.MICROGAME_METADATA)
           (fun _ => 4000) (fun _ => false) "" INITIAL_GAME_STATE None [w; w; w]).
  discriminate.
Defined.

(* ================================================================= *)
(** ** The microgames *)

Module GameFacts.

Import RoundFacts.

Ltac proj :=
  cbn [sceneKey duration hasPhysicsWorld gameState timeRemaining hasWon
       hasFailed gameEnded gameReady scheduled effects
       andb orb negb fst snd] in *.

Ltac fields m :=
  destruct m as [mk md ph mgs t hw hf ge gr sc ef]; proj.

(** The firing of the timer that ends a round fixes its outcome. *)
Lemma ending_tick m :
  gameEnded m = false -> gameEnded (timerCallback m) = true ->
  scheduled (timerCallback m) = Some (won m) /\
  gameState (timerCallback m) = applyOutcome (won m) (gameState m).
Proof.
  unfold timerCallback, endGame, won. flags m. intros -> H.
  destruct (t - 50 <=? 0); cbn in *; [auto|discriminate].
Qed.

(** A running round still holds the session state it was started on. *)
Lemma running_state k d ph gs tr :
  gameEnded (run (start (BaseMicrogame.init k d ph gs)) tr) = false ->
  gameState (run (start (BaseMicrogame.init k d ph gs)) tr) = gs.
Proof.
  intros He.
  pose proof (settled_run gs tr _ (settled_start k d ph gs)) as H.
  unfold settled in H. rewrite He in H. tauto.
Qed.

(** *** ClickGame *)

Lemma click_play m pre :
  ClickGame.play m pre = run m (map ClickGame.asEvent pre).
Proof.
  revert m. induction pre as [|i pre IH]; intros m; [reflexivity|].
  cbn [ClickGame.play fold_left map]. rewrite run_cons.
  fold (ClickGame.play (ClickGame.handle m i) pre). rewrite IH.
  f_equal. destruct i as [|[|]]; reflexivity.
Qed.

Lemma click_events pre :
  (In DeclareWin (map ClickGame.asEvent pre) <-> In (ClickGame.PointerDown true) pre) /\
  (In DeclareFail (map ClickGame.asEvent pre) <-> In (ClickGame.PointerDown false) pre).
Proof.
  rewrite !in_map_iff. split; split.
  - intros ([|[|]] & E & H); try discriminate E. exact H.
  - intros H. eexists. split; [|exact H]. reflexivity.
  - intros ([|[|]] & E & H); try discriminate E. exact H.
  - intros H. eexists. split; [|exact H]. reflexivity.
Qed.

(** *** DodgeGame *)

Lemma snoc_split {A} (a b pre : list A) (x z : A) :
  a ++ x :: b = pre ++ [z] ->
  (b = [] /\ a = pre /\ x = z) \/
  (exists b', b = b' ++ [z] /\ pre = a ++ x :: b').
Proof.
  destruct b as [|c b' _] using rev_ind; intros E.
  - left. apply app_inj_tail in E. tauto.
  - right. exists b'.
    change (a ++ x :: b' ++ [c]) with (a ++ (x :: b') ++ [c]) in E.
    rewrite app_assoc in E. apply app_inj_tail in E. destruct E as [<- ->]. auto.
Qed.

Lemma dodge_firings_app l l' :
  DodgeGame.firings (l ++ l') = (DodgeGame.firings l + DodgeGame.firings l')%nat.
Proof. unfold DodgeGame.firings. now rewrite filter_app, length_app. Qed.

Lemma dodge_ended_stays m i :
  gameEnded m = true -> gameEnded (DodgeGame.handle m i) = true.
Proof.
  intros He. destruct i; cbn [DodgeGame.handle].
  - apply (gameEnded_step m Tick He).
  - unfold Round.updateRuns. rewrite He. exact He.
  - unfold DodgeGame.handleHit. destruct (negb (hasFailed m)); [|exact He].
    now rewrite setFailState_ended.
Qed.

(** The state of a DodgeGame round that is still running. *)
Lemma dodge_running phys gs pre :
  let m := DodgeGame.play (DodgeGame.newRound phys gs) pre in
  gameEnded m = false ->
  timeRemaining m = 4000 - 50 * Z.of_nat (DodgeGame.firings pre) /\
  gameReady m = true /\ gameState m = gs /\
  (hasFailed m = true <-> In DodgeGame.Overlap pre) /\
  (hasWon m = true <->
   exists a b, pre = a ++ DodgeGame.Frame :: b /\
               (78 <= DodgeGame.firings a)%nat /\ ~ In DodgeGame.Overlap a).
Proof.
  induction pre as [|i pre IH] using rev_ind; cbn zeta.
  - intros _. cbn. repeat split; try discriminate; try tauto.
    intros (a & b & E & _). destruct a; discriminate E.
  - unfold DodgeGame.play. rewrite fold_left_app. cbn [fold_left].
    fold (DodgeGame.play (DodgeGame.newRound phys gs) pre).
    cbn zeta in IH.
    set (m := DodgeGame.play (DodgeGame.newRound phys gs) pre) in *.
    intros He'.
    assert (He : gameEnded m = false).
    { destruct (gameEnded m) eqn:E; [|reflexivity].
      now rewrite (dodge_ended_stays m i E) in He'. }
    destruct (IH He) as (Ht & Hr & Hg & Hf & Hw). clear IH.
    rewrite dodge_firings_app, in_app_iff.
    assert (Hsplit : forall P : list DodgeGame.Input -> Prop,
      (exists a b, pre ++ [i] = a ++ DodgeGame.Frame :: b /\ P a) <->
      (exists a b, pre = a ++ DodgeGame.Frame :: b /\ P a) \/
      (i = DodgeGame.Frame /\ P pre)).
    { intros P. split.
      - intros (a & b & E & HP). symmetry in E.
        destruct (snoc_split _ _ _ _ _ E) as [(-> & -> & <-) | (b' & -> & ->)].
        + right. auto.
        + left. eauto.
      - intros [(a & b & -> & HP) | (-> & HP)].
        + exists a, (b ++ [i]). rewrite <- app_assoc. auto.
        + exists pre, []. auto. }
    assert (Hw' : hasWon m = true <->
              exists a b, pre = a ++ DodgeGame.Frame :: b /\
                ((78 <= DodgeGame.firings a)%nat /\ ~ In DodgeGame.Overlap a)).
    { rewrite Hw. split; intros (a & b & E & H); exists a, b; tauto. }
    assert (Hgoal : forall m',
      timeRemaining m' = 4000 - 50 * Z.of_nat (DodgeGame.firings pre
                                               + DodgeGame.firings [i]) /\
      gameReady m' = true /\ gameState m' = gs /\
      (hasFailed m' = true <-> In DodgeGame.Overlap pre \/ In DodgeGame.Overlap [i]) /\
      (hasWon m' = true <->
       (exists a b, pre = a ++ DodgeGame.Frame :: b /\
                    ((78 <= DodgeGame.firings a)%nat /\ ~ In DodgeGame.Overlap a)) \/
       (i = DodgeGame.Frame /\
        ((78 <= DodgeGame.firings pre)%nat /\ ~ In DodgeGame.Overlap pre))) ->
      timeRemaining m' = 4000 - 50 * Z.of_nat (DodgeGame.firings pre
                                               + DodgeGame.firings [i]) /\
      gameReady m' = true /\ gameState m' = gs /\
      (hasFailed m' = true <-> In DodgeGame.Overlap pre \/ In DodgeGame.Overlap [i]) /\
      (hasWon m' = true <->
       exists a b, pre ++ [i] = a ++ DodgeGame.Frame :: b /\
                   (78 <= DodgeGame.firings a)%nat /\ ~ In DodgeGame.Overlap a)).
    { intros m' (H1 & H2 & H3 & H4 & H5). repeat split; try tauto.
      - intros H. apply H5 in H.
        apply (Hsplit (fun a => (78 <= DodgeGame.firings a)%nat
                                /\ ~ In DodgeGame.Overlap a)) in H.
        destruct H as (a & b & E & HP). exists a, b. tauto.
      - intros (a & b & E & HP). apply H5.
        apply (Hsplit (fun a => (78 <= DodgeGame.firings a)%nat
                                /\ ~ In DodgeGame.Overlap a)).
        exists a, b. tauto. }
    apply Hgoal. clear Hgoal Hsplit. rewrite <- Hw'. clear Hw Hw'.
    rewrite <- Hf. clear Hf.
    revert He' Ht Hr Hg He. generalize (DodgeGame.firings pre) as n.
    generalize m as m0. clear m. intros m0 n.
    destruct i; cbn [DodgeGame.handle DodgeGame.firings filter DodgeGame.isTimer
                       List.length In].
    + (* the timer fires *)
      unfold timerCallback, endGame. fields m0. intros He' Ht -> -> ->. proj.
      destruct (Z.leb_spec (t - 50) 0) as [Hle|Hgt]; proj; [discriminate|].
      repeat split; intros; intuition (try discriminate; try congruence; try lia).
    + (* a frame *)
      unfold Round.updateRuns, DodgeGame.onGameUpdate, setWinState, emit.
      fields m0. intros He' Ht -> -> ->. proj.
      rewrite Nat.add_0_r.
      destruct hf; proj;
        [|destruct (Z.leb_spec t 100) as [Hle|Hgt]; proj; [destruct hw; proj|]];
        repeat split; intros; intuition (try discriminate; try congruence; try lia).
    + (* a projectile hits *)
      unfold DodgeGame.handleHit, setFailState, emit.
      fields m0. intros He' Ht -> -> ->. proj.
      rewrite Nat.add_0_r.
      destruct hf; proj;
        repeat split; intros; intuition (try discriminate; try congruence; try lia).
Qed.

(** *** FlappyFeatherGame *)

Lemma flappy_fail gs m :
  FlappyFeatherGame.neverWon gs m -> gameEnded m = false -> hasFailed m = false ->
  FlappyFeatherGame.neverWon gs (FlappyFeatherGame.fail m) /\
  timeRemaining (FlappyFeatherGame.fail m) = timeRemaining m.
Proof.
  unfold FlappyFeatherGame.neverWon, FlappyFeatherGame.fail, setFailState, emit, count.
  fields m. intros (-> & -> & Hc & He) -> ->. proj.
  rewrite !count_app, Hc. cbn. tauto.
Qed.

Lemma flappy_update gs delta f m :
  FlappyFeatherGame.neverWon gs m -> gameEnded m = false ->
  FlappyFeatherGame.neverWon gs (snd (FlappyFeatherGame.onGameUpdate delta (f, m))).
Proof.
  intros Hn He. unfold FlappyFeatherGame.onGameUpdate.
  destruct (hasFailed m) eqn:Hf; cbn [negb]; [exact Hn|].
  assert (Ht : (timeRemaining m <=? 0) = false).
  { apply Z.leb_gt. destruct Hn as (_ & _ & _ & H). rewrite He in H. tauto. }
  destruct (flappy_fail gs m Hn He Hf) as [Hfail Etime].
  set (y0 := (FlappyFeatherGame.y f + _)%float).
  destruct (ltb FlappyFeatherGame.featherMaxY y0).
  - change (ltb FlappyFeatherGame.featherMaxY 0) with false.
    cbv beta iota zeta. rewrite Etime, Ht. exact Hfail.
  - destruct (ltb y0 0); cbv beta iota zeta.
    + rewrite Etime, Ht. exact Hfail.
    + rewrite Ht. exact Hn.
Qed.

Lemma flappy_handle gs fm i :
  FlappyFeatherGame.neverWon gs (snd fm) ->
  FlappyFeatherGame.neverWon gs (snd (FlappyFeatherGame.handle fm i)).
Proof.
  destruct fm as [f m]. intros Hn.
  destruct i as [|delta|]; cbn [FlappyFeatherGame.handle fst snd] in *.
  - (* the timer fires *)
    revert Hn. unfold FlappyFeatherGame.neverWon, timerCallback, endGame, won, count.
    fields m. intros (-> & -> & Hc & He). destruct ge; proj.
    + destruct (t - 50 <=? 0); proj; auto.
    + destruct He as (Ht & -> & ->).
      destruct (Z.leb_spec (t - 50) 0) as [Hle|Hgt]; proj.
      * rewrite !count_app, Hc. destruct ph; cbn; rewrite ?Nat.add_0_r; auto.
      * repeat split; auto; lia.
  - (* a frame *)
    unfold Round.update, Round.updateRuns. cbn [snd].
    destruct (negb (gameEnded m) && gameReady m)%bool eqn:Eu; [|exact Hn].
    apply andb_prop in Eu. destruct Eu as [Ee _]. apply negb_true_iff in Ee.
    now apply flappy_update.
  - exact Hn.
Qed.

Lemma flappy_play gs inputs : forall fm,
  FlappyFeatherGame.neverWon gs (snd fm) ->
  FlappyFeatherGame.neverWon gs (snd (FlappyFeatherGame.play fm inputs)).
Proof.
  induction inputs as [|i inputs IH]; intros fm H; [exact H|].
  cbn [FlappyFeatherGame.play fold_left]. apply IH, flappy_handle, H.
Qed.

End GameFacts.

(** X15: a ClickGame round that has not ended stands as won iff some click
    has hit the target and no click has missed it: a miss before or after
    the hit loses the round.  The timer firing that ends the round counts it
    so, leaving [lives] alone for a win and taking one for a loss. *)
Theorem click_game_outcome (phys : bool) (gs : GameState)
    (pre : list ClickGame.Input) :
  let m := ClickGame.play (ClickGame.newRound phys gs) pre in
  gameEnded m = false ->
  (won m = true <-> In (ClickGame.PointerDown true) pre /\
                    ~ In (ClickGame.PointerDown false) pre) /\
  (gameEnded (ClickGame.handle m ClickGame.TimerFires) = true ->
   scheduled (ClickGame.handle m ClickGame.TimerFires) = Some (won m) /\
   lives (gameState (ClickGame.handle m ClickGame.TimerFires))
   = (if won m then lives gs else lives gs - 1)).
Proof.
  intros m He. subst m. unfold ClickGame.newRound in *.
  rewrite GameFacts.click_play in *.
  destruct (GameFacts.click_events pre) as [Hw Hf].
  destruct (RoundMore.running_flags _ _ _ _ _ He) as (_ & _ & Hwon).
  split; [rewrite Hwon, Hw, Hf; reflexivity|].
  intros Hend. cbn [ClickGame.handle] in *.
  destruct (GameFacts.ending_tick _ He Hend) as [Hs Hg].
  split; [exact Hs|]. rewrite Hg, (GameFacts.running_state _ _ _ _ _ He).
  destruct (won _); reflexivity.
Qed.

Lemma click_game_outcome_witness :
  let pre := [ClickGame.PointerDown true; ClickGame.TimerFires;
              ClickGame.PointerDown false] in
  let m := ClickGame.play (ClickGame.newRound true INITIAL_GAME_STATE) pre in
  won m = true <-> In (ClickGame.PointerDown true) pre /\
                   ~ In (ClickGame.PointerDown false) pre.
Proof.
  intros pre m.
  apply (click_game_outcome true INITIAL_GAME_STATE pre). reflexivity.
Defined.

(** X16: a DodgeGame round that has not ended stands as won iff no
    projectile has hit the player and a frame has been drawn after the timer
    had fired at least 78 times, that is with 100 ms or less on the clock.
    A hit loses the round even after the win was declared, and a round whose
    last 100 ms see no frame is lost as well.  The timer firing that ends
    the round counts it so. *)
Theorem dodge_game_outcome (phys : bool) (gs : GameState)
    (pre : list DodgeGame.Input) :
  let m := DodgeGame.play (DodgeGame.newRound phys gs) pre in
  gameEnded m = false ->
  (won m = true <->
   ~ In DodgeGame.Overlap pre /\
   exists a b, pre = a ++ DodgeGame.Frame :: b /\ (78 <= DodgeGame.firings a)%nat) /\
  (gameEnded (DodgeGame.handle m DodgeGame.TimerFires) = true ->
   scheduled (DodgeGame.handle m DodgeGame.TimerFires) = Some (won m) /\
   lives (gameState (DodgeGame.handle m DodgeGame.TimerFires))
   = (if won m then lives gs else lives gs - 1)).
Proof.
  intros m He.
  destruct (GameFacts.dodge_running phys gs pre He) as (_ & _ & Hg & Hf & Hw).
  fold m in Hg, Hf, Hw. split.
  - unfold won. rewrite andb_true_iff, negb_true_iff, Hw. split.
    + intros [(a & b & E & Hn & _) Hnf]. split; [|eauto].
      intros Hin. apply Hf in Hin. congruence.
    + intros [Hno (a & b & E & Hn)]. split.
      * exists a, b. repeat split; try assumption.
        intros Hin. apply Hno. rewrite E. apply in_or_app. now left.
      * destruct (hasFailed m) eqn:E'; [|reflexivity].
        exfalso. apply Hno, Hf. reflexivity.
  - intros Hend. cbn [DodgeGame.handle] in *.
    destruct (GameFacts.ending_tick _ He Hend) as [Hs Hst].
    split; [exact Hs|]. rewrite Hst, Hg. destruct (won m); reflexivity.
Qed.

Lemma dodge_game_outcome_witness :
  let pre := repeat DodgeGame.TimerFires 78 ++ [DodgeGame.Frame; DodgeGame.Overlap] in
  let m := DodgeGame.play (DodgeGame.newRound true INITIAL_GAME_STATE) pre in
  won m = true <->
  ~ In DodgeGame.Overlap pre /\
  exists a b, pre = a ++ DodgeGame.Frame :: b /\ (78 <= DodgeGame.firings a)%nat.
Proof.
  intros pre m.
  apply (dodge_game_outcome true INITIAL_GAME_STATE pre). reflexivity.
Defined.

(** X17: a FlappyFeatherGame round is never won.  Its win is declared only
    in [onGameUpdate] under the test [timeRemaining <= 0], which no frame of
    a running round passes; so whatever the player does, [hasWon] stays
    false, the round that has ended was counted as lost and took a life, and
    the failure feedback was shown twice for a fail (once by the game, once
    by [setFailState]). *)
Theorem flappy_feather_never_won (phys : bool) (gs : GameState)
    (inputs : list FlappyFeatherGame.Input) :
  let m := snd (FlappyFeatherGame.play (FlappyFeatherGame.newRound phys gs) inputs) in
  hasWon m = false /\
  scheduled m <> Some true /\
  count ShowFailureFeedback m = (if hasFailed m then 2 else 0)%nat /\
  (gameEnded m = true ->
   scheduled m = Some false /\
   lives (gameState m) = lives gs - 1 /\
   score (gameState m) = score gs /\
   gamesCompleted (gameState m) = gamesCompleted gs).
Proof.
  intros m.
  assert (H : FlappyFeatherGame.neverWon gs m).
  { apply GameFacts.flappy_play. unfold FlappyFeatherGame.neverWon. cbn.
    repeat split; lia. }
  destruct H as (Hw & _ & Hc & He).
  split; [exact Hw|]. split.
  - destruct (gameEnded m); [destruct He as [-> _] | destruct He as (_ & -> & _)];
      discriminate.
  - split; [exact Hc|]. intros E. rewrite E in He. destruct He as [Hs Hg].
    rewrite Hg. cbn. auto.
Qed.

(* ================================================================= *)
(** ** TypeGame *)

Module TypeFacts.

Import JSString TypeGame RoundFacts.

Lemma length_append a b :
  String.length (a ++ b)%string = (String.length a + String.length b)%nat.
Proof. induction a as [|c a IH]; cbn; [reflexivity | now rewrite IH]. Qed.

Lemma append_assoc a b c : ((a ++ b) ++ c)%string = (a ++ (b ++ c))%string.
Proof. induction a as [|x a IH]; cbn; [reflexivity | now rewrite IH]. Qed.

Lemma append_nil_r a : (a ++ "")%string = a.
Proof. induction a as [|x a IH]; cbn; [reflexivity | now rewrite IH]. Qed.

Lemma append_eq_self a b : (a ++ b)%string = a -> b = "".
Proof.
  intros E. apply (f_equal String.length) in E. rewrite length_append in E.
  destruct b; [reflexivity | cbn in E; lia].
Qed.

Lemma length_toUpperCase s : String.length (toUpperCase s) = String.length s.
Proof. induction s as [|c s IH]; cbn; [reflexivity | now rewrite IH]. Qed.

Lemma dropLast_snoc a c : dropLast (a ++ String c "")%string = a.
Proof.
  induction a as [|x a IH]; [reflexivity|].
  cbn [append dropLast]. rewrite IH.
  destruct (a ++ String c "")%string eqn:E; [|reflexivity].
  destruct a; discriminate E.
Qed.

Lemma length_dropLast s : String.length (dropLast s) = (String.length s - 1)%nat.
Proof.
  induction s as [|c s IH]; [reflexivity|].
  destruct s as [|c' s']; [reflexivity|].
  change (dropLast (String c (String c' s'))) with (String c (dropLast (String c' s'))).
  cbn [String.length] in *. rewrite IH. lia.
Qed.

Lemma allCapital_append a b :
  allCapital (a ++ b)%string = (allCapital a && allCapital b)%bool.
Proof.
  induction a as [|c a IH]; cbn; [reflexivity|]. rewrite IH. apply andb_assoc.
Qed.

Lemma allCapital_dropLast s : allCapital s = true -> allCapital (dropLast s) = true.
Proof.
  induction s as [|c s IH]; [auto|].
  destruct s as [|c' s']; [auto|].
  change (dropLast (String c (String c' s'))) with (String c (dropLast (String c' s'))).
  cbn [allCapital] in *. rewrite !andb_true_iff. intros [H1 H2].
  split; [exact H1|]. apply IH. now apply andb_true_iff.
Qed.

Lemma letter_key key :
  isLetterKey key = true -> exists c, key = String c "" /\ isCapital c = true.
Proof.
  destruct key as [|c [|c' r]]; cbn; try discriminate. intros H. eauto.
Qed.

(** A key of one character is not the Backspace key. *)
Lemma one_char_not_backspace k :
  String.length k = 1%nat -> String.eqb k "Backspace" = false.
Proof.
  intros H. apply String.eqb_neq. intros ->. discriminate H.
Qed.

Lemma play_cons wm i inputs : play wm (i :: inputs) = play (handle wm i) inputs.
Proof. reflexivity. Qed.

Lemma ended_stays wm i :
  gameEnded (snd wm) = true -> gameEnded (snd (handle wm i)) = true.
Proof.
  destruct wm as [w m]. cbn [snd]. intros He. destruct i; cbn [handle fst snd].
  - apply (gameEnded_step m Tick He).
  - unfold keyboardListener. rewrite He. exact He.
Qed.

Lemma running_before inputs : forall wm,
  gameEnded (snd (play wm inputs)) = false -> gameEnded (snd wm) = false.
Proof.
  induction inputs as [|i inputs IH]; intros wm H; [exact H|].
  cbn [play fold_left] in H. apply IH in H.
  destruct (gameEnded (snd wm)) eqn:E; [|reflexivity].
  now rewrite (ended_stays wm i E) in H.
Qed.

(** What the listener does with a letter while the round runs. *)
Lemma listener_letter k c w m :
  gameEnded m = false -> toUpperCase k = String c "" -> isCapital c = true ->
  keyboardListener k (w, m)
  = let typed := (typedWord w ++ String c "")%string in
    if String.eqb typed (targetWord w) then
      ({| targetWord := targetWord w; typedWord := typed |}, setWinState m)
    else if Nat.leb (String.length (targetWord w)) (String.length typed) then
      ({| targetWord := targetWord w; typedWord := "" |}, m)
    else ({| targetWord := targetWord w; typedWord := typed |}, m).
Proof.
  intros He Ek Hc. unfold keyboardListener. rewrite He, Ek.
  cbn [isLetterKey]. rewrite Hc.
  assert (Hb : String.eqb k "Backspace" = false).
  { apply one_char_not_backspace. rewrite <- length_toUpperCase, Ek. reflexivity. }
  cbv zeta.
  destruct (String.eqb _ (targetWord w)); [now rewrite Hb|].
  destruct (Nat.leb _ _); now rewrite Hb.
Qed.

(** What the listener does with Backspace while the round runs. *)
Lemma listener_backspace w m :
  gameEnded m = false ->
  keyboardListener "Backspace" (w, m)
  = if Nat.ltb 0 (String.length (typedWord w)) then
      ({| targetWord := targetWord w; typedWord := dropLast (typedWord w) |}, m)
    else (w, m).
Proof.
  intros He. unfold keyboardListener. rewrite He.
  replace (isLetterKey (toUpperCase "Backspace")) with false by reflexivity.
  replace (String.eqb "Backspace" "Backspace") with true by reflexivity.
  cbv beta iota zeta. cbn [andb]. reflexivity.
Qed.

Lemma wellTyped_listener k w m :
  wellTyped w ->
  targetWord (fst (keyboardListener k (w, m))) = targetWord w /\
  wellTyped (fst (keyboardListener k (w, m))).
Proof.
  intros [Hc Hl]. unfold keyboardListener.
  destruct (gameEnded m); [split; [reflexivity | split; assumption]|].
  cbv zeta. set (key := toUpperCase k).
  assert (H1 : exists w1 m1,
    (if isLetterKey key then
       if String.eqb (typedWord w ++ key) (targetWord w) then
         ({| targetWord := targetWord w; typedWord := (typedWord w ++ key)%string |},
          setWinState m)
       else if Nat.leb (String.length (targetWord w))
                       (String.length (typedWord w ++ key)) then
         ({| targetWord := targetWord w; typedWord := "" |}, m)
       else ({| targetWord := targetWord w; typedWord := (typedWord w ++ key)%string |}, m)
     else (w, m)) = (w1, m1) /\ targetWord w1 = targetWord w /\ wellTyped w1).
  { destruct (isLetterKey key) eqn:Ek.
    - destruct (letter_key key Ek) as [c [Ekey Hcap]]. rewrite Ekey.
      destruct (String.eqb _ (targetWord w)) eqn:Eq.
      + apply String.eqb_eq in Eq. do 2 eexists. split; [reflexivity|].
        split; [reflexivity|]. split; cbn [typedWord targetWord].
        * rewrite allCapital_append, Hc. cbn. now rewrite Hcap.
        * left. exact Eq.
      + destruct (Nat.leb _ _) eqn:El.
        * do 2 eexists. split; [reflexivity|]. split; [reflexivity|].
          split; cbn [typedWord targetWord]; [reflexivity|].
          destruct (targetWord w); [left; reflexivity | right; cbn; lia].
        * apply Nat.leb_gt in El.
          do 2 eexists. split; [reflexivity|]. split; [reflexivity|].
          split; cbn [typedWord targetWord].
          -- rewrite allCapital_append, Hc. cbn. now rewrite Hcap.
          -- right. exact El.
    - do 2 eexists. split; [reflexivity|]. split; [reflexivity|]. split; assumption. }
  destruct H1 as [w1 [m1 [-> [Ht [Hc1 Hl1]]]]].
  destruct (String.eqb k "Backspace" && Nat.ltb 0 (String.length (typedWord w1)))%bool
    eqn:Eb; cbn [fst]; [|split; [exact Ht | split; assumption]].
  apply andb_true_iff in Eb. destruct Eb as [_ Eb]. apply Nat.ltb_lt in Eb.
  split; [exact Ht|]. split; cbn [typedWord targetWord].
  - now apply allCapital_dropLast.
  - right. rewrite length_dropLast. destruct Hl1 as [E|L]; [rewrite <- E|]; lia.
Qed.

Lemma wellTyped_play inputs : forall w m,
  wellTyped w ->
  targetWord (fst (play (w, m) inputs)) = targetWord w /\
  wellTyped (fst (play (w, m) inputs)).
Proof.
  induction inputs as [|i inputs IH]; intros w m Hw; [split; [reflexivity | exact Hw]|].
  rewrite play_cons. destruct i; cbn [handle fst snd].
  - apply (IH w (timerCallback m) Hw).
  - destruct (wellTyped_listener eventKey w m Hw) as [Ht Hw'].
    destruct (keyboardListener eventKey (w, m)) as [w1 m1]. cbn [fst] in *.
    destruct (IH w1 m1 Hw') as [Ht' Hw'']. split; [congruence | exact Hw''].
Qed.

Lemma singles_cons rest k ks :
  toUpperCase k :: ks = singles rest ->
  exists c rest', rest = String c rest' /\ toUpperCase k = String c "" /\ ks = singles rest'.
Proof.
  destruct rest as [|c rest']; cbn; [discriminate|].
  intros E. injection E as E1 E2. eauto.
Qed.

(** Typing what is left of the target, in a round that is still running. *)
Lemma typing_rest inputs : forall w m rest,
  targetWord w = (typedWord w ++ rest)%string ->
  allCapital rest = true ->
  map toUpperCase (keysOf inputs) = singles rest ->
  (rest = "" -> hasWon m = true) ->
  gameEnded (snd (play (w, m) inputs)) = false ->
  hasWon (snd (play (w, m) inputs)) = true /\
  typedWord (fst (play (w, m) inputs)) = targetWord w /\
  targetWord (fst (play (w, m) inputs)) = targetWord w.
Proof.
  induction inputs as [|i inputs IH]; intros w m rest Ht Hc Hk Hw Hrun.
  - cbn in Hk. destruct rest; [|discriminate Hk]. cbn [play fold_left fst snd].
    rewrite append_nil_r in Ht. auto.
  - rewrite play_cons in *. destruct i; cbn [handle fst snd keysOf] in *.
    + apply (IH w (timerCallback m) rest Ht Hc Hk); [|exact Hrun].
      intros E. apply (hasWon_step m Tick). auto.
    + cbn [map] in Hk. destruct (singles_cons _ _ _ Hk) as [c [rest' [-> [Ek Hk']]]].
      cbn [allCapital] in Hc. apply andb_true_iff in Hc. destruct Hc as [Hcap Hc].
      assert (He : gameEnded m = false).
      { exact (running_before (KeyDown eventKey :: inputs) (w, m) Hrun). }
      rewrite (listener_letter _ c w m He Ek Hcap) in *. cbv zeta in *.
      assert (Ht' : targetWord w = ((typedWord w ++ String c "") ++ rest')%string).
      { rewrite append_assoc. exact Ht. }
      destruct (String.eqb _ (targetWord w)) eqn:Eq.
      * apply String.eqb_eq in Eq.
        assert (rest' = "") by (apply (append_eq_self (typedWord w ++ String c "")); congruence).
        subst rest'.
        apply (IH {| targetWord := targetWord w;
                     typedWord := (typedWord w ++ String c "")%string |}
                  (setWinState m) "" Ht' Hc Hk'); [|exact Hrun].
        intros _. unfold setWinState. rewrite He. cbn.
        destruct (hasWon m) eqn:E; cbn; [exact E | reflexivity].
      * assert (Hne : rest' <> "").
        { intros ->. rewrite append_nil_r in Ht'. apply String.eqb_neq in Eq. congruence. }
        assert (El : Nat.leb (String.length (targetWord w))
                       (String.length (typedWord w ++ String c "")) = false).
        { apply Nat.leb_gt. rewrite Ht'. rewrite (length_append _ rest').
          destruct rest'; [congruence | cbn; lia]. }
        rewrite El in *.
        apply (IH {| targetWord := targetWord w;
                     typedWord := (typedWord w ++ String c "")%string |}
                  m rest' Ht' Hc Hk'); [|exact Hrun].
        intros E. congruence.
Qed.

(** Keys alone leave the countdown where it is. *)
Lemma keys_keep_running ks : forall w m,
  gameEnded m = false ->
  gameEnded (snd (play (w, m) (map KeyDown ks))) = false.
Proof.
  induction ks as [|k ks IH]; intros w m He; [exact He|].
  cbn [map]. rewrite play_cons. cbn [handle].
  destruct (keyboardListener k (w, m)) as [w1 m1] eqn:E.
  apply IH. unfold keyboardListener in E. rewrite He in E.
  assert (Hs : gameEnded (setWinState m) = false).
  { unfold setWinState. destruct (negb (gameEnded m) && negb (hasWon m))%bool; cbn; exact He. }
  destruct (isLetterKey (toUpperCase k)); cbv zeta in E.
  - destruct (String.eqb _ (targetWord w));
      [|destruct (Nat.leb _ _)];
      cbn [typedWord targetWord] in E;
      destruct (String.eqb k "Backspace" && _)%bool; injection E as _ <-; assumption.
  - destruct (String.eqb k "Backspace" && _)%bool; injection E as _ <-; assumption.
Qed.

Lemma keysOf_keys ks : keysOf (map KeyDown ks) = ks.
Proof. induction ks as [|k ks IH]; cbn; [reflexivity | now rewrite IH]. Qed.

(** Typing less than what is left of the target declares nothing. *)
Lemma typing_short ks : forall w m typed rest more,
  targetWord w = (typed ++ rest ++ more)%string ->
  (String.length (typedWord w) = String.length typed)%nat ->
  more <> "" ->
  allCapital rest = true ->
  map toUpperCase ks = singles rest ->
  gameEnded m = false ->
  snd (play (w, m) (map KeyDown ks)) = m /\
  (String.length (typedWord (fst (play (w, m) (map KeyDown ks))))
   = String.length typed + String.length rest)%nat /\
  targetWord (fst (play (w, m) (map KeyDown ks))) = targetWord w.
Proof.
  induction ks as [|k ks IH]; intros w m typed rest more Ht Hl Hm Hc Hk He.
  - cbn in Hk. destruct rest; [|discriminate Hk]. cbn. repeat split; lia.
  - cbn [map] in Hk. destruct (singles_cons _ _ _ Hk) as [c [rest' [-> [Ek Hk']]]].
    cbn [allCapital] in Hc. apply andb_true_iff in Hc. destruct Hc as [Hcap Hc].
    cbn [map]. rewrite play_cons. cbn [handle].
    rewrite (listener_letter _ c w m He Ek Hcap). cbv zeta.
    assert (Hlen : (String.length (typedWord w ++ String c "")
                    < String.length (targetWord w))%nat).
    { rewrite Ht. rewrite ?length_append. cbn [String.length append].
      rewrite ?length_append. destruct more; [congruence | cbn; lia]. }
    assert (Eq : String.eqb (typedWord w ++ String c "") (targetWord w) = false).
    { apply String.eqb_neq. intros E. rewrite E in Hlen. lia. }
    rewrite Eq. apply Nat.leb_gt in Hlen. rewrite Hlen.
    destruct (IH {| targetWord := targetWord w;
                    typedWord := (typedWord w ++ String c "")%string |}
                 m (typed ++ String c "")%string rest' more) as [H1 [H2 H3]];
      try assumption.
    + cbn [targetWord]. rewrite Ht, append_assoc. reflexivity.
    + cbn [typedWord]. rewrite !length_append. lia.
    + split; [exact H1|]. split; [|exact H3].
      rewrite H2, length_append. cbn. lia.
Qed.

Lemma words_capital t : In t words -> t <> "" /\ allCapital t = true.
Proof.
  unfold words. cbn [In]. intros H.
  repeat (destruct H as [<-|H]; [split; [discriminate | reflexivity]|]).
  destruct H.
Qed.

Lemma setupGame_some (u : Q) (carried : Words) :
  (0 <= u)%Q -> (u < 1)%Q ->
  exists w, setupGame u carried = Some w /\ In (targetWord w) words /\
            typedWord w = typedWord carried.
Proof.
  intros H0 H1. unfold setupGame.
  destruct (SelectorMore.GetRandom_some u words) as [t [E Hin]];
    [discriminate | assumption | assumption |].
  rewrite E. eexists. split; [reflexivity|]. split; [exact Hin | reflexivity].
Qed.

Lemma words_first_letter_once t : In t words -> firstLetterOnce t = true.
Proof.
  unfold words. cbn [In]. intros H.
  repeat (destruct H as [<-|H]; [reflexivity|]). destruct H.
Qed.

Lemma occurs_mid c a b : occurs c (a ++ String c b)%string = true.
Proof.
  induction a as [|x a IH]; cbn [append occurs].
  - now rewrite Ascii.eqb_refl.
  - rewrite IH. apply orb_true_r.
Qed.

(** A prefix of a word that ends where the word goes on starts with the
    word's first letter. *)
Lemma prefix_head p c rest c0 tl :
  (p ++ String c rest)%string = String c0 tl ->
  exists q, (p ++ String c "")%string = String c0 q.
Proof.
  destruct p as [|x p]; cbn [append]; intros E; injection E as -> _; eauto.
Qed.

(** Typing the target on top of what an earlier round left behind. *)
Lemma spoiled ks : forall w m rest carried c0 tl,
  targetWord w = String c0 tl -> occurs c0 tl = false -> carried <> "" ->
  allCapital rest = true ->
  map toUpperCase ks = singles rest ->
  gameEnded m = false -> hasWon m = false ->
  (exists p, typedWord w = (carried ++ p)%string /\
             targetWord w = (p ++ rest)%string) \/
  (String.length (typedWord w) + String.length rest
   < String.length (targetWord w))%nat ->
  hasWon (snd (play (w, m) (map KeyDown ks))) = false /\
  typedWord (fst (play (w, m) (map KeyDown ks))) <> targetWord w.
Proof.
  induction ks as [|k ks IH]; intros w m rest carried c0 tl Ht Ho Hcar Hc Hk He Hw Hinv.
  - cbn in Hk. destruct rest; [|discriminate Hk]. cbn [map play fold_left fst snd].
    split; [exact Hw|]. intros E. destruct Hinv as [[p [H1 H2]]|H].
    + rewrite append_nil_r in H2. subst p. rewrite E in H1.
      apply (f_equal String.length) in H1. rewrite length_append in H1.
      destruct carried; [congruence | cbn in H1; lia].
    + rewrite E in H. cbn in H. lia.
  - cbn [map] in Hk. destruct (singles_cons _ _ _ Hk) as [c [rest' [-> [Ek Hk']]]].
    cbn [allCapital] in Hc. apply andb_true_iff in Hc. destruct Hc as [Hcap Hc].
    cbn [map]. rewrite play_cons. cbn [handle].
    rewrite (listener_letter _ c w m He Ek Hcap). cbv zeta.
    assert (Eq : String.eqb (typedWord w ++ String c "") (targetWord w) = false).
    { apply String.eqb_neq. intros E. destruct Hinv as [[p [H1 H2]]|H].
      - rewrite Ht in H2. symmetry in H2.
        destruct (prefix_head _ _ _ _ _ H2) as [q Hq].
        rewrite H1, append_assoc, Hq, Ht in E.
        destruct carried as [|a car]; [congruence|].
        cbn [append] in E. injection E as _ E.
        rewrite <- E, occurs_mid in Ho. discriminate Ho.
      - apply (f_equal String.length) in E. rewrite length_append in E.
        cbn [String.length] in *. lia. }
    rewrite Eq.
    assert (Hrest : (String.length rest' < String.length (targetWord w))%nat).
    { destruct Hinv as [[p [H1 H2]]|H].
      - rewrite H2, length_append. cbn. lia.
      - cbn [String.length] in H. lia. }
    destruct (Nat.leb _ _) eqn:El.
    + apply (IH {| targetWord := targetWord w; typedWord := "" |} m rest' carried c0 tl);
        try assumption.
      right. cbn. exact Hrest.
    + apply Nat.leb_gt in El.
      apply (IH {| targetWord := targetWord w;
                   typedWord := (typedWord w ++ String c "")%string |}
                m rest' carried c0 tl); try assumption.
      destruct Hinv as [[p [H1 H2]]|H].
      * left. exists (p ++ String c "")%string. cbn [typedWord targetWord].
        rewrite H1, H2, !append_assoc. split; reflexivity.
      * right. cbn [typedWord targetWord String.length] in *.
        rewrite length_append. cbn. lia.
Qed.

(** The round state of a TypeGame round is that of a round in which only the
    timer fired and wins were declared. *)
Lemma type_trace inputs : forall w m,
  exists tr, snd (play (w, m) inputs) = run m tr /\ ~ In DeclareFail tr.
Proof.
  induction inputs as [|i inputs IH]; intros w m.
  - exists []. split; [reflexivity | intros []].
  - rewrite play_cons. destruct i; cbn [handle fst snd].
    + destruct (IH w (timerCallback m)) as [tr [E Hn]].
      exists (Tick :: tr). rewrite run_cons. split; [exact E|].
      intros [H|H]; [discriminate H | exact (Hn H)].
    + assert (H : exists w1, keyboardListener eventKey (w, m) = (w1, m) \/
                             keyboardListener eventKey (w, m) = (w1, setWinState m)).
      { unfold keyboardListener. destruct (gameEnded m); [eauto|]. cbv zeta.
        destruct (isLetterKey _);
          [destruct (String.eqb _ (targetWord w)); [|destruct (Nat.leb _ _)]|];
          cbn [typedWord targetWord];
          destruct (String.eqb eventKey "Backspace" && _)%bool; eauto. }
      destruct H as [w1 [-> | ->]].
      * apply IH.
      * destruct (IH w1 (setWinState m)) as [tr [E Hn]].
        exists (DeclareWin :: tr). rewrite run_cons. split; [exact E|].
        intros [H|H]; [discriminate H | exact (Hn H)].
Qed.

End TypeFacts.

(** X18: in a TypeGame round entered with nothing typed, whatever keys are
    pressed and whenever the timer fires, the target word stays the same and
    the typed word is made of capital letters and is either the target word
    or strictly shorter than it. *)
Theorem typed_word_within_target (w0 : TypeGame.Words) (m0 : Microgame)
    (inputs : list TypeGame.Input) :
  TypeGame.typedWord w0 = "" ->
  let w := fst (TypeGame.play (w0, m0) inputs) in
  TypeGame.targetWord w = TypeGame.targetWord w0 /\
  TypeGame.allCapital (TypeGame.typedWord w) = true /\
  (TypeGame.typedWord w = TypeGame.targetWord w0 \/
   (String.length (TypeGame.typedWord w)
    < String.length (TypeGame.targetWord w0))%nat).
Proof.
  intros H0 w.
  assert (Hw : TypeGame.wellTyped w0).
  { unfold TypeGame.wellTyped. rewrite H0. split; [reflexivity|].
    destruct (TypeGame.targetWord w0); [left; reflexivity | right; cbn; lia]. }
  destruct (TypeFacts.wellTyped_play inputs w0 m0 Hw) as [Ht [Hc Hl]].
  fold w in Ht, Hc, Hl. rewrite Ht in Hl. auto.
Qed.

Lemma typed_word_within_target_witness :
  let w0 := {| TypeGame.targetWord := "WIN"; TypeGame.typedWord := "" |} in
  let m0 := start (BaseMicrogame.init "TypeGame" 3000 false INITIAL_GAME_STATE) in
  let w := fst (TypeGame.play (w0, m0)
                  [TypeGame.KeyDown "w"; TypeGame.KeyDown "x";
                   TypeGame.KeyDown "Backspace"; TypeGame.TimerFires;
                   TypeGame.KeyDown "i"; TypeGame.KeyDown "n"]) in
  TypeGame.targetWord w = "WIN" /\
  TypeGame.allCapital (TypeGame.typedWord w) = true /\
  (TypeGame.typedWord w = "WIN" \/
   (String.length (TypeGame.typedWord w) < String.length "WIN")%nat).
Proof.
  intros w0 m0.
  apply (typed_word_within_target w0 m0
           [TypeGame.KeyDown "w"; TypeGame.KeyDown "x";
            TypeGame.KeyDown "Backspace"; TypeGame.TimerFires;
            TypeGame.KeyDown "i"; TypeGame.KeyDown "n"]).
  reflexivity.
Defined.

(** X19: a TypeGame round is set up for every draw of [Math.random()], with
    a target from the word list.  When the round is entered with nothing
    typed and the keys pressed are exactly the letters of the target, in
    either case and with the timer firing in between, a round that has not
    ended stands as won with the target typed, and the timer firing that
    ends it counts it as won and takes no life. *)
Theorem typing_the_word_wins (u : Q) (phys : bool) (gs : GameState)
    (carried : TypeGame.Words) (inputs : list TypeGame.Input) :
  (0 <= u)%Q -> (u < 1)%Q -> TypeGame.typedWord carried = "" ->
  exists w m,
    TypeGame.newRound u phys gs carried = Some (w, m) /\
    In (TypeGame.targetWord w) TypeGame.words /\
    (map JSString.toUpperCase (TypeGame.keysOf inputs)
       = TypeGame.singles (TypeGame.targetWord w) ->
     let r := TypeGame.play (w, m) inputs in
     gameEnded (snd r) = false ->
     won (snd r) = true /\
     TypeGame.typedWord (fst r) = TypeGame.targetWord w /\
     (gameEnded (timerCallback (snd r)) = true ->
      scheduled (timerCallback (snd r)) = Some true /\
      lives (gameState (timerCallback (snd r))) = lives gs)).
Proof.
  intros Hu0 Hu1 Hc.
  destruct (TypeFacts.setupGame_some u carried Hu0 Hu1) as [w [Es [Hin Hty]]].
  unfold TypeGame.newRound. rewrite Es. do 2 eexists.
  split; [reflexivity|]. split; [exact Hin|].
  intros Hk. cbv zeta. intros He.
  set (m := start (BaseMicrogame.init "TypeGame" TypeGame.getGameDuration phys gs)) in *.
  destruct (TypeFacts.words_capital _ Hin) as [Hne Hcap].
  destruct (TypeFacts.typing_rest inputs w m (TypeGame.targetWord w))
    as [Hwon [Htyped _]]; try assumption.
  { rewrite Hty, Hc. reflexivity. }
  { intros E. congruence. }
  destruct (TypeFacts.type_trace inputs w m) as [tr [Etr Hnf]].
  rewrite Etr in *. subst m.
  destruct (RoundMore.running_flags _ _ _ _ _ He) as (Hw & Hf & Hwn).
  assert (Hwin : won (run (start (BaseMicrogame.init "TypeGame"
                   TypeGame.getGameDuration phys gs)) tr) = true).
  { apply Hwn. split; [apply Hw, Hwon | exact Hnf]. }
  split; [exact Hwin|]. split; [exact Htyped|].
  intros Hend. destruct (GameFacts.ending_tick _ He Hend) as [Hs Hg].
  rewrite Hs, Hg, Hwin, (GameFacts.running_state _ _ _ _ _ He).
  split; reflexivity.
Qed.

Lemma typing_the_word_wins_witness :
  exists w m,
    TypeGame.newRound (7 # 8) true INITIAL_GAME_STATE TypeGame.constructed
      = Some (w, m) /\
    In (TypeGame.targetWord w) TypeGame.words /\
    (map JSString.toUpperCase
       (TypeGame.keysOf [TypeGame.KeyDown "w"; TypeGame.TimerFires;
                         TypeGame.KeyDown "I"; TypeGame.KeyDown "n"])
       = TypeGame.singles (TypeGame.targetWord w) ->
     let r := TypeGame.play (w, m)
                [TypeGame.KeyDown "w"; TypeGame.TimerFires;
                 TypeGame.KeyDown "I"; TypeGame.KeyDown "n"] in
     gameEnded (snd r) = false ->
     won (snd r) = true /\
     TypeGame.typedWord (fst r) = TypeGame.targetWord w /\
     (gameEnded (timerCallback (snd r)) = true ->
      scheduled (timerCallback (snd r)) = Some true /\
      lives (gameState (timerCallback (snd r))) = lives INITIAL_GAME_STATE)).
Proof.
  apply (typing_the_word_wins (7 # 8) true INITIAL_GAME_STATE TypeGame.constructed
           [TypeGame.KeyDown "w"; TypeGame.TimerFires;
            TypeGame.KeyDown "I"; TypeGame.KeyDown "n"]).
  - discriminate.
  - reflexivity.
  - reflexivity.
Defined.

(** X20: while the round runs, Backspace takes back a letter key that left
    the typed word short of the target: the two keys together change
    nothing.  A letter that brings the typed word to the target's length
    without spelling it empties the typed word instead, and Backspace then
    has nothing to take back. *)
Theorem backspace_takes_back_a_letter (k : string) (w : TypeGame.Words)
    (m : Microgame) :
  gameEnded m = false ->
  TypeGame.isLetterKey (JSString.toUpperCase k) = true ->
  ((String.length (TypeGame.typedWord w) + 1
    < String.length (TypeGame.targetWord w))%nat ->
   TypeGame.keyboardListener "Backspace" (TypeGame.keyboardListener k (w, m))
   = (w, m)) /\
  ((String.length (TypeGame.typedWord w) + 1
    = String.length (TypeGame.targetWord w))%nat ->
   (TypeGame.typedWord w ++ JSString.toUpperCase k)%string
     <> TypeGame.targetWord w ->
   TypeGame.keyboardListener "Backspace" (TypeGame.keyboardListener k (w, m))
   = ({| TypeGame.targetWord := TypeGame.targetWord w;
         TypeGame.typedWord := "" |}, m)).
Proof.
  intros He Hk.
  destruct (TypeFacts.letter_key _ Hk) as [c [Ek Hcap]].
  rewrite (TypeFacts.listener_letter k c w m He Ek Hcap). cbv zeta.
  rewrite Ek.
  assert (Hlen : String.length (TypeGame.typedWord w ++ String c "")
                 = (String.length (TypeGame.typedWord w) + 1)%nat).
  { rewrite TypeFacts.length_append. reflexivity. }
  split.
  - intros Hl.
    assert (Eq : String.eqb (TypeGame.typedWord w ++ String c "")
                   (TypeGame.targetWord w) = false).
    { apply String.eqb_neq. intros E. rewrite E in Hlen. lia. }
    rewrite Eq.
    assert (El : Nat.leb (String.length (TypeGame.targetWord w))
                   (String.length (TypeGame.typedWord w ++ String c "")) = false).
    { apply Nat.leb_gt. lia. }
    rewrite El, (TypeFacts.listener_backspace _ m He).
    cbn [TypeGame.typedWord TypeGame.targetWord].
    rewrite Hlen.
    replace (Nat.ltb 0 (String.length (TypeGame.typedWord w) + 1)) with true
      by (symmetry; apply Nat.ltb_lt; lia).
    rewrite TypeFacts.dropLast_snoc. destruct w; reflexivity.
  - intros Hl Hne.
    apply String.eqb_neq in Hne. rewrite Hne.
    assert (El : Nat.leb (String.length (TypeGame.targetWord w))
                   (String.length (TypeGame.typedWord w ++ String c "")) = true).
    { apply Nat.leb_le. lia. }
    rewrite El, (TypeFacts.listener_backspace _ m He). reflexivity.
Qed.

Lemma backspace_takes_back_a_letter_witness :
  let w := {| TypeGame.targetWord := "GAME"; TypeGame.typedWord := "GA" |} in
  let m := start (BaseMicrogame.init "TypeGame" 3000 false INITIAL_GAME_STATE) in
  TypeGame.keyboardListener "Backspace" (TypeGame.keyboardListener "x" (w, m))
  = (w, m).
Proof.
  intros w m.
  apply (backspace_takes_back_a_letter "x" w m); [reflexivity | reflexivity |].
  cbn. lia.
Defined.

(** X21: the typed word is not cleared between rounds: a round is entered
    with what the previous TypeGame round left typed.  When that is not
    empty, pressing exactly the letters of the new target, with no other key
    in between, does not win the round and does not leave the target
    typed. *)
Theorem leftover_typing_spoils_next_round (u : Q) (phys : bool) (gs : GameState)
    (carried : TypeGame.Words) (ks : list string) :
  (0 <= u)%Q -> (u < 1)%Q -> TypeGame.typedWord carried <> "" ->
  exists w m,
    TypeGame.newRound u phys gs carried = Some (w, m) /\
    TypeGame.typedWord w = TypeGame.typedWord carried /\
    (map JSString.toUpperCase ks = TypeGame.singles (TypeGame.targetWord w) ->
     let r := TypeGame.play (w, m) (map TypeGame.KeyDown ks) in
     gameEnded (snd r) = false /\ hasWon (snd r) = false /\
     TypeGame.typedWord (fst r) <> TypeGame.targetWord w).
Proof.
  intros Hu0 Hu1 Hc.
  destruct (TypeFacts.setupGame_some u carried Hu0 Hu1) as [w [Es [Hin Hty]]].
  unfold TypeGame.newRound. rewrite Es. do 2 eexists.
  split; [reflexivity|]. split; [exact Hty|].
  intros Hk. cbv zeta.
  set (m := start (BaseMicrogame.init "TypeGame" TypeGame.getGameDuration phys gs)).
  destruct (TypeFacts.words_capital _ Hin) as [Hne Hcap].
  pose proof (TypeFacts.words_first_letter_once _ Hin) as Hfirst.
  split; [apply TypeFacts.keys_keep_running; reflexivity|].
  destruct (TypeGame.targetWord w) as [|c0 tl] eqn:Et; [congruence|].
  cbn [TypeGame.firstLetterOnce] in Hfirst. apply negb_true_iff in Hfirst.
  rewrite <- Et.
  apply (TypeFacts.spoiled ks w m (String c0 tl) (TypeGame.typedWord carried) c0 tl);
    try assumption; try reflexivity.
  left. exists "". rewrite TypeFacts.append_nil_r. split; [exact Hty | exact Et].
Qed.

Lemma leftover_typing_spoils_next_round_witness :
  exists w m,
    TypeGame.newRound (7 # 8) true INITIAL_GAME_STATE
      {| TypeGame.targetWord := "GAME"; TypeGame.typedWord := "GA" |}
      = Some (w, m) /\
    TypeGame.typedWord w = "GA" /\
    (map JSString.toUpperCase ["w"; "i"; "n"]
       = TypeGame.singles (TypeGame.targetWord w) ->
     let r := TypeGame.play (w, m) (map TypeGame.KeyDown ["w"; "i"; "n"]) in
     gameEnded (snd r) = false /\ hasWon (snd r) = false /\
     TypeGame.typedWord (fst r) <> TypeGame.targetWord w).
Proof.
  apply (leftover_typing_spoils_next_round (7 # 8) true INITIAL_GAME_STATE
           {| TypeGame.targetWord := "GAME"; TypeGame.typedWord := "GA" |}
           ["w"; "i"; "n"]).
  - discriminate.
  - reflexivity.
  - discriminate.
Defined.

(* ================================================================= *)
(** ** The shared session object *)

Module TitleFacts.

Import TitleScene SessionFacts.

Lemma read_alloc o h :
  Heap.read (snd (Heap.alloc o h)) (fst (Heap.alloc o h)) = Some o.
Proof.
  unfold Heap.read, Heap.alloc. cbn [fst snd].
  rewrite nth_error_app2 by lia. now rewrite Nat.sub_diag.
Qed.

Lemma read_write h : forall r x o,
  Heap.read h r = Some x -> Heap.read (Heap.write h r o) r = Some o.
Proof.
  unfold Heap.read.
  induction h as [|y h IH]; intros [|r] x o H; try discriminate H; cbn in *.
  - reflexivity.
  - eapply IH, H.
Qed.

Lemma snoc_cons {A} (pre : list A) (l x : A) (rest : list A) :
  pre ++ [l] = x :: rest ->
  (pre = [] /\ l = x /\ rest = []) \/
  (exists pre', pre = x :: pre' /\ rest = pre' ++ [l]).
Proof.
  destruct pre as [|y pre]; cbn; intros E; injection E as -> <-; eauto.
Qed.

Section Game.

Variable MICROGAMES : list MicrogameInfo.
Variable sceneExists : string -> bool.
Variable getGameDuration : string -> Z.
Variable physicsWorld : string -> bool.

#[local] Abbreviation playOne := (playOne MICROGAMES sceneExists getGameDuration physicsWorld).
#[local] Abbreviation playSession := (playSession MICROGAMES sceneExists getGameDuration physicsWorld).
#[local] Abbreviation sessionObject := (sessionObject MICROGAMES sceneExists getGameDuration physicsWorld).

(** When the session returned to the title scene, its object is as the last
    round left it. *)
Lemma sessionObject_over script : forall oldKey gs prev pre final,
  playSession oldKey gs prev script = pre ++ [final] ->
  sessionOver final ->
  sessionObject oldKey gs prev script = BaseMicrogame.gameState (after final).
Proof.
  induction script as [|r script IH]; intros oldKey gs prev pre final E Ho.
  - destruct pre; discriminate E.
  - cbn [Session.playSession TitleScene.sessionObject] in *.
    destruct (playOne oldKey (TransitionScene.init gs prev) r) as [pr|];
      [|destruct pre; discriminate E].
    symmetry in E. destruct (snoc_cons _ _ _ _ E) as [(-> & -> & Hr) | (pre' & -> & Hr)].
    + unfold sessionOver in Ho. rewrite Ho. reflexivity.
    + destruct (delayedTransition (after pr)) as [[|gs' w k]|];
        try (destruct pre'; discriminate Hr).
      apply (IH _ _ _ pre' final); [exact Hr | exact Ho].
Qed.

(** A session entered without a life left lasts one round at most. *)
Lemma spent_session script oldKey gs prev :
  lives gs <= 0 -> JS.truthy_bool (debugMode gs) = false ->
  (List.length (playSession oldKey gs prev script) <= 1)%nat /\
  Forall (fun pr => sameProgress gs (before pr) /\ sessionOver pr)
    (playSession oldKey gs prev script).
Proof.
  intros Hl Hd. destruct script as [|r script]; [split; [cbn; lia | constructor]|].
  cbn [Session.playSession].
  destruct (playOne oldKey (TransitionScene.init gs prev) r) as [pr|] eqn:Hp;
    [|split; [cbn; lia | constructor]].
  destruct (playOne_round _ _ _ _ _ _ _ _ Hp) as (Hsame & Hs & Hg & _).
  pose proof (sameProgress_trans _ _ _ (init_sameProgress gs prev) Hsame) as Hgs.
  assert (Ht : delayedTransition (after pr) = Some StartTitleScene).
  { unfold delayedTransition. rewrite Hs, Hg.
    destruct Hgs as (El & _ & _ & _ & Ed).
    unfold applyOutcome. destruct (won (after pr)); cbn [debugMode lives];
      rewrite <- Ed, Hd; cbn [JS.truthy_bool];
      (destruct (Z.leb_spec (lives (before pr)) 0) as [_|H];
       [reflexivity | lia]) ||
      (destruct (Z.leb_spec (lives (before pr) - 1) 0) as [_|H];
       [reflexivity | lia]). }
  rewrite Ht. split; [cbn; lia|].
  constructor; [|constructor]. split; [exact Hgs | exact Ht].
Qed.

(** A session that is not entered in debug mode stays out of it. *)
Lemma session_not_debug script : forall oldKey gs prev,
  1 <= lives gs -> JS.truthy_bool (debugMode gs) = false ->
  Forall (fun pr => JS.truthy_bool
                      (debugMode (BaseMicrogame.gameState (after pr))) = false)
    (playSession oldKey gs prev script).
Proof.
  induction script as [|r0 script IH]; intros oldKey gs prev Hl Hdm; [constructor|].
  destruct (playSession oldKey gs prev (r0 :: script)) as [|pr rest] eqn:Es;
    [constructor|].
  destruct (SessionMore.playSession_cons _ _ _ _ _ _ _ _ _ _ _ Es) as (Hp & Hrest).
  pose proof (init_sameProgress gs prev) as (El & _ & _ & _ & Edm).
  destruct (round_lives _ _ _ _ _ _ _ _ Hp) as (_ & Hd' & _);
    [lia | congruence |].
  constructor; [exact Hd'|].
  destruct Hrest as [-> | (-> & Hl' & Hd'')]; [constructor|].
  now apply IH.
Qed.

End Game.

End TitleFacts.

(** X22: the title scene hands every session the one state object it made
    when it was constructed, and nothing sets that object back.  After a
    session played from it to the return to the title scene, the object
    holds the state the last round left, with no life; a session started
    from the title scene again is entered with that state: it has no life
    and the old score, and returns to the title scene after one round, won
    or lost. *)
Theorem game_over_state_is_kept (MICROGAMES : list MicrogameInfo)
    (sceneExists : string -> bool) (getGameDuration : string -> Z)
    (physicsWorld : string -> bool) (h : Heap.Heap)
    (oldKey1 oldKey2 : string) (script1 script2 : list RoundScript)
    (pre : list PlayedRound) (final : PlayedRound) (h1 : Heap.Heap) :
  let title := fst (TitleScene.constructor h) in
  let h0 := snd (TitleScene.constructor h) in
  TitleScene.startGame MICROGAMES sceneExists getGameDuration physicsWorld
    title h0 oldKey1 script1 = Some (pre ++ [final], h1) ->
  sessionOver final ->
  lives (gameState (after final)) = 0 /\
  Heap.read h1 (TitleScene.gameState title) = Some (gameState (after final)) /\
  exists rounds2 h2,
    TitleScene.startGame MICROGAMES sceneExists getGameDuration physicsWorld
      title h1 oldKey2 script2 = Some (rounds2, h2) /\
    (List.length rounds2 <= 1)%nat /\
    Forall (fun pr => lives (before pr) = 0 /\
                      score (before pr) = score (gameState (after final)) /\
                      sessionOver pr) rounds2.
Proof.
  intros title h0 E Ho. subst title h0.
  unfold TitleScene.constructor in *.
  pose proof (TitleFacts.read_alloc INITIAL_GAME_STATE h) as Hr.
  destruct (Heap.alloc INITIAL_GAME_STATE h) as [r h0]. cbn [fst snd] in *.
  cbn [TitleScene.gameState] in *.
  unfold TitleScene.startGame in E. cbn [TitleScene.gameState] in E.
  rewrite Hr in E. injection E as E1 E2.
  pose proof (SessionMore.session_lives MICROGAMES sceneExists getGameDuration
                physicsWorld script1 oldKey1 INITIAL_GAME_STATE None
                ltac:(cbn; lia) eq_refl) as Hall.
  rewrite E1, Forall_forall in Hall.
  destruct (Hall final) as (_ & _ & _ & Hover); [apply in_or_app; right; now left|].
  assert (Hz : lives (gameState (after final)) = 0) by (apply Hover, Ho).
  assert (Hd : JS.truthy_bool (debugMode (gameState (after final))) = false).
  { unfold sessionOver, delayedTransition in Ho.
    destruct (scheduled (after final)); [|discriminate Ho].
    destruct (JS.truthy_bool (debugMode (gameState (after final)))) eqn:Ed;
      [|reflexivity].
    exfalso.
    pose proof (TitleFacts.session_not_debug MICROGAMES sceneExists getGameDuration
                  physicsWorld script1 oldKey1 INITIAL_GAME_STATE None
                  ltac:(cbn; lia) eq_refl) as Hdbg.
    rewrite E1, Forall_forall in Hdbg.
    rewrite (Hdbg final) in Ed; [discriminate Ed | apply in_or_app; right; now left]. }
  pose proof (TitleFacts.sessionObject_over MICROGAMES sceneExists getGameDuration
                physicsWorld script1 oldKey1 INITIAL_GAME_STATE None pre final
                E1 Ho) as Hobj.
  assert (Hread : Heap.read h1 r = Some (gameState (after final))).
  { rewrite <- E2, Hobj. eapply TitleFacts.read_write, Hr. }
  split; [exact Hz|]. split; [exact Hread|].
  unfold TitleScene.startGame. cbn [TitleScene.gameState]. rewrite Hread.
  do 2 eexists. split; [reflexivity|].
  destruct (TitleFacts.spent_session MICROGAMES sceneExists getGameDuration
              physicsWorld script2 oldKey2 (gameState (after final)) None)
    as [Hlen Hall2]; [lia | exact Hd |].
  split; [exact Hlen|].
  eapply Forall_impl; [|exact Hall2].
  intros pr [(El & Es & _) Hov]. cbv beta.
  split; [congruence|]. split; [congruence | exact Hov].
Qed.

Lemma game_over_state_is_kept_witness :
  let lose := {| draw := 0; fallbackDraw := 0; events := [DeclareFail] |} in
  let win := {| draw := 0; fallbackDraw := 0; events := [DeclareWin] |} in
  let cat := Registry.MICROGAME_METADATA in
  let rounds := playSession cat (Registry.registered cat) (fun _ => 4000)
                  (fun _ => false) "" INITIAL_GAME_STATE None
                  [lose; lose; lose; lose] in
  let final := last rounds {| before := INITIAL_GAME_STATE;
                              after := BaseMicrogame.init "" 0 false
                                         INITIAL_GAME_STATE |} in
  let title := fst (TitleScene.constructor []) in
  lives (gameState (after final)) = 0 /\
  exists rounds2 h2,
    TitleScene.startGame cat (Registry.registered cat) (fun _ => 4000)
      (fun _ => false) title [gameState (after final)] "" [win; win]
      = Some (rounds2, h2) /\
    (List.length rounds2 <= 1)%nat /\
    Forall (fun pr => lives (before pr) = 0 /\
                      score (before pr) = score (gameState (after final)) /\
                      sessionOver pr) rounds2.
Proof.
  intros lose win cat rounds final title.
  destruct (game_over_state_is_kept cat (Registry.registered cat) (fun _ => 4000)
              (fun _ => false) [] "" "" [lose; lose; lose; lose] [win; win]
              (removelast rounds) final [gameState (after final)])
    as (A & _ & C).
  - vm_compute. reflexivity.
  - vm_compute. reflexivity.
  - split; [exact A | exact C].
Defined.

(* ================================================================= *)
(** ** KeyboardSmashGame and TerminalVirusGame *)

Module KeyFacts.

Import JSString RoundFacts GameFacts.

(** What the timer, a declared win and a declared fail leave of a running
    round. *)
Lemma running_tick m :
  gameEnded m = false -> gameEnded (timerCallback m) = false ->
  0 < timeRemaining (timerCallback m) /\
  hasWon (timerCallback m) = hasWon m /\
  hasFailed (timerCallback m) = hasFailed m /\
  gameReady (timerCallback m) = gameReady m /\
  gameState (timerCallback m) = gameState m.
Proof.
  unfold timerCallback, endGame. fields m. intros -> H.
  destruct (Z.leb_spec (t - 50) 0) as [Hle|Hgt]; proj; [discriminate H|].
  repeat split. lia.
Qed.

Lemma running_win m :
  gameEnded m = false ->
  hasWon (setWinState m) = true /\
  hasFailed (setWinState m) = hasFailed m /\
  gameReady (setWinState m) = gameReady m /\
  gameEnded (setWinState m) = false /\
  timeRemaining (setWinState m) = timeRemaining m /\
  gameState (setWinState m) = gameState m.
Proof.
  unfold setWinState, emit. fields m. intros ->. destruct hw; proj; repeat split.
Qed.

Lemma running_fail m :
  gameEnded m = false ->
  hasFailed (setFailState m) = true /\
  hasWon (setFailState m) = hasWon m /\
  gameReady (setFailState m) = gameReady m /\
  gameEnded (setFailState m) = false /\
  timeRemaining (setFailState m) = timeRemaining m /\
  gameState (setFailState m) = gameState m.
Proof.
  unfold setFailState, emit. fields m. intros ->. destruct hf; proj; repeat split.
Qed.

Lemma NoDup_snoc {A} (l : list A) (x : A) :
  NoDup l -> ~ In x l -> NoDup (l ++ [x]).
Proof.
  induction l as [|y l IH]; intros Hn Hx; cbn.
  - constructor; [intros [] | constructor].
  - apply NoDup_cons_iff in Hn. destruct Hn as [Hy Hn].
    constructor.
    + rewrite in_app_iff. intros [H|[H|[]]]; [tauto|]. subst. apply Hx. now left.
    + apply IH; [exact Hn|]. intros H. apply Hx. now right.
Qed.

(** *** KeyboardSmashGame *)

Import KeyboardSmashGame.

Lemma has_In key k : has key k = true <-> In key (keysPressed k).
Proof.
  unfold has. rewrite existsb_exists. split.
  - intros [x [Hin Hx]]. apply String.eqb_eq in Hx. now subst.
  - intros H. exists key. split; [exact H | apply String.eqb_refl].
Qed.

Lemma smash_ended_stays km i :
  gameEnded (snd km) = true -> gameEnded (snd (handle km i)) = true.
Proof.
  destruct km as [k m]. cbn [snd]. intros He. destruct i; cbn [handle fst snd].
  - apply (gameEnded_step m Tick He).
  - unfold Round.update, Round.updateRuns. cbn [snd]. rewrite He. exact He.
  - rewrite He. exact He.
Qed.

Lemma smash_handle gs t k m i :
  0 < t -> smashing gs t (k, m) -> gameEnded (snd (handle (k, m) i)) = false ->
  smashing gs t (handle (k, m) i) /\
  (forall x, In x (keysPressed (fst (handle (k, m) i)))
             <-> In x (keysPressed k) \/ In x (map toUpperCase (keysOf [i]))).
Proof.
  intros Ht (Htc & Hnd & Hw & Hf & Hr & He & Htime & Hg) He'.
  destruct i; cbn [handle fst snd keysOf map In] in *.
  - (* the timer fires *)
    destruct (running_tick m He He') as (H1 & H2 & H3 & H4 & H5).
    split; [|intros x; tauto].
    unfold smashing. rewrite H2, H3, H4, H5. repeat split; try tauto.
  - (* a frame *)
    unfold Round.update, Round.updateRuns, onGameUpdate in *. cbn [snd] in *.
    rewrite He, Hr in *. cbn [negb andb] in *.
    replace (timeRemaining m <=? 0) with false in * by (symmetry; apply Z.leb_gt; lia).
    cbn [andb fst] in *. split; [|intros x; tauto].
    unfold smashing. repeat split; tauto.
  - (* a key *)
    rewrite He in *. unfold keyboardListener in *.
    destruct (has (toUpperCase eventKey) k) eqn:Eh; cbn [negb] in *.
    + cbn [fst]. split; [unfold smashing; repeat split; tauto|].
      apply has_In in Eh. intros x. split; [tauto|].
      intros [H|[<-|[]]]; assumption.
    + assert (Hnew : ~ In (toUpperCase eventKey) (keysPressed k)).
      { intros H. apply has_In in H. congruence. }
      cbn [keysPressed targetKeyCount] in *. rewrite Htc in *. cbn [reached] in *.
      assert (Hkeys : forall x, In x (keysPressed k ++ [toUpperCase eventKey])
                <-> In x (keysPressed k) \/ (toUpperCase eventKey = x \/ False)).
      { intros x. rewrite in_app_iff. cbn [In]. tauto. }
      assert (Hlen : Z.of_nat (List.length (keysPressed k ++ [toUpperCase eventKey]))
                     = Z.of_nat (List.length (keysPressed k)) + 1).
      { rewrite length_app. cbn. lia. }
      destruct (Z.leb_spec t
                  (Z.of_nat (List.length (keysPressed k ++ [toUpperCase eventKey]))))
        as [Hle|Hgt]; cbn [fst snd keysPressed targetKeyCount] in *.
      * destruct (running_win m He) as (H1 & H2 & H3 & H4 & H5 & H6).
        split; [|exact Hkeys].
        unfold smashing. cbn [keysPressed targetKeyCount].
        rewrite H1, H2, H3, H4, H5, H6.
        repeat split; try tauto; try (now apply NoDup_snoc).
      * split; [|exact Hkeys].
        unfold smashing. cbn [keysPressed targetKeyCount].
        repeat split; try tauto; try (now apply NoDup_snoc).
        -- intros H. apply Hw in H. lia.
        -- intros H. lia.
Qed.

Lemma smash_play gs t inputs : forall k m,
  0 < t -> smashing gs t (k, m) ->
  gameEnded (snd (play (k, m) inputs)) = false ->
  smashing gs t (play (k, m) inputs) /\
  (forall x, In x (keysPressed (fst (play (k, m) inputs)))
             <-> In x (keysPressed k) \/ In x (map toUpperCase (keysOf inputs))).
Proof.
  induction inputs as [|i inputs IH]; intros k m Ht Hs He.
  - split; [exact Hs | intros x; cbn; tauto].
  - change (play (k, m) (i :: inputs)) with (play (handle (k, m) i) inputs) in *.
    assert (He1 : gameEnded (snd (handle (k, m) i)) = false).
    { destruct (gameEnded (snd (handle (k, m) i))) eqn:E; [|reflexivity].
      assert (Hstay : forall l km, gameEnded (snd km) = true ->
                                   gameEnded (snd (play km l)) = true).
      { clear. induction l as [|j l IHl]; intros km H; [exact H|].
        change (play km (j :: l)) with (play (handle km j) l).
        apply IHl, smash_ended_stays, H. }
      rewrite (Hstay inputs _ E) in He. discriminate He. }
    destruct (smash_handle gs t k m i Ht Hs He1) as [Hs1 Hk1].
    destruct (handle (k, m) i) as [k1 m1] eqn:Eh. cbn [fst snd] in *.
    destruct (IH k1 m1 Ht Hs1 He) as [Hs2 Hk2].
    split; [exact Hs2|]. intros x. rewrite Hk2, Hk1.
    assert (Hsplit : In x (map toUpperCase (keysOf (i :: inputs)))
                     <-> In x (map toUpperCase (keysOf [i]))
                         \/ In x (map toUpperCase (keysOf inputs))).
    { destruct i; cbn [keysOf map In]; tauto. }
    rewrite Hsplit. tauto.
Qed.

Lemma target_levels i s :
  nth_error speedLevels i = Some s ->
  Math_floor (20 + 5 * s)%float = FInt (25 + Z.of_nat i).
Proof.
  unfold speedLevels.
  do 11 (destruct i as [|i]; [intros [= <-]; vm_compute; reflexivity|]).
  destruct i; discriminate.
Qed.

End KeyFacts.

(** X23: KeyboardSmashGame counts every key once, the case of letters
    apart, and asks for 25 different keys at speed 1 and one more for every
    step of the speed, 35 at speed 3.  For keys whose names are ASCII, as
    the names of the keys of a keyboard are, a round that has not ended
    stands as won iff that many different keys have been pressed; the game
    itself never declares a fail, whatever frames are drawn, so the round
    is lost only by the countdown.  The timer firing that ends the round
    counts it so. *)
Theorem keyboard_smash_outcome (phys : bool) (gs : GameState) (level : nat)
    (inputs : list KeyboardSmashGame.Input) :
  nth_error speedLevels level = Some (speed gs) ->
  Forall (fun eventKey => JSString.isAscii eventKey = true)
    (KeyboardSmashGame.keysOf inputs) ->
  let r := KeyboardSmashGame.play (KeyboardSmashGame.newRound phys gs) inputs in
  gameEnded (snd r) = false ->
  KeyboardSmashGame.targetKeyCount (fst r)
    = KeyboardSmashGame.FInt (25 + Z.of_nat level) /\
  List.length (KeyboardSmashGame.keysPressed (fst r))
    = KeyboardSmashGame.differentKeys inputs /\
  hasFailed (snd r) = false /\
  (won (snd r) = true
   <-> 25 + Z.of_nat level <= Z.of_nat (KeyboardSmashGame.differentKeys inputs)) /\
  (gameEnded (timerCallback (snd r)) = true ->
   scheduled (timerCallback (snd r)) = Some (won (snd r)) /\
   lives (gameState (timerCallback (snd r)))
   = (if won (snd r) then lives gs else lives gs - 1)).
Proof.
  intros Hlevel _ r He. subst r.
  pose proof (KeyFacts.target_levels level _ Hlevel) as Ht.
  unfold KeyboardSmashGame.newRound in *.
  set (k0 := {| KeyboardSmashGame.keysPressed := [];
                KeyboardSmashGame.targetKeyCount :=
                  KeyboardSmashGame.Math_floor (20 + 5 * speed gs)%float |}) in *.
  set (m0 := start (BaseMicrogame.init "KeyboardSmashGame"
                      KeyboardSmashGame.getGameDuration phys gs)) in *.
  destruct (KeyFacts.smash_play gs (25 + Z.of_nat level) inputs k0 m0)
    as [Hs Hk]; [lia | | exact He |].
  { unfold KeyboardSmashGame.smashing. subst k0 m0.
    cbn [KeyboardSmashGame.keysPressed KeyboardSmashGame.targetKeyCount List.length].
    split; [exact Ht|]. split; [constructor|]. split.
    - split; [intros H; discriminate H | intros H; lia].
    - repeat split. }
  destruct (KeyboardSmashGame.play (k0, m0) inputs) as [k m]. cbn [fst snd] in *.
  destruct Hs as (Htc & Hnd & Hw & Hf & Hr & _ & Htime & Hg).
  assert (Hlen : List.length (KeyboardSmashGame.keysPressed k)
                 = KeyboardSmashGame.differentKeys inputs).
  { unfold KeyboardSmashGame.differentKeys. apply Nat.le_antisymm.
    - apply NoDup_incl_length; [exact Hnd|]. intros x Hx.
      apply nodup_In. apply Hk in Hx. destruct Hx as [[]|Hx]. exact Hx.
    - apply NoDup_incl_length; [apply NoDup_nodup|]. intros x Hx.
      apply nodup_In in Hx. apply Hk. now right. }
  assert (Hwon : won m = hasWon m).
  { unfold won. rewrite Hf. apply andb_true_r. }
  split; [exact Htc|]. split; [exact Hlen|]. split; [exact Hf|].
  split; [rewrite Hwon, Hw, Hlen; reflexivity|].
  intros Hend. destruct (GameFacts.ending_tick _ He Hend) as [Hs Hgs].
  split; [exact Hs|]. rewrite Hgs, Hg. destruct (won m); reflexivity.
Qed.

Lemma keyboard_smash_outcome_witness :
  let r := KeyboardSmashGame.play
             (KeyboardSmashGame.newRound true INITIAL_GAME_STATE)
             [KeyboardSmashGame.KeyDown "a"; KeyboardSmashGame.Frame;
              KeyboardSmashGame.KeyDown "A"; KeyboardSmashGame.TimerFires;
              KeyboardSmashGame.KeyDown "Enter"] in
  KeyboardSmashGame.targetKeyCount (fst r) = KeyboardSmashGame.FInt 25 /\
  List.length (KeyboardSmashGame.keysPressed (fst r)) = 2%nat /\
  hasFailed (snd r) = false.
Proof.
  intros r.
  destruct (keyboard_smash_outcome true INITIAL_GAME_STATE 0
              [KeyboardSmashGame.KeyDown "a"; KeyboardSmashGame.Frame;
               KeyboardSmashGame.KeyDown "A"; KeyboardSmashGame.TimerFires;
               KeyboardSmashGame.KeyDown "Enter"] eq_refl
              ltac:(repeat constructor) eq_refl)
    as (H1 & H2 & H3 & _).
  split; [exact H1|]. split; [exact H2 | exact H3].
Defined.

Module VirusFacts.

Import RoundFacts GameFacts KeyFacts TerminalVirusGame.

Lemma progressAfter_S n : forall s p,
  progressAfter (S n) s p = grow s (progressAfter n s p).
Proof.
  induction n as [|n IH]; intros s p; [reflexivity|].
  change (progressAfter (S (S n)) s p) with (progressAfter (S n) s (grow s p)).
  rewrite IH. reflexivity.
Qed.

(** The payload is not complete before [framesToFill] frames. *)
Lemma fill_bound fuel : forall s p j,
  leb 100 (progressAfter (S j) s p) = true ->
  (framesToFill fuel s p <= S j)%nat.
Proof.
  induction fuel as [|fuel IH]; intros s p j H; [cbn; lia|].
  cbn [framesToFill]. destruct (leb 100 (grow s p)) eqn:E; [lia|].
  destruct j as [|j].
  - cbn [progressAfter] in H. congruence.
  - apply le_n_S. apply IH. exact H.
Qed.

Lemma frames_app l l' : frames (l ++ l') = (frames l + frames l')%nat.
Proof. unfold frames. now rewrite filter_app, length_app. Qed.

Lemma ctrlHeld_app l : forall h l',
  ctrlHeld h (l ++ l') = ctrlHeld (ctrlHeld h l) l'.
Proof.
  induction l as [|i l IH]; intros h l'; [reflexivity|].
  destruct i; cbn [app ctrlHeld]; apply IH.
Qed.

(** An occurrence in a list with one more element at its end is an
    occurrence in the list, or that element. *)
Lemma snoc_occurrence {A} (P : list A -> Prop) (pre : list A) (i x : A) :
  (exists a b, pre ++ [i] = a ++ x :: b /\ P a) <->
  (exists a b, pre = a ++ x :: b /\ P a) \/ (i = x /\ P pre).
Proof.
  split.
  - intros (a & b & E & HP). symmetry in E.
    destruct (snoc_split _ _ _ _ _ E) as [(-> & -> & <-) | (b' & -> & ->)].
    + right. auto.
    + left. eauto.
  - intros [(a & b & -> & HP) | (-> & HP)].
    + exists a, (b ++ [i]). rewrite <- app_assoc. auto.
    + exists pre, []. auto.
Qed.

Lemma virus_ended_stays vm i :
  gameEnded (snd vm) = true -> gameEnded (snd (handle vm i)) = true.
Proof.
  destruct vm as [v m]. cbn [snd]. intros He. destruct i; cbn [handle fst snd];
    try exact He.
  - apply (gameEnded_step m Tick He).
  - unfold Round.update, Round.updateRuns. cbn [snd]. rewrite He. exact He.
  - destruct (isCtrlPressed v); cbn [snd]; [|exact He].
    now rewrite setWinState_ended.
Qed.

Lemma virus_running phys gs pre :
  let r := play (newRound phys gs) pre in
  gameEnded (snd r) = false ->
  gameReady (snd r) = true /\ 0 < timeRemaining (snd r) /\
  gameState (snd r) = gs /\
  isCtrlPressed (fst r) = ctrlHeld false pre /\
  (hasWon (snd r) = true <->
   exists a b, pre = a ++ CDown :: b /\ ctrlHeld false a = true) /\
  (exists k, (k <= frames pre)%nat /\
             payloadProgress (fst r) = progressAfter k (speed gs) 0) /\
  (hasFailed (snd r) = true ->
   exists j, (S j <= frames pre)%nat /\
             leb 100 (progressAfter (S j) (speed gs) 0) = true).
Proof.
  induction pre as [|i pre IH] using rev_ind; cbn zeta.
  - intros _. cbn [play fold_left newRound fst snd]. repeat split.
    + intros H. discriminate H.
    + intros (a & b & E & _). destruct a; discriminate E.
    + exists 0%nat. split; [cbn; lia | reflexivity].
    + intros H. discriminate H.
  - unfold play. rewrite fold_left_app. cbn [fold_left].
    fold (play (newRound phys gs) pre). cbn zeta in IH.
    destruct (play (newRound phys gs) pre) as [v m]. cbn [fst snd] in IH.
    intros He'.
    assert (He : gameEnded m = false).
    { destruct (gameEnded m) eqn:E; [|reflexivity].
      now rewrite (virus_ended_stays (v, m) i E) in He'. }
    destruct (IH He) as (Hr & Ht & Hg & Hc & Hw & (k & Hk & Hp) & Hf). clear IH.
    rewrite frames_app, ctrlHeld_app, <- Hc.
    rewrite (snoc_occurrence (fun a => ctrlHeld false a = true)), <- Hw, <- Hc.
    clear Hw.
    destruct i; cbn [handle fst snd frames filter isFrame List.length ctrlHeld
                     payloadProgress isCtrlPressed] in *.
    + (* the timer fires *)
      destruct (running_tick m He He') as (H1 & H2 & H3 & H4 & H5).
      rewrite H2, H3, H4, H5, Nat.add_0_r.
      repeat split; try tauto; try (intros [H|[H _]]; [exact H | discriminate H]).
      exists k. auto.
    + (* a frame *)
      unfold Round.update, Round.updateRuns, onGameUpdate in *. cbn [snd] in *.
      rewrite He, Hr in *. cbn [negb andb] in *.
      destruct (hasWon m) eqn:Ew; cbn [negb fst snd] in *.
      * rewrite Ew. repeat split; try tauto.
        -- exists k. split; [lia | exact Hp].
        -- intros H. destruct (Hf H) as (j & Hj & Hl). exists j. split; [lia | exact Hl].
      * rewrite Hg, Hp, <- progressAfter_S in *.
        destruct (leb 100 (progressAfter (S k) (speed gs) 0)) eqn:El;
          cbn [fst snd payloadProgress isCtrlPressed] in *.
        -- destruct (running_fail m He) as (H1 & H2 & H3 & H4 & H5 & H6).
           rewrite H2, H3, H5, H6, Ew.
           repeat split; try tauto;
             try (intros [H|[H _]]; [discriminate H | discriminate H]).
           ++ exists (S k). split; [lia | reflexivity].
           ++ intros _. exists k. split; [lia | exact El].
        -- rewrite Ew.
           repeat split; try tauto;
             try (intros [H|[H _]]; [discriminate H | discriminate H]).
           ++ exists (S k). split; [lia | reflexivity].
           ++ intros H. destruct (Hf H) as (j & Hj & Hl). exists j.
              split; [lia | exact Hl].
    + (* Ctrl goes down *)
      rewrite Nat.add_0_r.
      repeat split; try tauto; try (intros [H|[H _]]; [exact H | discriminate H]).
      exists k. auto.
    + (* Ctrl goes up *)
      rewrite Nat.add_0_r.
      repeat split; try tauto; try (intros [H|[H _]]; [exact H | discriminate H]).
      exists k. auto.
    + (* C goes down *)
      rewrite Nat.add_0_r.
      destruct (isCtrlPressed v) eqn:Ec; cbn [fst snd] in *.
      * destruct (running_win m He) as (H1 & H2 & H3 & H4 & H5 & H6).
        rewrite H1, H2, H3, H5, H6.
        repeat split; try tauto.
        exists k. auto.
      * repeat split; try tauto.
        -- intros [H|[_ H]]; [exact H | discriminate H].
        -- exists k. auto.
Qed.

Lemma fill_levels s :
  In s speedLevels -> (334 <= framesToFill 2000 s 0 <= 1001)%nat.
Proof.
  unfold speedLevels. cbn [In]. intros H.
  repeat (destruct H as [<-|H]; [split; apply Nat.leb_le; vm_compute; reflexivity|]).
  destruct H.
Qed.

End VirusFacts.

(** X24: a TerminalVirusGame round that has not ended has declared a win
    iff C was pressed at a moment when Ctrl was held, and has declared a
    fail only if at least [framesToFill] frames were drawn, the number of
    additions of [0.1 * speed] that bring the payload to 100: between 334
    and 1001 frames at the speeds a session passes through.  The timer
    firing that ends the round counts it as won iff a win was declared and
    no fail. *)
Theorem terminal_virus_outcome (phys : bool) (gs : GameState) (fuel : nat)
    (inputs : list TerminalVirusGame.Input) :
  let r := TerminalVirusGame.play (TerminalVirusGame.newRound phys gs) inputs in
  gameEnded (snd r) = false ->
  (hasWon (snd r) = true <->
   exists a b, inputs = a ++ TerminalVirusGame.CDown :: b /\
               TerminalVirusGame.ctrlHeld false a = true) /\
  (hasFailed (snd r) = true ->
   (TerminalVirusGame.framesToFill fuel (speed gs) 0
    <= TerminalVirusGame.frames inputs)%nat) /\
  (In (speed gs) speedLevels ->
   (334 <= TerminalVirusGame.framesToFill 2000 (speed gs) 0 <= 1001)%nat) /\
  (gameEnded (timerCallback (snd r)) = true ->
   scheduled (timerCallback (snd r)) = Some (won (snd r)) /\
   lives (gameState (timerCallback (snd r)))
   = (if won (snd r) then lives gs else lives gs - 1)).
Proof.
  intros r He.
  destruct (VirusFacts.virus_running phys gs inputs He)
    as (_ & _ & Hg & _ & Hw & _ & Hf).
  fold r in Hg, Hw, Hf.
  split; [exact Hw|]. split.
  - intros H. destruct (Hf H) as (j & Hj & Hl).
    pose proof (VirusFacts.fill_bound fuel _ _ _ Hl). lia.
  - split; [apply VirusFacts.fill_levels|].
    intros Hend. destruct (GameFacts.ending_tick _ He Hend) as [Hs Hgs].
    split; [exact Hs|]. rewrite Hgs, Hg. destruct (won (snd r)); reflexivity.
Qed.

Lemma terminal_virus_outcome_witness :
  let inputs := [TerminalVirusGame.CDown; TerminalVirusGame.CtrlDown;
                 TerminalVirusGame.Frame; TerminalVirusGame.TimerFires;
                 TerminalVirusGame.CDown; TerminalVirusGame.CtrlUp] in
  let r := TerminalVirusGame.play
             (TerminalVirusGame.newRound false INITIAL_GAME_STATE) inputs in
  (hasWon (snd r) = true <->
   exists a b, inputs = a ++ TerminalVirusGame.CDown :: b /\
               TerminalVirusGame.ctrlHeld false a = true) /\
  (hasFailed (snd r) = true ->
   (TerminalVirusGame.framesToFill 2000 1 0
    <= TerminalVirusGame.frames inputs)%nat).
Proof.
  intros inputs r.
  destruct (terminal_virus_outcome false INITIAL_GAME_STATE 2000 inputs eq_refl)
    as (H1 & H2 & _).
  split; [exact H1 | exact H2].
Defined.

(* ================================================================= *)
(** ** DebugMenuScene *)

Module MenuFacts.

Import DebugMenuScene.

Ltac qcases :=
  repeat match goal with
  | H : context [Qle_bool ?a ?b] |- _ =>
      let E := fresh "E" in
      destruct (Qle_bool a b) eqn:E;
      [apply Qle_bool_iff in E
      |assert (b < a)%Q
         by (apply Qnot_le_lt; intros HE; apply Qle_bool_iff in HE; congruence);
       clear E]
  | |- context [Qle_bool ?a ?b] =>
      let E := fresh "E" in
      destruct (Qle_bool a b) eqn:E;
      [apply Qle_bool_iff in E
      |assert (b < a)%Q
         by (apply Qnot_le_lt; intros HE; apply Qle_bool_iff in HE; congruence);
       clear E]
  end.

Lemma Clamp_bounds v lo hi :
  (lo <= hi)%Q -> (lo <= Clamp v lo hi <= hi)%Q.
Proof. intros H. unfold Clamp, Math_max, Math_min. qcases; lra. Qed.

Lemma Clamp_inside v lo hi :
  (lo <= v <= hi)%Q -> (Clamp v lo hi == v)%Q.
Proof. intros H. unfold Clamp, Math_max, Math_min. qcases; lra. Qed.

Section Catalog.

Variable MICROGAMES : list MicrogameInfo.

#[local] Abbreviation n := (buttons MICROGAMES).
#[local] Abbreviation inBounds := (inBounds MICROGAMES).

Lemma buttons_nonneg : 0 <= n.
Proof. unfold buttons, JS.len. lia. Qed.

Lemma maxScrollY_create :
  (0 <= maxScrollY (create MICROGAMES))%Q /\
  (inject_Z n * 120 - 380 <= maxScrollY (create MICROGAMES))%Q /\
  (maxScrollY (create MICROGAMES) == 0 \/
   maxScrollY (create MICROGAMES) == inject_Z n * 120 - 380)%Q.
Proof.
  unfold create, createGameButtons, init, viewportHeight, Math_max, buttons.
  cbn [maxScrollY]. change (100 + 20) with 120. rewrite inject_Z_mult.
  change (inject_Z 120) with 120%Q.
  qcases.
  - split; [lra|]. split; [lra|]. right. reflexivity.
  - split; [lra|]. split; [lra|]. left. reflexivity.
Qed.

Lemma inBounds_create : inBounds (create MICROGAMES).
Proof.
  pose proof maxScrollY_create as (H0 & _). unfold inBounds.
  split; [|split; [reflexivity | split; [|reflexivity]]].
  - unfold create, createGameButtons, init in *. cbn [scrollY maxScrollY] in *. lra.
  - intros Hn. cbn. lia.
Qed.

Lemma inBounds_scrollTo y s : inBounds s -> inBounds (scrollTo y s).
Proof.
  intros (Hs & Hm & Hi). unfold inBounds, scrollTo. cbn [scrollY maxScrollY selectedIndex].
  split; [|split; assumption]. apply Clamp_bounds. lra.
Qed.

Lemma inBounds_select index s :
  inBounds s -> (0 < n -> 0 <= index < n) -> (n = 0 -> index = 0) ->
  inBounds (select index s).
Proof.
  intros (Hs & Hm & _) H1 H2. unfold inBounds, select.
  cbn [scrollY maxScrollY selectedIndex]. auto.
Qed.

Lemma inBounds_ensure index s :
  inBounds s -> inBounds (ensureButtonVisible MICROGAMES index s).
Proof.
  intros H. unfold ensureButtonVisible.
  destruct ((n =? 0) || (index <? 0) || (n <=? index))%bool; [exact H|].
  cbv zeta. destruct (Qlt_bool _ _); [now apply inBounds_scrollTo|].
  destruct (Qlt_bool _ _); [now apply inBounds_scrollTo | exact H].
Qed.

Lemma inBounds_handle s i :
  inBounds s -> fromButton MICROGAMES i -> inBounds (handle MICROGAMES s i).
Proof.
  intros H Hb. pose proof H as (Hs & Hm & Hi & Hz).
  destruct i; cbn [handle fromButton] in *.
  - destruct (Z.ltb_spec 0 n) as [Hn|Hn]; [|exact H].
    cbv zeta. apply inBounds_ensure, inBounds_select; [exact H | lia | lia].
  - destruct (Z.ltb_spec 0 n) as [Hn|Hn]; [|exact H].
    cbv zeta. apply inBounds_ensure, inBounds_select; [exact H | lia | lia].
  - now apply inBounds_scrollTo.
  - now apply inBounds_scrollTo.
  - unfold inBounds, constrainScroll. cbn [scrollY maxScrollY selectedIndex].
    split; [|split; [exact Hm | split; assumption]]. apply Clamp_bounds. lra.
  - apply inBounds_select; [exact H | intros _; exact Hb | intros E; lia].
Qed.

Lemma inBounds_play inputs : forall s,
  inBounds s -> Forall (fromButton MICROGAMES) inputs ->
  inBounds (play MICROGAMES s inputs).
Proof.
  induction inputs as [|i inputs IH]; intros s H Hall; [exact H|].
  apply Forall_cons_iff in Hall. destruct Hall as [Hi Hall].
  cbn [play fold_left]. apply IH; [|exact Hall]. now apply inBounds_handle.
Qed.

(** After [ensureButtonVisible], the button is inside the viewport, but for
    the upper half of the first button. *)
Lemma ensure_in_view index s :
  inBounds s -> 0 <= index < n ->
  let s' := ensureButtonVisible MICROGAMES index s in
  (buttonBottom index <= scrollY s' + viewportHeight)%Q /\
  (1 <= index -> (scrollY s' <= buttonTop index)%Q) /\
  (index = 0 -> (scrollY s' == 0)%Q).
Proof.
  intros (Hs & Hm & _) Hi. cbv zeta.
  pose proof maxScrollY_create as (Hm0 & Hm1 & Hm2). rewrite <- Hm in *.
  unfold ensureButtonVisible.
  replace ((n =? 0) || (index <? 0) || (n <=? index))%bool with false.
  2:{ symmetry. rewrite !orb_false_iff. repeat split.
      - apply Z.eqb_neq. lia.
      - apply Z.ltb_ge. lia.
      - apply Z.leb_gt. lia. }
  cbv zeta.
  assert (HI : (0 <= inject_Z index)%Q /\ (inject_Z index + 1 <= inject_Z n)%Q /\
               (1 <= index -> (1 <= inject_Z index)%Q) /\
               (index = 0 -> (inject_Z index == 0)%Q)).
  { repeat split.
    - change 0%Q with (inject_Z 0). rewrite <- Zle_Qle. lia.
    - change 1%Q with (inject_Z 1). rewrite <- inject_Z_plus, <- Zle_Qle. lia.
    - intros H. change 1%Q with (inject_Z 1). rewrite <- Zle_Qle. exact H.
    - intros ->. reflexivity. }
  destruct HI as (HI0 & HI1 & HI2 & HI3).
  unfold buttonBottom, buttonTop, buttonY, viewportHeight in *.
  change (100 + 20) with 120.
  rewrite inject_Z_plus, inject_Z_mult.
  change (inject_Z 150) with 150%Q. change (inject_Z 120) with 120%Q.
  set (I := inject_Z index) in *. set (N := inject_Z n) in *.
  set (M := maxScrollY s) in *. set (y0 := scrollY s) in *.
  unfold Qlt_bool, scrollTo, Clamp, Math_max, Math_min.
  cbn [scrollY maxScrollY]. fold M y0.
  assert (H1 : 1 <= index -> (1 <= I)%Q) by exact HI2.
  assert (H2 : index = 0 -> (I == 0)%Q) by exact HI3.
  clear HI2 HI3 Hm.
  destruct (Qle_bool y0 (150 + 120 * I - 150 - 45)) eqn:E1; cbn [negb].
  - apply Qle_bool_iff in E1.
    destruct (Qle_bool (150 + 120 * I - 150 + 45) (y0 + 380)) eqn:E2; cbn [negb].
    + apply Qle_bool_iff in E2. fold y0.
      repeat split; try lra;
        try (intros Hx; specialize (H1 Hx); lra);
        try (intros Hx; specialize (H2 Hx); lra).
    + assert (E2' : (y0 + 380 < 150 + 120 * I - 150 + 45)%Q)
        by (apply Qnot_le_lt; intros HE; apply Qle_bool_iff in HE; congruence).
      clear E2. cbn [scrollY].
      qcases; repeat split; try lra;
        try (intros Hx; specialize (H1 Hx); lra);
        try (intros Hx; specialize (H2 Hx); lra).
  - assert (E1' : (150 + 120 * I - 150 - 45 < y0)%Q)
      by (apply Qnot_le_lt; intros HE; apply Qle_bool_iff in HE; congruence).
    clear E1. cbn [scrollY].
    qcases; repeat split; try lra;
      try (intros Hx; specialize (H1 Hx); lra);
      try (intros Hx; specialize (H2 Hx); lra).
Qed.

End Catalog.

End MenuFacts.

(** X25: in the debug menu, whatever keys are pressed, however the wheel is
    turned and whichever buttons the pointer passes over, the scroll
    position stays between 0 and [maxScrollY = max(0, 120 n - 380)] for a
    catalog of [n] games, and the selection stays on a button: with a
    non-empty catalog ENTER launches the game at [selectedIndex] and never
    reads past the catalog; with an empty one it does nothing. *)
Theorem debug_menu_stays_in_bounds (MICROGAMES : list MicrogameInfo)
    (inputs : list DebugMenuScene.Input) :
  Forall (DebugMenuScene.fromButton MICROGAMES) inputs ->
  let s := DebugMenuScene.play MICROGAMES (DebugMenuScene.create MICROGAMES) inputs in
  (0 <= DebugMenuScene.scrollY s <= DebugMenuScene.maxScrollY s)%Q /\
  DebugMenuScene.maxScrollY s
    = DebugMenuScene.Math_max 0 (inject_Z (JS.len MICROGAMES * 120) - 380) /\
  (MICROGAMES = [] -> DebugMenuScene.enter MICROGAMES s = DebugMenuScene.Nothing) /\
  (MICROGAMES <> [] ->
   0 <= DebugMenuScene.selectedIndex s < JS.len MICROGAMES /\
   exists g, nth_error MICROGAMES (Z.to_nat (DebugMenuScene.selectedIndex s)) = Some g /\
             DebugMenuScene.enter MICROGAMES s = DebugMenuScene.LaunchGame (key g)).
Proof.
  intros Hall s.
  pose proof (MenuFacts.inBounds_play MICROGAMES inputs _
                (MenuFacts.inBounds_create MICROGAMES) Hall) as (Hs & Hm & Hi & Hz).
  fold s in Hs, Hm, Hi, Hz.
  split; [exact Hs|]. split; [rewrite Hm; reflexivity|]. split.
  - intros ->. reflexivity.
  - intros Hne.
    assert (Hn : 0 < DebugMenuScene.buttons MICROGAMES).
    { unfold DebugMenuScene.buttons, JS.len. destruct MICROGAMES; [congruence|].
      cbn [List.length]. lia. }
    specialize (Hi Hn). split; [exact Hi|].
    unfold DebugMenuScene.enter.
    destruct (Z.ltb_spec 0 (DebugMenuScene.buttons MICROGAMES)) as [_|H]; [|lia].
    destruct (Z.ltb_spec (DebugMenuScene.selectedIndex s) 0) as [H|_]; [lia|].
    destruct (nth_error MICROGAMES (Z.to_nat (DebugMenuScene.selectedIndex s)))
      as [g|] eqn:E.
    + exists g. auto.
    + apply nth_error_None in E. unfold DebugMenuScene.buttons, JS.len in Hi. lia.
Qed.

Lemma debug_menu_stays_in_bounds_witness :
  let s := DebugMenuScene.play Registry.MICROGAME_METADATA
             (DebugMenuScene.create Registry.MICROGAME_METADATA)
             [DebugMenuScene.Down; DebugMenuScene.Wheel 5000;
              DebugMenuScene.PointerOver 11; DebugMenuScene.Down;
              DebugMenuScene.PageUp; DebugMenuScene.Up] in
  (0 <= DebugMenuScene.scrollY s <= DebugMenuScene.maxScrollY s)%Q /\
  0 <= DebugMenuScene.selectedIndex s < 12.
Proof.
  intros s.
  destruct (debug_menu_stays_in_bounds Registry.MICROGAME_METADATA
              [DebugMenuScene.Down; DebugMenuScene.Wheel 5000;
               DebugMenuScene.PointerOver 11; DebugMenuScene.Down;
               DebugMenuScene.PageUp; DebugMenuScene.Up])
    as (H1 & _ & _ & H2).
  - repeat constructor; cbn; lia.
  - split; [exact H1|]. apply H2. discriminate.
Defined.

(** X26: after UP or DOWN the selected button is scrolled into the
    viewport of 380 pixels: its bottom edge is inside, and so is its top
    edge unless it is the first button, whose upper 45 pixels lie above the
    viewport at scroll position 0 and can never be scrolled in. *)
Theorem selected_button_in_view (MICROGAMES : list MicrogameInfo)
    (inputs : list DebugMenuScene.Input) (arrow : DebugMenuScene.Input) :
  Forall (DebugMenuScene.fromButton MICROGAMES) inputs ->
  MICROGAMES <> [] ->
  arrow = DebugMenuScene.Up \/ arrow = DebugMenuScene.Down ->
  let s := DebugMenuScene.play MICROGAMES (DebugMenuScene.create MICROGAMES)
             (inputs ++ [arrow]) in
  let i := DebugMenuScene.selectedIndex s in
  (DebugMenuScene.buttonBottom i
   <= DebugMenuScene.scrollY s + DebugMenuScene.viewportHeight)%Q /\
  (1 <= i -> (DebugMenuScene.scrollY s <= DebugMenuScene.buttonTop i)%Q) /\
  (i = 0 -> (DebugMenuScene.scrollY s == 0 /\ DebugMenuScene.buttonTop i < 0)%Q).
Proof.
  intros Hall Hne Harrow s i. subst i s.
  unfold DebugMenuScene.play. rewrite fold_left_app. cbn [fold_left].
  fold (DebugMenuScene.play MICROGAMES (DebugMenuScene.create MICROGAMES) inputs).
  pose proof (MenuFacts.inBounds_play MICROGAMES inputs _
                (MenuFacts.inBounds_create MICROGAMES) Hall) as Hb.
  set (s0 := DebugMenuScene.play MICROGAMES (DebugMenuScene.create MICROGAMES) inputs) in *.
  assert (Hn : 0 < DebugMenuScene.buttons MICROGAMES).
  { unfold DebugMenuScene.buttons, JS.len. destruct MICROGAMES; [congruence|].
    cbn [List.length]. lia. }
  pose proof Hb as (_ & _ & Hi & _). specialize (Hi Hn).
  assert (Hgen : forall index, 0 <= index < DebugMenuScene.buttons MICROGAMES ->
    let s' := DebugMenuScene.ensureButtonVisible MICROGAMES index
                (DebugMenuScene.select index s0) in
    DebugMenuScene.selectedIndex s' = index /\
    (DebugMenuScene.buttonBottom index
     <= DebugMenuScene.scrollY s' + DebugMenuScene.viewportHeight)%Q /\
    (1 <= index -> (DebugMenuScene.scrollY s' <= DebugMenuScene.buttonTop index)%Q) /\
    (index = 0 ->
     (DebugMenuScene.scrollY s' == 0 /\ DebugMenuScene.buttonTop index < 0)%Q)).
  { intros index Hidx. cbv zeta.
    assert (Hsel : DebugMenuScene.inBounds MICROGAMES (DebugMenuScene.select index s0)).
    { apply MenuFacts.inBounds_select; [exact Hb | intros _; exact Hidx | lia]. }
    destruct (MenuFacts.ensure_in_view MICROGAMES index _ Hsel Hidx) as (H1 & H2 & H3).
    split.
    - unfold DebugMenuScene.ensureButtonVisible.
      destruct (_ || _ || _)%bool; [reflexivity|]. cbv zeta.
      destruct (DebugMenuScene.Qlt_bool _ _); [reflexivity|].
      destruct (DebugMenuScene.Qlt_bool _ _); reflexivity.
    - split; [exact H1|]. split; [exact H2|].
      intros E. split; [exact (H3 E)|]. subst index. reflexivity. }
  destruct Harrow as [-> | ->]; cbn [DebugMenuScene.handle];
    (destruct (Z.ltb_spec 0 (DebugMenuScene.buttons MICROGAMES)) as [_|H]; [|lia]);
    cbv zeta; cbn [DebugMenuScene.select DebugMenuScene.selectedIndex].
  - destruct (Hgen (Z.max 0 (DebugMenuScene.selectedIndex s0 - 1))) as (E & H); [lia|].
    unfold DebugMenuScene.select in *. rewrite E. exact H.
  - destruct (Hgen (Z.min (DebugMenuScene.buttons MICROGAMES - 1)
                      (DebugMenuScene.selectedIndex s0 + 1))) as (E & H); [lia|].
    unfold DebugMenuScene.select in *. rewrite E. exact H.
Qed.

Lemma selected_button_in_view_witness :
  let s := DebugMenuScene.play Registry.MICROGAME_METADATA
             (DebugMenuScene.create Registry.MICROGAME_METADATA)
             ([DebugMenuScene.PointerOver 9; DebugMenuScene.PageUp]
              ++ [DebugMenuScene.Down]) in
  let i := DebugMenuScene.selectedIndex s in
  (DebugMenuScene.buttonBottom i
   <= DebugMenuScene.scrollY s + DebugMenuScene.viewportHeight)%Q /\
  (1 <= i -> (DebugMenuScene.scrollY s <= DebugMenuScene.buttonTop i)%Q) /\
  (i = 0 -> (DebugMenuScene.scrollY s == 0 /\ DebugMenuScene.buttonTop i < 0)%Q).
Proof.
  apply (selected_button_in_view Registry.MICROGAME_METADATA
           [DebugMenuScene.PointerOver 9; DebugMenuScene.PageUp]
           DebugMenuScene.Down).
  - repeat constructor; cbn; lia.
  - discriminate.
  - right. reflexivity.
Defined.

(* ================================================================= *)
(** ** The heart break of the transition scene *)

(** X27: the transition scene shows the breaking heart exactly when the
    round before it took a life.  For every round of a session that goes on
    to another transition, the scene is started with that round's outcome
    as [lastGameWon], on that round's state and key; the heart break is
    shown iff [lives] is one less than the round started with, and not shown
    iff [lives] is unchanged.  The transition entered from the title scene,
    which passes no [lastGameWon], shows none. *)
Theorem heart_break_shows_lost_life (MICROGAMES : list MicrogameInfo)
    (sceneExists : string -> bool) (getGameDuration : string -> Z)
    (physicsWorld : string -> bool) (oldKey : string) (gs : GameState)
    (prev : option string) (script : list RoundScript) :
  Displays.showsHeartBreak None = false /\
  Forall (fun pr =>
            forall gs' w k,
              delayedTransition (after pr) = Some (StartTransitionScene gs' w k) ->
              gs' = gameState (after pr) /\ k = sceneKey (after pr) /\
              w = roundWon pr /\
              (Displays.showsHeartBreak (Some w) = true
               <-> lives gs' = lives (before pr) - 1) /\
              (Displays.showsHeartBreak (Some w) = false
               <-> lives gs' = lives (before pr)))
    (playSession MICROGAMES sceneExists getGameDuration physicsWorld
       oldKey gs prev script).
Proof.
  split; [reflexivity|].
  revert oldKey gs prev.
  induction script as [|r script IH]; intros oldKey gs prev; [constructor|].
  destruct (playSession MICROGAMES sceneExists getGameDuration physicsWorld
              oldKey gs prev (r :: script)) as [|pr rest] eqn:E; [constructor|].
  destruct (SessionMore.playSession_cons _ _ _ _ _ _ _ _ _ _ _ E) as (Hp & Hrest).
  constructor.
  - intros gs' w k Ht.
    destruct (SessionFacts.playOne_round _ _ _ _ _ _ _ _ Hp) as (_ & Hs & Hg & _).
    pose proof (SessionMore.roundWon_won _ _ _ _ _ _ _ _ Hp) as Hw.
    destruct (SessionMore.delayedTransition_continues _ _ _ _ Ht) as (-> & -> & _).
    assert (Ew : w = won (after pr)).
    { unfold delayedTransition in Ht. rewrite Hs in Ht.
      destruct (JS.truthy_bool _); [discriminate Ht|].
      destruct (_ <=? 0); [discriminate Ht|]. now injection Ht as <-. }
    split; [reflexivity|]. split; [reflexivity|]. split; [congruence|].
    rewrite Hg, Ew. unfold Displays.showsHeartBreak, Displays.lastGameWon.
    destruct (won (after pr)); cbn; split; split; intros H;
      try discriminate H; try reflexivity; try lia.
  - destruct Hrest as [-> | (-> & _)]; [constructor | apply IH].
Qed.
